(** * PSBT codec and coin selection: a shallow embedding

    The development follows two translation units of the wallet:

    - [script/sign.h]: [PartiallySignedTransaction::Serialize] and
      [PartiallySignedTransaction::Unserialize], the PSBT wire codec;
    - [wallet/coinselection.cpp]: [SelectCoinsBnB], [ApproximateBestSubset]
      and [KnapsackSolver].

    Unsigned machine integers are [N] with the wrap-around written where the
    code can wrap; byte streams are [list byte].  [CAmount] (a signed 64-bit
    integer) is [Z].  Module [CoinSelection] computes with the sums and
    differences of [Z]: signed overflow is undefined in C++, and this is the
    code on every run that does not overflow.  Module [CoinSelection64] is
    the same code with the wrap-around of the compiled code written out; the
    two agree when the amounts of a call are in range ([AmountRange]), and
    the properties that turn on a sum of amounts are stated for
    [CoinSelection64] under that condition. *)

From Stdlib Require Import ZArith NArith List Lia Bool.
From Stdlib.Strings Require Import Byte.
From Stdlib Require Import Permutation Sorted.
From stdpp Require Import list.
Import ListNotations.

(** ** Results of fallible code *)

Inductive result (E A : Type) : Type :=
| Ok (a : A)
| Err (e : E).
Arguments Ok {E A} a.
Arguments Err {E A} e.

Definition bind {E A B : Type} (m : result E A) (k : A -> result E B) : result E B :=
  match m with
  | Ok a => k a
  | Err e => Err e
  end.

Notation "'let*' x ':=' e 'in' k" := (bind e (fun x => k))
  (at level 10, x pattern, e at level 200, k at level 200, only parsing).

(** ** Primitive value layer *)

Definition bytes := list byte.

#[global] Instance byte_eq_dec : EqDecision byte := Byte.byte_eq_dec.

Record COutPoint := { hash : bytes; n : N }.

Record CTxOut := { nValue : Z; scriptPubKey : bytes }.

Record CTxIn := {
  prevout : COutPoint;
  scriptSig : bytes;
  nSequence : N;
  scriptWitness : list bytes
}.

Record CMutableTransaction := {
  nVersion : Z;
  vin : list CTxIn;
  vout : list CTxOut;
  nLockTime : N
}.

#[global] Instance COutPoint_eq_dec : EqDecision COutPoint.
Proof. solve_decision. Defined.

(** Modelled from the spec: [primitives/transaction.h] is not among the
    sources; the records above follow the table of section 3.1.  A default
    [CTxOut] is null: [nValue = -1] and an empty script. *)
Definition CTxOut_null : CTxOut := {| nValue := -1; scriptPubKey := [] |}.

(** Modelled from the spec: [CTxOut::IsNull] of [primitives/transaction.h]. *)
Definition CTxOut_IsNull (o : CTxOut) : bool := (nValue o =? -1)%Z.

(** Modelled from the spec: [CTransaction::IsNull] of
    [primitives/transaction.h]; a transaction is null when it has neither
    inputs nor outputs. *)
Definition CTransaction_IsNull (t : CMutableTransaction) : bool :=
  match vin t, vout t with
  | [], [] => true
  | _, _ => false
  end.

(** Modelled from the spec: [CMutableTransaction()] of
    [primitives/transaction.h], an empty transaction of the current version. *)
Definition CMutableTransaction_default : CMutableTransaction :=
  {| nVersion := 2; vin := []; vout := []; nLockTime := 0 |}.

Definition is_empty {A} (l : list A) : bool :=
  match l with
  | [] => true
  | _ :: _ => false
  end.

(** ** Byte streams

    [streams.h] and [serialize.h] are not among the sources: the reads and
    writes below follow sections 6.1 and 7 of the spec.  Reading past the end
    of the stream throws, integers are little-endian, and CompactSize is the
    1/3/5/9-byte length prefix, read canonically. *)

Module Stream.
Local Open Scope N_scope.

Inductive psbt_error : Type :=
| InvalidMagic                 (* "Invalid PSBT magic bytes" *)
| NonCanonicalCompactSize      (* "non-canonical ReadCompactSize()" *)
| UnexpectedEof                (* end of data while reading *)
| BadKeyLength (tag : byte)    (* "Size of key was not the expected size ..." *)
| HashMismatch (tag : byte)    (* "Provided hash160/sha256 does not match ..." *)
| UtxoMismatch                 (* "Provided non witness utxo does not match ..." *)
| IndexPolicyViolation         (* "Input indexes being used but an input ..." *)
| UnexpectedInputCount         (* "Inputs provided does not match the number ..." *)
| MalformedEmbeddedTransaction (* failure inside the transaction codec *)
| UndefinedIndex.              (* tx.vin[input.index] past the end: undefined in C++ *)

Definition res := result psbt_error.

Definition byte_of_N (v : N) : byte :=
  match Byte.of_N v with
  | Some b => b
  | None => x00
  end.

Fixpoint le_to_N (bs : bytes) : N :=
  match bs with
  | [] => 0
  | b :: r => Byte.to_N b + 256 * le_to_N r
  end.

Fixpoint N_to_le (width : nat) (v : N) : bytes :=
  match width with
  | O => []
  | S w => byte_of_N (v mod 256) :: N_to_le w (v / 256)
  end.

(** Modelled from the spec: [s.read(buf, len)] of [streams.h], the next
    [len] bytes, or [UnexpectedEof]. *)
Definition read (len : N) (s : bytes) : res (bytes * bytes) :=
  if len <=? N.of_nat (length s)
  then Ok (take (N.to_nat len) s, drop (N.to_nat len) s)
  else Err UnexpectedEof.

Definition read_le (width : N) (s : bytes) : res (N * bytes) :=
  let* (bs, s') := read width s in Ok (le_to_N bs, s').

Definition read_u8 := read_le 1.
Definition read_u32 := read_le 4.
Definition read_u64 := read_le 8.

(** A 32-bit [int] read from its two's complement bytes. *)
Definition to_int32 (v : N) : Z :=
  if v <? 2 ^ 31 then Z.of_N v else (Z.of_N v - 2 ^ 32)%Z.

Definition of_int32 (z : Z) : N := Z.to_N (z mod 2 ^ 32).

Definition read_i32 (s : bytes) : res (Z * bytes) :=
  let* (v, s') := read_u32 s in Ok (to_int32 v, s').

(** Modelled from the spec: [ReadCompactSize] of [serialize.h], section 6.1;
    a value that a shorter form could carry is [NonCanonicalCompactSize]. *)
Definition ReadCompactSize (s : bytes) : res (N * bytes) :=
  let* (chSize, s1) := read_u8 s in
  if chSize <? 253 then Ok (chSize, s1)
  else if chSize =? 253 then
    let* (v, s2) := read_le 2 s1 in
    if v <? 253 then Err NonCanonicalCompactSize else Ok (v, s2)
  else if chSize =? 254 then
    let* (v, s2) := read_le 4 s1 in
    if v <? 0x10000 then Err NonCanonicalCompactSize else Ok (v, s2)
  else
    let* (v, s2) := read_le 8 s1 in
    if v <? 0x100000000 then Err NonCanonicalCompactSize else Ok (v, s2).

(** Modelled from the spec: [WriteCompactSize] of [serialize.h], section 6.1. *)
Definition WriteCompactSize (v : N) : bytes :=
  if v <? 253 then N_to_le 1 v
  else if v <=? 0xFFFF then xfd :: N_to_le 2 v
  else if v <=? 0xFFFFFFFF then xfe :: N_to_le 4 v
  else xff :: N_to_le 8 v.

(** Modelled from the spec: [s << v] of [serialize.h] for a byte vector or a
    script, the length prefix and then the bytes. *)
Definition write_vector (v : bytes) : bytes :=
  WriteCompactSize (N.of_nat (length v)) ++ v.

End Stream.
Export Stream.

(** ** Ordered maps

    [std::map] with byte-string keys: entries are kept in key order, and
    [emplace] leaves the map alone when the key is already present. *)

Module StdMap.

(** Modelled from the spec: the comparison operators of [uint160], [uint256]
    and [CPubKey] are not among the sources; keys compare bytewise. *)
Fixpoint bytes_ltb (a b : bytes) : bool :=
  match a, b with
  | [], [] => false
  | [], _ :: _ => true
  | _ :: _, [] => false
  | x :: a', y :: b' =>
      if (Byte.to_N x <? Byte.to_N y)%N then true
      else if (Byte.to_N y <? Byte.to_N x)%N then false
      else bytes_ltb a' b'
  end.

Definition t (V : Type) := list (bytes * V).

Fixpoint emplace {V} (k : bytes) (v : V) (m : t V) : t V :=
  match m with
  | [] => [(k, v)]
  | (k', v') :: r =>
      if decide (k = k') then m
      else if bytes_ltb k k' then (k, v) :: m
      else (k', v') :: emplace k v r
  end.

End StdMap.

(** ** The PSBT aggregate ([script/sign.h]) *)

Module Input.

(** [struct PartiallySignedInput].  A null [CTransactionRef] is [None]. *)
Record t := mk {
  non_witness_utxo : option CMutableTransaction;
  witness_utxo : CTxOut;
  partial_sigs : StdMap.t bytes;
  unknown : StdMap.t bytes;
  sighash_type : Z;
  index : N;
  use_in_index : bool
}.

Definition default : t :=
  mk None CTxOut_null [] [] 0 0 false.

Definition set_non_witness_utxo (i : t) v :=
  mk v (witness_utxo i) (partial_sigs i) (unknown i) (sighash_type i) (index i) (use_in_index i).
Definition set_witness_utxo (i : t) v :=
  mk (non_witness_utxo i) v (partial_sigs i) (unknown i) (sighash_type i) (index i) (use_in_index i).
Definition set_partial_sigs (i : t) v :=
  mk (non_witness_utxo i) (witness_utxo i) v (unknown i) (sighash_type i) (index i) (use_in_index i).
Definition set_unknown (i : t) v :=
  mk (non_witness_utxo i) (witness_utxo i) (partial_sigs i) v (sighash_type i) (index i) (use_in_index i).
Definition set_sighash_type (i : t) v :=
  mk (non_witness_utxo i) (witness_utxo i) (partial_sigs i) (unknown i) v (index i) (use_in_index i).
Definition set_index (i : t) v :=
  mk (non_witness_utxo i) (witness_utxo i) (partial_sigs i) (unknown i) (sighash_type i) v (use_in_index i).
Definition set_use_in_index (i : t) v :=
  mk (non_witness_utxo i) (witness_utxo i) (partial_sigs i) (unknown i) (sighash_type i) (index i) v.

End Input.

(** The collaborators the codec consumes and whose code is not among the
    sources: the two hashers, the consensus encoding of transactions and
    outputs, the transaction id, and [PartiallySignedInput::SetNull] (declared
    in [sign.h], defined elsewhere).  They are parameters of the codec, and
    every statement about the codec holds for all of them. *)
Class Primitives := {
  Hash160 : bytes -> bytes;
  SHA256 : bytes -> bytes;
  SerializeTx : CMutableTransaction -> bytes;
  UnserializeTx : bytes -> res (CMutableTransaction * bytes);
  SerializeTxOut : CTxOut -> bytes;
  UnserializeTxOut : bytes -> res (CTxOut * bytes);
  GetHash : CMutableTransaction -> bytes;
  SetNull : Input.t -> Input.t;
  (* the codecs read from the front of the stream: what they leave is a
     suffix of what they were given *)
  UnserializeTx_suffix :
    forall s t s', UnserializeTx s = Ok (t, s') -> (length s' <= length s)%nat;
  UnserializeTxOut_suffix :
    forall s o s', UnserializeTxOut s = Ok (o, s') -> (length s' <= length s)%nat
}.

Module PSBT.
Local Open Scope N_scope.
Import StdMap.

Definition PSBT_MAGIC_BYTES : N := 0x74627370.
Definition PSBT_UNSIGNED_TX_NON_WITNESS_UTXO : byte := x00.
Definition PSBT_REDEEMSCRIPT_WITNESS_UTXO : byte := x01.
Definition PSBT_WITNESSSCRIPT_PARTIAL_SIG : byte := x02.
Definition PSBT_BIP32_KEYPATH_SIGHASH : byte := x03.
Definition PSBT_NUM_IN_VIN : byte := x04.
Definition PSBT_SEPARATOR : byte := x00.

(** Modelled from the spec: [CPubKey::PUBLIC_KEY_SIZE] of [pubkey.h]; a public
    key is its 33 or 65 bytes. *)
Definition PUBLIC_KEY_SIZE : nat := 65.

(** Modelled from the spec: [CPubKey::COMPRESSED_PUBLIC_KEY_SIZE] of
    [pubkey.h]. *)
Definition COMPRESSED_PUBLIC_KEY_SIZE : nat := 33.

(** [struct PartiallySignedTransaction] *)
Record t := mk {
  tx : CMutableTransaction;
  redeem_scripts : StdMap.t bytes;
  witness_scripts : StdMap.t bytes;
  inputs : list Input.t;
  unknown : StdMap.t bytes;
  hd_keypaths : StdMap.t (list N);
  num_ins : N;
  use_in_index : bool
}.

(** [PartiallySignedTransaction()] *)
Definition default : t :=
  mk CMutableTransaction_default [] [] [] [] [] 0 false.

Definition set_tx (p : t) v :=
  mk v (redeem_scripts p) (witness_scripts p) (inputs p) (unknown p) (hd_keypaths p) (num_ins p) (use_in_index p).
Definition set_redeem_scripts (p : t) v :=
  mk (tx p) v (witness_scripts p) (inputs p) (unknown p) (hd_keypaths p) (num_ins p) (use_in_index p).
Definition set_witness_scripts (p : t) v :=
  mk (tx p) (redeem_scripts p) v (inputs p) (unknown p) (hd_keypaths p) (num_ins p) (use_in_index p).
Definition set_inputs (p : t) v :=
  mk (tx p) (redeem_scripts p) (witness_scripts p) v (unknown p) (hd_keypaths p) (num_ins p) (use_in_index p).
Definition set_unknown (p : t) v :=
  mk (tx p) (redeem_scripts p) (witness_scripts p) (inputs p) v (hd_keypaths p) (num_ins p) (use_in_index p).
Definition set_hd_keypaths (p : t) v :=
  mk (tx p) (redeem_scripts p) (witness_scripts p) (inputs p) (unknown p) v (num_ins p) (use_in_index p).
Definition set_num_ins (p : t) v :=
  mk (tx p) (redeem_scripts p) (witness_scripts p) (inputs p) (unknown p) (hd_keypaths p) v (use_in_index p).
Definition set_use_in_index (p : t) v :=
  mk (tx p) (redeem_scripts p) (witness_scripts p) (inputs p) (unknown p) (hd_keypaths p) (num_ins p) v.

Section Codec.
Context {P : Primitives}.

(** *** [Serialize] ([sign.h], lines 128-217) *)

Definition write_entry (tag : byte) (e : bytes * bytes) : bytes :=
  write_vector (tag :: fst e) ++ write_vector (snd e).

Definition write_keypath (e : bytes * list N) : bytes :=
  write_vector (PSBT_BIP32_KEYPATH_SIGHASH :: fst e)
  ++ WriteCompactSize (N.of_nat (length (snd e)) * 4)
  ++ flat_map (N_to_le 4) (snd e).

Definition write_unknown (e : bytes * bytes) : bytes :=
  write_vector (fst e) ++ write_vector (snd e).

Definition serialize_globals (p : t) : bytes :=
  N_to_le 4 PSBT_MAGIC_BYTES ++ [xff]
  ++ (if CTransaction_IsNull (tx p) then []
      else write_vector [PSBT_UNSIGNED_TX_NON_WITNESS_UTXO]
           ++ write_vector (SerializeTx (tx p)))
  ++ flat_map (write_entry PSBT_REDEEMSCRIPT_WITNESS_UTXO) (redeem_scripts p)
  ++ flat_map (write_entry PSBT_WITNESSSCRIPT_PARTIAL_SIG) (witness_scripts p)
  ++ flat_map write_keypath (hd_keypaths p)
  ++ (if 0 <? num_ins p
      then write_vector [PSBT_NUM_IN_VIN]
           ++ write_vector (WriteCompactSize (num_ins p))
      else [])
  ++ flat_map write_unknown (unknown p)
  ++ [PSBT_SEPARATOR].

Definition serialize_input (p : t) (txin : CTxIn) (psbt_in : Input.t) : bytes :=
  (if is_empty (scriptSig txin) && is_empty (scriptWitness txin)
   then
     match Input.non_witness_utxo psbt_in with
     | Some utxo =>
         write_vector [PSBT_UNSIGNED_TX_NON_WITNESS_UTXO]
         ++ write_vector (SerializeTx utxo)
     | None =>
         if negb (CTxOut_IsNull (Input.witness_utxo psbt_in))
         then write_vector [PSBT_REDEEMSCRIPT_WITNESS_UTXO]
              ++ write_vector (SerializeTxOut (Input.witness_utxo psbt_in))
         else []
     end
     ++ flat_map (write_entry PSBT_WITNESSSCRIPT_PARTIAL_SIG) (Input.partial_sigs psbt_in)
     ++ (if (0 <? Input.sighash_type psbt_in)%Z
         then write_vector [PSBT_BIP32_KEYPATH_SIGHASH]
              ++ write_vector (N_to_le 4 (of_int32 (Input.sighash_type psbt_in)))
         else [])
     ++ (if use_in_index p
         then write_vector [PSBT_NUM_IN_VIN]
              ++ write_vector (WriteCompactSize (Input.index psbt_in))
         else [])
   else [])
  ++ flat_map write_unknown (Input.unknown psbt_in)
  ++ [PSBT_SEPARATOR].

(** The loop over [tx.vin]; [inputs[i]] past the end of [inputs] is undefined
    in C++ and is [None] here. *)
Fixpoint serialize_inputs (p : t) (txins : list CTxIn) (ins : list Input.t) : option bytes :=
  match txins with
  | [] => Some []
  | txin :: txins' =>
      match ins with
      | [] => None
      | psbt_in :: ins' =>
          match serialize_inputs p txins' ins' with
          | Some rest => Some (serialize_input p txin psbt_in ++ rest)
          | None => None
          end
      end
  end.

Definition Serialize (p : t) : option bytes :=
  match serialize_inputs p (vin (tx p)) (inputs p) with
  | Some body => Some (serialize_globals p ++ body)
  | None => None
  end.

(** *** [Unserialize] ([sign.h], lines 220-451)

    The locals of the read loop next to the object under construction. *)
Record pstate := mkst {
  psbt : t;
  separators : N;        (* uint32_t *)
  input : Input.t;
  in_globals : bool
}.

Definition with_psbt (st : pstate) (p : t) : pstate :=
  mkst p (separators st) (input st) (in_globals st).
Definition with_input (st : pstate) (i : Input.t) : pstate :=
  mkst (psbt st) (separators st) i (in_globals st).

Definition uint32_wrap (v : Z) : N := Z.to_N (v mod 2 ^ 32).

(** [if (key_len == 0) { ... continue; }], lines 250-275.  [s] is the
    stream after the separator byte. *)
Definition separator (st : pstate) (s : bytes) : res pstate :=
  let* st1 :=
    (if 0 <? separators st then
       if negb (use_in_index (psbt st)) && negb (Input.use_in_index (input st))
       then Err IndexPolicyViolation
       else
         Ok (mkst (set_inputs (psbt st) (inputs (psbt st) ++ [input st]))
                  (separators st)
                  (Input.set_index (SetNull (input st))
                     (uint32_wrap (Z.of_N (separators st) - 1)))
                  false)
     else Ok (mkst (psbt st) (separators st) (input st) false)) in
  let separators' := uint32_wrap (Z.of_N (separators st1) + 1) in
  if is_empty s && (uint32_wrap (Z.of_N separators' - 1) =? num_ins (psbt st1))
  then Err UnexpectedInputCount
  else Ok (mkst (psbt st1) separators' (input st1) (in_globals st1)).

(** The [default:] label, lines 436-448: the value is kept under its key,
    verbatim. *)
Definition unknown_record (st : pstate) (key : bytes) (value_len : N) (s : bytes)
  : res (pstate * bytes) :=
  let* (val_bytes, s1) := read value_len s in
  if in_globals st
  then Ok (with_psbt st (set_unknown (psbt st) (emplace key val_bytes (unknown (psbt st)))), s1)
  else Ok (with_input st
             (Input.set_unknown (input st) (emplace key val_bytes (Input.unknown (input st)))),
           s1).

Definition pubkey_key_ok (key : bytes) : bool :=
  bool_decide (length key = S PUBLIC_KEY_SIZE)
  || bool_decide (length key = S COMPRESSED_PUBLIC_KEY_SIZE).

(** [for (unsigned int i = 0; i < value_len; i += sizeof(uint32_t))]: [i] is
    32 bits wide and wraps.  Every turn consumes four bytes, so a fuel of
    the stream length plus one is never used up. *)
Fixpoint read_keypath (fuel : nat) (i value_len : N) (s : bytes) (keypath : list N)
  : res (list N * bytes) :=
  if i <? value_len then
    match fuel with
    | O => Err UnexpectedEof
    | S fuel' =>
        let* (idx, s1) := read_u32 s in
        read_keypath fuel' ((i + 4) mod 2 ^ 32) value_len s1 (keypath ++ [idx])
    end
  else Ok (keypath, s).

(** [case PSBT_UNSIGNED_TX_NON_WITNESS_UTXO], lines 292-308.  [value_len] is
    not used: the transaction codec finds the end of the value itself. *)
Definition case_UNSIGNED_TX_NON_WITNESS_UTXO (st : pstate) (s : bytes) : res (pstate * bytes) :=
  if in_globals st then
    let* (new_tx, s1) := UnserializeTx s in
    Ok (with_psbt st (set_tx (psbt st) new_tx), s1)
  else
    let* (prev_tx, s1) := UnserializeTx s in
    if Input.index (input st) <? N.of_nat (length (vin (tx (psbt st)))) then
      match vin (tx (psbt st)) !! N.to_nat (Input.index (input st)) with
      | Some txin =>
          if bool_decide (hash (prevout txin) = GetHash prev_tx)
          then Ok (with_input st (Input.set_non_witness_utxo (input st) (Some prev_tx)), s1)
          else Err UtxoMismatch
      | None => Err UndefinedIndex
      end
    else Err UndefinedIndex.

(** [case PSBT_REDEEMSCRIPT_WITNESS_UTXO], lines 310-345. *)
Definition case_REDEEMSCRIPT_WITNESS_UTXO (st : pstate) (key : bytes) (value_len : N) (s : bytes)
  : res (pstate * bytes) :=
  if in_globals st then
    if negb (bool_decide (length key = 21%nat))
    then Err (BadKeyLength PSBT_REDEEMSCRIPT_WITNESS_UTXO)
    else
      let hash160 := tail key in
      let* (redeemscript_bytes, s1) := read value_len s in
      if negb (bool_decide (hash160 = Hash160 redeemscript_bytes))
      then Err (HashMismatch PSBT_REDEEMSCRIPT_WITNESS_UTXO)
      else Ok (with_psbt st
                 (set_redeem_scripts (psbt st)
                    (emplace hash160 redeemscript_bytes (redeem_scripts (psbt st)))),
               s1)
  else
    let* (txo, s1) := UnserializeTxOut s in
    Ok (with_input st (Input.set_witness_utxo (input st) txo), s1).

(** [case PSBT_WITNESSSCRIPT_PARTIAL_SIG], lines 347-391. *)
Definition case_WITNESSSCRIPT_PARTIAL_SIG (st : pstate) (key : bytes) (value_len : N) (s : bytes)
  : res (pstate * bytes) :=
  if in_globals st then
    if negb (bool_decide (length key = 33%nat))
    then Err (BadKeyLength PSBT_WITNESSSCRIPT_PARTIAL_SIG)
    else
      let hash256 := tail key in
      let* (witnessscript_bytes, s1) := read value_len s in
      if negb (bool_decide (hash256 = SHA256 witnessscript_bytes))
      then Err (HashMismatch PSBT_WITNESSSCRIPT_PARTIAL_SIG)
      else Ok (with_psbt st
                 (set_witness_scripts (psbt st)
                    (emplace hash256 witnessscript_bytes (witness_scripts (psbt st)))),
               s1)
  else
    if negb (pubkey_key_ok key)
    then Err (BadKeyLength PSBT_WITNESSSCRIPT_PARTIAL_SIG)
    else
      let pubkey := tail key in
      let* (sig, s1) := read value_len s in
      Ok (with_input st
            (Input.set_partial_sigs (input st)
               (emplace pubkey sig (Input.partial_sigs (input st)))),
          s1).

(** [case PSBT_BIP32_KEYPATH_SIGHASH], lines 393-418. *)
Definition case_BIP32_KEYPATH_SIGHASH (st : pstate) (key : bytes) (value_len : N) (s : bytes)
  : res (pstate * bytes) :=
  if in_globals st then
    if negb (pubkey_key_ok key)
    then Err (BadKeyLength PSBT_BIP32_KEYPATH_SIGHASH)
    else
      let pubkey := tail key in
      let* (keypath, s1) := read_keypath (S (length s)) 0 value_len s [] in
      Ok (with_psbt st
            (set_hd_keypaths (psbt st) (emplace pubkey keypath (hd_keypaths (psbt st)))),
          s1)
  else
    let* (v, s1) := read_i32 s in
    Ok (with_input st (Input.set_sighash_type (input st) v), s1).

(** [case PSBT_NUM_IN_VIN], lines 420-434, has no [break]: control falls
    into [default:], which reads [value_len] more bytes. *)
Definition case_NUM_IN_VIN (st : pstate) (key : bytes) (value_len : N) (s : bytes)
  : res (pstate * bytes) :=
  let* (st1, s1) :=
    (if in_globals st then
       let* (v, s1) := ReadCompactSize s in
       Ok (with_psbt st (set_num_ins (psbt st) v), s1)
     else
       if negb (use_in_index (psbt st)) && negb (separators st =? 1)
       then Err IndexPolicyViolation
       else
         let* (v, s1) := read_u64 s in
         Ok (mkst (set_use_in_index (psbt st) true)
                  (separators st)
                  (Input.set_use_in_index (Input.set_index (input st) v) true)
                  (in_globals st),
             s1)) in
  unknown_record st1 key value_len s1.

(** One turn of [while (!s.empty())], lines 240-450. *)
Definition step (st : pstate) (s : bytes) : res (pstate * bytes) :=
  let* (key_len, s1) := ReadCompactSize s in
  if key_len =? 0 then
    let* st1 := separator st s1 in Ok (st1, s1)
  else
    let* (key, s2) := read key_len s1 in
    let type := hd x00 key in
    let* (value_len, s3) := ReadCompactSize s2 in
    if bool_decide (type = PSBT_UNSIGNED_TX_NON_WITNESS_UTXO) then
      case_UNSIGNED_TX_NON_WITNESS_UTXO st s3
    else if bool_decide (type = PSBT_REDEEMSCRIPT_WITNESS_UTXO) then
      case_REDEEMSCRIPT_WITNESS_UTXO st key value_len s3
    else if bool_decide (type = PSBT_WITNESSSCRIPT_PARTIAL_SIG) then
      case_WITNESSSCRIPT_PARTIAL_SIG st key value_len s3
    else if bool_decide (type = PSBT_BIP32_KEYPATH_SIGHASH) then
      case_BIP32_KEYPATH_SIGHASH st key value_len s3
    else if bool_decide (type = PSBT_NUM_IN_VIN) then
      case_NUM_IN_VIN st key value_len s3
    else
      unknown_record st key value_len s3.

(** [while (!s.empty())].  Every turn consumes at least one byte
    ([step_consumes]), so a fuel of the stream length is never used up
    ([read_loop_fuel]). *)
Fixpoint read_loop (fuel : nat) (st : pstate) (s : bytes) : res pstate :=
  match s with
  | [] => Ok st
  | _ :: _ =>
      match fuel with
      | O => Err UnexpectedEof
      | S fuel' =>
          let* (st', s') := step st s in
          read_loop fuel' st' s'
      end
  end.

Definition initial (p : t) : pstate :=
  mkst p 0 (Input.set_index Input.default 0) true.

(** [Unserialize] on the object [p]: the magic is compared, the head byte
    [magic_sep] is read (lines 223-229). *)
Definition Unserialize (p : t) (s : bytes) : res t :=
  let* (magic, s1) := read_u32 s in
  if negb (magic =? PSBT_MAGIC_BYTES) then Err InvalidMagic
  else
    let* (magic_sep, s2) := read_u8 s1 in
    let* st := read_loop (length s2) (initial p) s2 in
    Ok (psbt st).

(** [PartiallySignedTransaction(deserialize_type, Stream& s)]: a fresh object,
    then [Unserialize]. *)
Definition deserialize (s : bytes) : res t := Unserialize default s.

End Codec.
End PSBT.

(** ** Coin selection ([wallet/coinselection.cpp]) *)

Module CoinSelection.
Local Open Scope Z_scope.

Definition CAmount := Z.

(** [class CInputCoin], with the members [coinselection.cpp] reads
    ([fee], [long_term_fee]). *)
Record CInputCoin := {
  outpoint : COutPoint;
  txout : CTxOut;
  effective_value : CAmount;
  fee : CAmount;
  long_term_fee : CAmount
}.

(** [std::set<CInputCoin>]: [operator<] compares the outpoints, so two coins
    with one outpoint are one element and the second [insert] is dropped.
    The order of iteration plays no part below; elements are kept in the
    order of insertion. *)
Definition coin_set := list CInputCoin.

Definition set_contains (s : coin_set) (c : CInputCoin) : bool :=
  existsb (fun c' => bool_decide (outpoint c' = outpoint c)) s.

Definition set_insert (s : coin_set) (c : CInputCoin) : coin_set :=
  if set_contains s c then s else s ++ [c].

(** What a selector leaves behind: the returned flag, the pool (both
    selectors reorder it in place) and the two output parameters. *)
Record outcome := mkout {
  ret : bool;
  pool_after : list CInputCoin;
  out_set : coin_set;
  value_ret : CAmount
}.

Inductive fault : Type :=
| AssertionFailed     (* assert(utxo_pool.at(depth).effective_value > 0) *)
| OutOfRange.         (* std::out_of_range from vector::at *)

Definition fres := result fault.

Definition at_ {A} (v : list A) (i : Z) : fres A :=
  if i <? 0 then Err OutOfRange
  else match v !! Z.to_nat i with
       | Some x => Ok x
       | None => Err OutOfRange
       end.

(** [std::sort(..., descending)].  The order of coins of equal effective
    value is unspecified in C++; this is a stable insertion sort. *)
Definition descending (a b : CInputCoin) : bool :=
  effective_value b <? effective_value a.

Fixpoint insert_descending (c : CInputCoin) (l : list CInputCoin) : list CInputCoin :=
  match l with
  | [] => [c]
  | x :: r => if descending c x then c :: l else x :: insert_descending c r
  end.

Definition sort_descending (l : list CInputCoin) : list CInputCoin :=
  fold_left (fun acc c => insert_descending c acc) l [].

Definition sum_effective (l : list CInputCoin) : CAmount :=
  fold_left (fun acc u => acc + effective_value u) l 0.

Definition sum_value (l : list CInputCoin) : CAmount :=
  fold_left (fun acc u => acc + nValue (txout u)) l 0.

(** The coins of a vector whose flag is set in a selection vector of the same
    length, in index order: what the loops
    [for (i = 0; i < v.size(); i++) if (flags[i]) ... v[i] ...] visit. *)
Fixpoint selected (v : list CInputCoin) (flags : list bool) : list CInputCoin :=
  match v, flags with
  | u :: v', b :: flags' => if b then u :: selected v' flags' else selected v' flags'
  | _, _ => []
  end.

(** *** Branch and bound ([coinselection.cpp], lines 52-159) *)

Definition TOTAL_TRIES : N := 100000.

Record bnb_state := mkbnb {
  curr_value : CAmount;
  depth : Z;                         (* int *)
  curr_selection : list bool;
  curr_available_value : CAmount;
  curr_waste : CAmount;
  best_selection : list bool;
  best_waste : CAmount
}.

Inductive loop_ctl : Type := Continue | Break.

(** [--depth; while (depth >= 0 && !curr_selection.at(depth)) { ... --depth; }]
    entered with [depth = k]: the result is the new [depth] ([-1] when the walk
    falls off the front) and the new [curr_available_value]. *)
Fixpoint walk_back (pool : list CInputCoin) (sel : list bool) (k : nat) (avail : CAmount)
  : fres (Z * CAmount) :=
  match k with
  | O => Ok (-1, avail)
  | S k' =>
      let* b := at_ sel (Z.of_nat k') in
      if b then Ok (Z.of_nat k', avail)
      else
        let* u := at_ pool (Z.of_nat k') in
        walk_back pool sel k' (avail + effective_value u)
  end.

Section BnB.
Variable MAX_MONEY : CAmount.
Variable utxo_pool : list CInputCoin.       (* after the sort *)
Variables actual_target cost_of_change : CAmount.

(** The three conditions for starting a backtrack, with the short circuit
    of [||] and [&&]: [utxo_pool.at(0)] is only reached when the first two
    fail and [curr_waste > best_waste]. *)
Definition must_backtrack (st : bnb_state) : fres bool :=
  if (curr_value st + curr_available_value st <? actual_target)
     || (actual_target + cost_of_change <? curr_value st)
  then Ok true
  else if best_waste st <? curr_waste st then
    let* u0 := at_ utxo_pool 0 in
    Ok (0 <? fee u0 - long_term_fee u0)
  else Ok false.

(** [else if (curr_value >= actual_target)]: the selection is within range
    and is compared with the best one; [curr_waste] is back to its value
    afterwards. *)
Definition record_solution (st : bnb_state) : bnb_state :=
  let waste := curr_waste st + (curr_value st - actual_target) in
  if waste <=? best_waste st
  then mkbnb (curr_value st) (depth st) (curr_selection st) (curr_available_value st)
             (curr_waste st) (curr_selection st) waste
  else st.

Definition backtrack_step (st : bnb_state) : fres (loop_ctl * bnb_state) :=
  let* (d, avail) :=
    walk_back utxo_pool (curr_selection st) (Z.to_nat (depth st)) (curr_available_value st) in
  if d <? 0 then
    Ok (Break, mkbnb (curr_value st) d (curr_selection st) avail
                     (curr_waste st) (best_selection st) (best_waste st))
  else
    let* _ := at_ (curr_selection st) d in
    let* u := at_ utxo_pool d in
    Ok (Continue, mkbnb (curr_value st - effective_value u) (d + 1)
                        (<[Z.to_nat d := false]> (curr_selection st)) avail
                        (curr_waste st - (fee u - long_term_fee u))
                        (best_selection st) (best_waste st)).

(** [depth > 0 && !curr_selection.at(depth - 1) && same effective value &&
    same fee] *)
Definition equivalent_to_omitted (st : bnb_state) (u : CInputCoin) : fres bool :=
  if 0 <? depth st then
    let* prev_selected := at_ (curr_selection st) (depth st - 1) in
    if negb prev_selected then
      let* prev := at_ utxo_pool (depth st - 1) in
      Ok ((effective_value u =? effective_value prev) && (fee u =? fee prev))
    else Ok false
  else Ok false.

Definition forward_step (st : bnb_state) : fres (loop_ctl * bnb_state) :=
  let* u := at_ utxo_pool (depth st) in
  if negb (0 <? effective_value u) then Err AssertionFailed
  else
    let* skip := equivalent_to_omitted st u in
    let* _ := at_ (curr_selection st) (depth st) in
    if skip then
      Ok (Continue, mkbnb (curr_value st) (depth st + 1)
                          (<[Z.to_nat (depth st) := false]> (curr_selection st))
                          (curr_available_value st - effective_value u)
                          (curr_waste st) (best_selection st) (best_waste st))
    else
      Ok (Continue, mkbnb (curr_value st + effective_value u) (depth st + 1)
                          (<[Z.to_nat (depth st) := true]> (curr_selection st))
                          (curr_available_value st - effective_value u)
                          (curr_waste st + (fee u - long_term_fee u))
                          (best_selection st) (best_waste st)).

(** One turn of the depth-first search loop. *)
Definition bnb_iter (st : bnb_state) : fres (loop_ctl * bnb_state) :=
  let* b := must_backtrack st in
  if b then backtrack_step st
  else if actual_target <=? curr_value st then backtrack_step (record_solution st)
  else forward_step st.

(** [for (size_t i = 0; i < TOTAL_TRIES; ++i)] with its [break]. *)
Fixpoint bnb_loop (tries : nat) (st : bnb_state) : fres bnb_state :=
  match tries with
  | O => Ok st
  | S tries' =>
      let* (ctl, st') := bnb_iter st in
      match ctl with
      | Break => Ok st'
      | Continue => bnb_loop tries' st'
      end
  end.

(** The loop that fills [out_set] and [value_ret] from [best_selection],
    from index [i] on. *)
Fixpoint emit (best : list bool) (i : Z) (out : coin_set) (value : CAmount)
  : fres (coin_set * CAmount) :=
  match best with
  | [] => Ok (out, value)
  | b :: best' =>
      if b then
        let* u := at_ utxo_pool i in
        emit best' (i + 1) (set_insert out u) (value + nValue (txout u))
      else emit best' (i + 1) out value
  end.

Definition bnb_initial (available : CAmount) : bnb_state :=
  mkbnb 0 0 (replicate (length utxo_pool) false) available 0 [] MAX_MONEY.

End BnB.

(** [value_ret_in] is what the caller's [value_ret] holds on entry: the
    function only writes it on success. *)
Definition SelectCoinsBnB (MAX_MONEY : CAmount) (utxo_pool : list CInputCoin)
    (target_value cost_of_change : CAmount) (value_ret_in : CAmount)
    (not_input_fees : CAmount) : fres outcome :=
  let actual_target := not_input_fees + target_value in
  if sum_effective utxo_pool <? actual_target
  then Ok (mkout false utxo_pool [] value_ret_in)
  else
    let sorted := sort_descending utxo_pool in
    let* st := bnb_loop sorted actual_target cost_of_change
                 (N.to_nat TOTAL_TRIES)
                 (bnb_initial MAX_MONEY sorted (sum_effective utxo_pool)) in
    if is_empty (best_selection st)
    then Ok (mkout false sorted [] value_ret_in)
    else
      let* (out, value) := emit sorted (best_selection st) 0 [] 0 in
      Ok (mkout true sorted out value).

(** *** Knapsack ([coinselection.cpp], lines 161-294) *)

(** Modelled from the spec: [amount.h] is not among the sources;
    [MIN_CHANGE = COIN / 100] is 10^6 base units. *)
Definition MIN_CHANGE : CAmount := 1000000.

(** The state of one trial of [ApproximateBestSubset], together with the
    best subset so far. *)
Record trial := mktrial {
  nTotal : CAmount;
  vfIncluded : list bool;
  fReachedTarget : bool;
  nBest : CAmount;
  vfBest : list bool
}.

Definition flag (v : list bool) (i : nat) : bool :=
  match v !! i with
  | Some b => b
  | None => false
  end.

Section Approximate.
Variable vValue : list CInputCoin.
Variable nTargetValue : CAmount.

(** The body of [for (unsigned int i = 0; i < vValue.size(); i++)]; [take]
    is the outcome of [nPass == 0 ? insecure_rand.randbool() : !vfIncluded[i]]. *)
Definition visit (take : bool) (i : nat) (st : trial) : trial :=
  match vValue !! i with
  | None => st
  | Some coin =>
      if take then
        let total := nTotal st + nValue (txout coin) in
        let included := <[i := true]> (vfIncluded st) in
        if nTargetValue <=? total then
          let best := if total <? nBest st then (total, included) else (nBest st, vfBest st) in
          mktrial (total - nValue (txout coin)) (<[i := false]> included) true
                  (fst best) (snd best)
        else mktrial total included (fReachedTarget st) (nBest st) (vfBest st)
      else st
  end.

(** One pass over the coins: pass 0 draws a random bit per coin, pass 1
    takes every coin not yet included. *)
Definition pass (randbool : nat -> bool) (nPass : nat) (st : trial) : trial :=
  fold_left
    (fun st i =>
       visit (match nPass with
              | O => randbool i
              | _ => negb (flag (vfIncluded st) i)
              end) i st)
    (seq 0 (length vValue)) st.

(** [for (int nPass = 0; nPass < 2 && !fReachedTarget; nPass++)] *)
Definition repetition (randbool : nat -> bool) (best : CAmount * list bool)
  : CAmount * list bool :=
  let st0 := mktrial 0 (replicate (length vValue) false) false (fst best) (snd best) in
  let st1 := pass randbool 0 st0 in
  let st2 := if fReachedTarget st1 then st1 else pass randbool 1 st1 in
  (nBest st2, vfBest st2).

(** [for (int nRep = 0; nRep < iterations && nBest != nTargetValue; nRep++)];
    [rand nRep i] is the bit drawn for coin [i] in repetition [nRep]. *)
Fixpoint repetitions (rand : nat -> nat -> bool) (left nRep : nat)
    (best : CAmount * list bool) : CAmount * list bool :=
  match left with
  | O => best
  | S left' =>
      if fst best =? nTargetValue then best
      else repetitions rand left' (S nRep) (repetition (rand nRep) best)
  end.

(** The result is [(nBest, vfBest)]. *)
Definition ApproximateBestSubset (rand : nat -> nat -> bool) (nTotalLower : CAmount)
    (iterations : nat) : CAmount * list bool :=
  repetitions rand iterations 0 (nTotalLower, replicate (length vValue) true).

End Approximate.

(** The first loop of [KnapsackSolver]: it returns from the function at the
    first coin worth exactly the target ([inl]), else it leaves [vValue],
    [nTotalLower] and [coinLowestLarger] ([inr]). *)
Fixpoint prescan (pool : list CInputCoin) (nTargetValue : CAmount)
    (vValue : list CInputCoin) (nTotalLower : CAmount)
    (coinLowestLarger : option CInputCoin)
  : CInputCoin + (list CInputCoin * CAmount * option CInputCoin) :=
  match pool with
  | [] => inr (vValue, nTotalLower, coinLowestLarger)
  | coin :: pool' =>
      if nValue (txout coin) =? nTargetValue then inl coin
      else if nValue (txout coin) <? nTargetValue + MIN_CHANGE then
        prescan pool' nTargetValue (vValue ++ [coin]) (nTotalLower + nValue (txout coin))
                coinLowestLarger
      else
        match coinLowestLarger with
        | Some larger =>
            if nValue (txout coin) <? nValue (txout larger)
            then prescan pool' nTargetValue vValue nTotalLower (Some coin)
            else prescan pool' nTargetValue vValue nTotalLower coinLowestLarger
        | None => prescan pool' nTargetValue vValue nTotalLower (Some coin)
        end
  end.

(** [out_set.insert(c); value_ret += c.txout.nValue] for every coin of a list. *)
Definition insert_all (coins : list CInputCoin) (acc : coin_set * CAmount)
  : coin_set * CAmount :=
  fold_left (fun a c => (set_insert (fst a) c, snd a + nValue (txout c))) coins acc.

(** [KnapsackSolver].  The random choices are inputs of the model:
    [shuffle] is the permutation [random_shuffle] applies to the pool, and
    [rand1], [rand2] are the bits drawn by the two calls of
    [ApproximateBestSubset], each with its own [FastRandomContext]. *)
Definition KnapsackSolver (shuffle : list CInputCoin -> list CInputCoin)
    (rand1 rand2 : nat -> nat -> bool)
    (utxo_pool : list CInputCoin) (nTargetValue : CAmount) : outcome :=
  let pool := shuffle utxo_pool in
  match prescan pool nTargetValue [] 0 None with
  | inl coin =>
      mkout true pool (set_insert [] coin) (0 + nValue (txout coin))
  | inr (vValue, nTotalLower, coinLowestLarger) =>
      if nTotalLower =? nTargetValue then
        let r := insert_all vValue ([], 0) in
        mkout true pool (fst r) (snd r)
      else if nTotalLower <? nTargetValue then
        match coinLowestLarger with
        | None => mkout false pool [] 0
        | Some larger => mkout true pool (set_insert [] larger) (0 + nValue (txout larger))
        end
      else
        let vValue := sort_descending vValue in
        let best1 := ApproximateBestSubset vValue nTargetValue rand1 nTotalLower 1000 in
        let best :=
          if negb (fst best1 =? nTargetValue) && (nTargetValue + MIN_CHANGE <=? nTotalLower)
          then ApproximateBestSubset vValue (nTargetValue + MIN_CHANGE) rand2 nTotalLower 1000
          else best1 in
        let nBest := fst best in
        let vfBest := snd best in
        match coinLowestLarger with
        | Some larger =>
            if (negb (nBest =? nTargetValue) && (nBest <? nTargetValue + MIN_CHANGE))
               || (nValue (txout larger) <=? nBest)
            then mkout true pool (set_insert [] larger) (0 + nValue (txout larger))
            else
              let r := insert_all (selected vValue vfBest) ([], 0) in
              mkout true pool (fst r) (snd r)
        | None =>
            let r := insert_all (selected vValue vfBest) ([], 0) in
            mkout true pool (fst r) (snd r)
        end
  end.

End CoinSelection.

(** * Specification vocabulary *)

Module PSBTSpec.
Import PSBT.

Section Vocabulary.
Context {P : Primitives}.

(** The hash invariants of the two script tables. *)
Definition redeem_bound (e : bytes * bytes) : Prop := Hash160 (snd e) = fst e.
Definition witness_bound (e : bytes * bytes) : Prop := SHA256 (snd e) = fst e.

Definition hash_bound (p : t) : Prop :=
  Forall redeem_bound (redeem_scripts p) /\ Forall witness_bound (witness_scripts p).

(** [reaches st s st' s']: the read loop, started in state [st] on stream [s],
    is at the top of the loop in state [st'] with [s'] left to read. *)
Inductive reaches : pstate -> bytes -> pstate -> bytes -> Prop :=
| reaches_here st s : reaches st s st s
| reaches_step st s st1 s1 st' s' :
    s <> [] -> step st s = Ok (st1, s1) -> reaches st1 s1 st' s' ->
    reaches st s st' s'.

(** A key-value record on the wire: both parts with their length prefix. *)
Definition record (key value : bytes) : bytes :=
  write_vector key ++ write_vector value.

(** The five bytes every PSBT stream starts with. *)
Definition header : bytes := [x70; x73; x62; x74; xff].

End Vocabulary.
End PSBTSpec.

(** * Concrete inputs *)

Module Sample.
Import PSBT PSBTSpec.

(** Stand-ins for the collaborators, to run the codec on concrete streams:
    a "hash" that pads or cuts its input to the digest length, a transaction
    codec that accepts nothing, and a [SetNull] that resets every member.  No
    statement about the codec depends on them. *)
Definition pad_hash (len : nat) (data : bytes) : bytes :=
  take len (data ++ replicate len x00).

Definition primitives : Primitives.
Proof.
  refine {| Hash160 := pad_hash 20;
            SHA256 := pad_hash 32;
            SerializeTx := fun _ => [];
            UnserializeTx := fun _ => Err MalformedEmbeddedTransaction;
            SerializeTxOut := fun _ => [];
            UnserializeTxOut := fun _ => Err MalformedEmbeddedTransaction;
            GetHash := fun _ => replicate 32 x00;
            SetNull := fun _ => Input.default |}; discriminate.
Defined.

(** The one-byte script [OP_1] and its digests under [pad_hash]. *)
Definition script_51 : bytes := [x51].
Definition digest20_51 : bytes := x51 :: replicate 19 x00.
Definition digest32_51 : bytes := x51 :: replicate 31 x00.

(** Globals with one redeem script and one witness script, both under
    their digest; the stream ends after the second record. *)
Definition stream_two_scripts : bytes :=
  header
  ++ record (PSBT_REDEEMSCRIPT_WITNESS_UTXO :: digest20_51) script_51
  ++ record (PSBT_WITNESSSCRIPT_PARTIAL_SIG :: digest32_51) script_51.

(** The empty PSBT on the wire: magic, head byte, separator. *)
Definition stream_empty_psbt : bytes := [x70; x73; x62; x74; xff; x00].

(** Magic, then a head byte that is not [0xFF], then nothing. *)
Definition stream_bad_head : bytes := [x70; x73; x62; x74; x00].

(** Globals that state two inputs, followed by no input section.  The byte
    after the [0x04] record is consumed by the fall-through into [default:]. *)
Definition stream_two_stated_none_given : bytes :=
  header ++ [x01; x04; x01; x02] ++ [x00] ++ [x00].

(** An input section that carries an explicit index: key [0x04], a value
    length of one, the eight bytes [Unserialize] reads as the index, and the
    byte the fall-through into [default:] consumes. *)
Definition indexed_section : bytes :=
  [x01; x04; x01] ++ replicate 8 x00 ++ [x00] ++ [x00].

(** An input section without index: a sighash type record, then the
    separator. *)
Definition unindexed_section : bytes :=
  [x01; x03; x04; x01; x00; x00; x00] ++ [x00].

(** Globals that state one input, followed by exactly one input section. *)
Definition stream_one_stated_one_given : bytes :=
  header ++ [x01; x04; x01; x01] ++ [x00] ++ [x00] ++ indexed_section.

(** No global record, one input section without index. *)
Definition stream_unindexed : bytes :=
  header ++ [x00] ++ unindexed_section.

(** No global record, two input sections without index. *)
Definition stream_unindexed_twice : bytes :=
  header ++ [x00] ++ unindexed_section ++ unindexed_section.

(** No global record, an indexed input section, then one without index. *)
Definition stream_mixed : bytes :=
  header ++ [x00] ++ indexed_section ++ unindexed_section.

End Sample.

Module CoinSpec.
Import CoinSelection.
Local Open Scope Z_scope.

(** The value of a coin and the sum of a measure over a list of coins. *)
Definition value (c : CInputCoin) : CAmount := nValue (txout c).

Definition total (f : CInputCoin -> CAmount) (l : list CInputCoin) : CAmount :=
  fold_right (fun u acc => f u + acc) 0 l.

(** The pool is a set of UTXOs: no two of its coins share an outpoint. *)
Definition distinct_outpoints (l : list CInputCoin) : Prop :=
  NoDup (outpoint <$> l).

(** A selection of the search is a solution when its effective value is
    within the target range. *)
Definition in_range (pool : list CInputCoin) (actual_target cost_of_change : CAmount)
    (flags : list bool) : Prop :=
  actual_target <= total effective_value (selected pool flags)
                <= actual_target + cost_of_change.

(** What the depth-first search maintains between two turns of its loop. *)
Record bnb_inv (pool : list CInputCoin) (actual_target cost_of_change : CAmount)
    (st : bnb_state) : Prop := {
  inv_length : length (curr_selection st) = length pool;
  inv_depth : 0 <= depth st <= Z.of_nat (length pool);
  inv_beyond : forall i, (Z.to_nat (depth st) <= i)%nat -> flag (curr_selection st) i = false;
  inv_value : curr_value st = total effective_value (selected pool (curr_selection st));
  inv_best : best_selection st <> [] ->
             in_range pool actual_target cost_of_change (best_selection st)
}.

(** What a trial of [ApproximateBestSubset] maintains: the running total is
    the value of the included coins, and the best subset is worth [nBest],
    which is at least the target. *)
Record trial_inv (vValue : list CInputCoin) (nTargetValue : CAmount) (st : trial) : Prop := {
  tinv_length : length (vfIncluded st) = length vValue;
  tinv_total : total value (selected vValue (vfIncluded st)) = nTotal st;
  tinv_best : total value (selected vValue (vfBest st)) = nBest st;
  tinv_target : nTargetValue <= nBest st
}.

(** The best subset of [ApproximateBestSubset]: its coins are worth [nBest],
    which reaches the target. *)
Definition best_ok (vValue : list CInputCoin) (nTargetValue : CAmount)
    (best : CAmount * list bool) : Prop :=
  total value (selected vValue (snd best)) = fst best /\ nTargetValue <= fst best.

End CoinSpec.

Module CoinSample.
Import CoinSelection.
Local Open Scope Z_scope.

(** 21 million coins of 10^8 base units, the cap [amount.h] defines. *)
Definition MAX_MONEY : CAmount := 2100000000000000.

(** A coin of the given value, effective value, fee and long-term fee; [id]
    is the output index of its outpoint, in one funding transaction. *)
Definition coin (id : N) (v e f l : CAmount) : CInputCoin :=
  {| outpoint := {| hash := replicate 32 xab; n := id |};
     txout := {| nValue := v; scriptPubKey := [] |};
     effective_value := e; fee := f; long_term_fee := l |}.

(** Effective values 8, 5, 3, 2; each coin costs 1 to spend. *)
Definition pool_8_5_3_2 : list CInputCoin :=
  [coin 1 9 8 1 1; coin 2 6 5 1 1; coin 3 4 3 1 1; coin 4 3 2 1 1].

(** Effective values 3, 2, 1. *)
Definition pool_3_2_1 : list CInputCoin :=
  [coin 1 4 3 1 1; coin 2 3 2 1 1; coin 3 2 1 1 1].


(** Values 4, 7, 10, 12 and values 1, 2, without fees. *)
Definition pool_4_7_10_12 : list CInputCoin :=
  [coin 1 4 4 0 0; coin 2 7 7 0 0; coin 3 10 10 0 0; coin 4 12 12 0 0].

Definition pool_1_2 : list CInputCoin :=
  [coin 1 1 1 0 0; coin 2 2 2 0 0].

(** The same outpoint listed twice, with value 5. *)
Definition pool_5_5_twice : list CInputCoin :=
  [coin 1 5 5 0 0; coin 1 5 5 0 0].

(** Random choices for the knapsack: the pool is left in its order, and
    every coin flip comes up tails, or every second one heads. *)
Definition no_shuffle (l : list CInputCoin) : list CInputCoin := l.
Definition tails (nRep i : nat) : bool := false.
Definition alternate (nRep i : nat) : bool := Nat.even (nRep + i).

End CoinSample.

Module ScenarioInputs.
Import CoinSelection CoinSample.
Local Open Scope Z_scope.

(** Effective values 10, 7, 5, 3; each coin costs 1 to spend. *)
Definition pool_10_7_5_3 : list CInputCoin :=
  [coin 1 11 10 1 1; coin 2 8 7 1 1; coin 3 6 5 1 1; coin 4 4 3 1 1].

(** What a run leaves in the output parameters: the flag, the output indices
    of the coins in [out_set], and [value_ret]. *)
Definition summary (r : outcome) : bool * list N * CAmount :=
  (ret r, map (fun c => n (outpoint c)) (out_set r), value_ret r).

Definition bnb_summary (r : fres outcome) : option (bool * list N * CAmount) :=
  match r with
  | Ok o => Some (summary o)
  | Err _ => None
  end.

End ScenarioInputs.

(** * Vocabulary of the further properties *)

Module CoinExtraSpec.
Import CoinSelection CoinSpec.
Local Open Scope Z_scope.

(** The test of the first loop of [KnapsackSolver] that sends a coin to
    [vValue]: [coin.txout.nValue < nTargetValue + MIN_CHANGE]. *)
Definition lesser (nTargetValue : CAmount) (c : CInputCoin) : Prop :=
  value c < nTargetValue + MIN_CHANGE.

#[global] Instance lesser_dec nTargetValue c : Decision (lesser nTargetValue c).
Proof. unfold lesser. apply _. Defined.

(** The order [std::sort(..., descending)] leaves the pool in: no coin is
    followed by one of larger effective value. *)
Definition descending_order (l : list CInputCoin) : Prop :=
  StronglySorted (fun a b => effective_value b <= effective_value a) l.

(** What the first loop of [KnapsackSolver] knows about [coinLowestLarger]
    after going through [pool], when it held [larger] before: it is a coin
    that is not [lesser], of least value among those seen. *)
Definition lowest_larger (nTargetValue : CAmount) (pool : list CInputCoin)
    (larger larger' : option CInputCoin) : Prop :=
  match larger' with
  | None => larger = None /\ forall c, c ∈ pool -> lesser nTargetValue c
  | Some c =>
      (larger = Some c \/ (c ∈ pool /\ ~ lesser nTargetValue c))
      /\ (forall c', c' ∈ pool -> ~ lesser nTargetValue c' -> value c <= value c')
      /\ (forall c0, larger = Some c0 -> value c <= value c0)
  end.

(** A selection vector only flags coins that [assert] let through: coins of
    the pool of positive effective value. *)
Definition flagged_positive (pool : list CInputCoin) (flags : list bool) : Prop :=
  forall i, flag flags i = true ->
            exists u, pool !! i = Some u /\ 0 < effective_value u.

(** What the search maintains besides [bnb_inv]: the lookahead
    [curr_available_value] is the effective value of the coins from [depth]
    on, the two selection vectors flag coins of positive effective value, and
    [best_selection] is empty or a copy of [curr_selection]. *)
Record bnb_more (pool : list CInputCoin) (st : bnb_state) : Prop := {
  more_lookahead :
    curr_available_value st = total effective_value (drop (Z.to_nat (depth st)) pool);
  more_curr : flagged_positive pool (curr_selection st);
  more_best : flagged_positive pool (best_selection st);
  more_best_length : (length (best_selection st) <= length pool)%nat
}.

End CoinExtraSpec.

Module CoinExtraSample.
Import CoinSelection CoinSample.
Local Open Scope Z_scope.

(** Effective values 5, 0 and -1: two of the coins cost as much to spend
    as they are worth, or more. *)
Definition pool_5_0_minus1 : list CInputCoin :=
  [coin 1 6 5 1 1; coin 2 1 0 1 1; coin 3 1 (-1) 2 2].

(** Values 4, 7 and 10 among two coins worth more than [MIN_CHANGE]. *)
Definition pool_small_and_large : list CInputCoin :=
  [coin 1 4 4 0 0; coin 2 3000000 3000000 0 0; coin 3 7 7 0 0;
   coin 4 2000000 2000000 0 0; coin 5 10 10 0 0].

End CoinExtraSample.

Module PSBTExtraSpec.
Import StdMap PSBT PSBTSpec.
Local Open Scope N_scope.

(** The members of a PSBT that only global records write. *)
Definition globals_of (p : t)
  : CMutableTransaction * StdMap.t bytes * StdMap.t bytes * StdMap.t (list N)
    * N * StdMap.t bytes :=
  (tx p, redeem_scripts p, witness_scripts p, hd_keypaths p, num_ins p, unknown p).

(** The iteration order of a [std::map]: strictly increasing keys. *)
Definition key_sorted {V} (m : StdMap.t V) : Prop :=
  StronglySorted (fun a b => bytes_ltb (fst a) (fst b) = true) m.

Section Vocabulary.
Context {P : Primitives}.

(** The entries [Serialize] can write so that [Unserialize] files them
    again: a script under its 20-byte (resp. 32-byte) digest; a key path of
    32-bit indices, short enough for the 32-bit loop counter, under a public
    key of 33 or 65 bytes; an unknown entry under a key whose type byte is
    none of the five known types. *)
Definition redeem_entry (e : bytes * bytes) : Prop :=
  length (fst e) = 20%nat /\ Hash160 (snd e) = fst e
  /\ N.of_nat (length (snd e)) < 2 ^ 64.

Definition witness_entry (e : bytes * bytes) : Prop :=
  length (fst e) = 32%nat /\ SHA256 (snd e) = fst e
  /\ N.of_nat (length (snd e)) < 2 ^ 64.

Definition keypath_entry (e : bytes * list N) : Prop :=
  (length (fst e) = COMPRESSED_PUBLIC_KEY_SIZE \/ length (fst e) = PUBLIC_KEY_SIZE)
  /\ N.of_nat (length (snd e)) * 4 < 2 ^ 32
  /\ Forall (fun i => i < 2 ^ 32) (snd e).

Definition unknown_entry (e : bytes * bytes) : Prop :=
  N.of_nat (length (fst e)) < 2 ^ 64
  /\ N.of_nat (length (snd e)) < 2 ^ 64
  /\ exists b k, fst e = b :: k /\ 4 < Byte.to_N b.

(** A PSBT that consists of global data only, as a [std::map]-based object
    holds it, and that states no input count. *)
Record wire_globals (p : t) : Prop := {
  wg_tx :
    if CTransaction_IsNull (tx p) then tx p = CMutableTransaction_default
    else N.of_nat (length (SerializeTx (tx p))) < 2 ^ 64
         /\ forall s, UnserializeTx (SerializeTx (tx p) ++ s) = Ok (tx p, s);
  wg_redeem_sorted : key_sorted (redeem_scripts p);
  wg_redeem : Forall redeem_entry (redeem_scripts p);
  wg_witness_sorted : key_sorted (witness_scripts p);
  wg_witness : Forall witness_entry (witness_scripts p);
  wg_keypath_sorted : key_sorted (hd_keypaths p);
  wg_keypath : Forall keypath_entry (hd_keypaths p);
  wg_unknown_sorted : key_sorted (unknown p);
  wg_unknown : Forall unknown_entry (unknown p);
  wg_num_ins : num_ins p = 0;
  wg_inputs : inputs p = [];
  wg_use_in_index : use_in_index p = false
}.

End Vocabulary.
End PSBTExtraSpec.

Module PSBTInvariants.
Import PSBT.
Local Open Scope N_scope.

(** The index flag of the transaction is set as soon as the section being
    read carries an index, and as soon as an input has been stored. *)
Definition index_flag_inv (st : pstate) : Prop :=
  (Input.use_in_index (input st) = true -> use_in_index (psbt st) = true)
  /\ (inputs (psbt st) <> [] -> use_in_index (psbt st) = true).

(** The separator count against the stored inputs, for a stream of [len]
    bytes of which [s] is left: no separator has been read in the globals, and
    afterwards the inputs stored are one fewer than the separators read. *)
Definition section_count_inv (len : nat) (st : pstate) (s : bytes) : Prop :=
  (N.to_nat (separators st) + length s <= len)%nat
  /\ if in_globals st
     then separators st = 0 /\ inputs (psbt st) = []
     else N.to_nat (separators st) = S (length (inputs (psbt st))).

End PSBTInvariants.

Module PSBTExtraSample.
Import PSBT Sample.

(** The one-byte script [OP_2] and its 20-byte digest under [pad_hash]. *)
Definition script_52 : bytes := [x52].
Definition digest20_52 : bytes := x52 :: replicate 19 x00.

(** A PSBT of global data only: two redeem scripts, a witness script, the
    key path m/44'/0/1 under a compressed public key and one unknown entry of
    type [0x0f]. *)
Definition psbt_globals_only : PSBT.t :=
  mk CMutableTransaction_default
     [(digest20_51, script_51); (digest20_52, script_52)]
     [(digest32_51, script_51)]
     []
     [([x0f; x01], [xaa; xbb])]
     [(x02 :: replicate 32 x11, [2147483692; 0; 1]%N)]
     0 false.

End PSBTExtraSample.

Module PSBTGrowth.
Import PSBT.

(** An object after further reading, against the object before: every
    entry of the four tables is still there, and [inputs] has only been
    extended at its end. *)
Record grows (p p' : t) : Prop := {
  grows_redeem : forall e, e ∈ redeem_scripts p -> e ∈ redeem_scripts p';
  grows_witness : forall e, e ∈ witness_scripts p -> e ∈ witness_scripts p';
  grows_keypaths : forall e, e ∈ hd_keypaths p -> e ∈ hd_keypaths p';
  grows_unknown : forall e, e ∈ unknown p -> e ∈ unknown p';
  grows_inputs : exists more, inputs p' = inputs p ++ more
}.

End PSBTGrowth.

Module PSBTCreatorSample.
Import PSBT Sample.

(** A second stand-in for the collaborators, with a transaction codec that
    does read back what it wrote: a transaction is written as the number of
    its inputs, in one byte, and read as that many blank inputs. *)
Definition blank_txin : CTxIn :=
  {| prevout := {| hash := replicate 32 x00; n := 0 |};
     scriptSig := []; nSequence := 0xFFFFFFFF; scriptWitness := [] |}.

Definition blank_tx (inputs : nat) : CMutableTransaction :=
  {| nVersion := 2; vin := replicate inputs blank_txin; vout := []; nLockTime := 0 |}.

Definition counting_primitives : Primitives.
Proof.
  refine {| Hash160 := pad_hash 20;
            SHA256 := pad_hash 32;
            SerializeTx := fun t => [byte_of_N (N.of_nat (length (vin t)))];
            UnserializeTx := fun s =>
              match s with
              | b :: s' => Ok (blank_tx (N.to_nat (Byte.to_N b)), s')
              | [] => Err UnexpectedEof
              end;
            SerializeTxOut := fun _ => [];
            UnserializeTxOut := fun _ => Err MalformedEmbeddedTransaction;
            GetHash := fun _ => replicate 32 x00;
            SetNull := fun _ => Input.default |}.
  - intros [|b s] t s'; [discriminate |]. intros [= _ <-]. simpl. lia.
  - discriminate.
Defined.

(** What a creator hands out: an unsigned transaction with two inputs, and
    a blank entry of [inputs] for each. *)
Definition psbt_created : PSBT.t :=
  mk (blank_tx 2) [] [] [Input.default; Input.default] [] [] 0 false.

End PSBTCreatorSample.

(** * The selectors with the arithmetic of [int64_t] *)

(** [CAmount] is [int64_t].  Module [CoinSelection] adds and subtracts amounts
    in [Z]; the functions below are the same code, line by line, with every
    sum and difference of amounts reduced to the range of a 64-bit two's
    complement integer, which is how the compiled code computes them.
    Comparisons, indices and the handling of the vectors are those of
    [CoinSelection]. *)

Module Int64.
Import CoinSelection.
Local Open Scope Z_scope.

Definition INT64_MIN : Z := -9223372036854775808.
Definition INT64_MAX : Z := 9223372036854775807.

(** The representative of [z] modulo [2^64] between [INT64_MIN] and
    [INT64_MAX]. *)
Definition wrap (z : Z) : CAmount := (z - INT64_MIN) mod 2 ^ 64 + INT64_MIN.

Definition add (a b : CAmount) : CAmount := wrap (a + b).
Definition sub (a b : CAmount) : CAmount := wrap (a - b).

End Int64.

Module CoinSelection64.
Import CoinSelection Int64.
Local Open Scope Z_scope.

(** [for (const CInputCoin& utxo : utxo_pool) curr_available_value += utxo.effective_value;] *)
Definition sum_effective (l : list CInputCoin) : CAmount :=
  fold_left (fun acc u => add acc (effective_value u)) l 0.

(** *** Branch and bound ([coinselection.cpp], lines 52-159) *)

Fixpoint walk_back (pool : list CInputCoin) (sel : list bool) (k : nat) (avail : CAmount)
  : fres (Z * CAmount) :=
  match k with
  | O => Ok (-1, avail)
  | S k' =>
      let* b := at_ sel (Z.of_nat k') in
      if b then Ok (Z.of_nat k', avail)
      else
        let* u := at_ pool (Z.of_nat k') in
        walk_back pool sel k' (add avail (effective_value u))
  end.

Section BnB.
Variable MAX_MONEY : CAmount.
Variable utxo_pool : list CInputCoin.       (* after the sort *)
Variables actual_target cost_of_change : CAmount.

Definition must_backtrack (st : bnb_state) : fres bool :=
  if (add (curr_value st) (curr_available_value st) <? actual_target)
     || (add actual_target cost_of_change <? curr_value st)
  then Ok true
  else if best_waste st <? curr_waste st then
    let* u0 := at_ utxo_pool 0 in
    Ok (0 <? sub (fee u0) (long_term_fee u0))
  else Ok false.

(** [curr_waste += (curr_value - actual_target)], the comparison with
    [best_waste], and [curr_waste -= (curr_value - actual_target)]. *)
Definition record_solution (st : bnb_state) : bnb_state :=
  let waste := add (curr_waste st) (sub (curr_value st) actual_target) in
  let restored := sub waste (sub (curr_value st) actual_target) in
  if waste <=? best_waste st
  then mkbnb (curr_value st) (depth st) (curr_selection st) (curr_available_value st)
             restored (curr_selection st) waste
  else mkbnb (curr_value st) (depth st) (curr_selection st) (curr_available_value st)
             restored (best_selection st) (best_waste st).

Definition backtrack_step (st : bnb_state) : fres (loop_ctl * bnb_state) :=
  let* (d, avail) :=
    walk_back utxo_pool (curr_selection st) (Z.to_nat (depth st)) (curr_available_value st) in
  if d <? 0 then
    Ok (Break, mkbnb (curr_value st) d (curr_selection st) avail
                     (curr_waste st) (best_selection st) (best_waste st))
  else
    let* _ := at_ (curr_selection st) d in
    let* u := at_ utxo_pool d in
    Ok (Continue, mkbnb (sub (curr_value st) (effective_value u)) (d + 1)
                        (<[Z.to_nat d := false]> (curr_selection st)) avail
                        (sub (curr_waste st) (sub (fee u) (long_term_fee u)))
                        (best_selection st) (best_waste st)).

Definition forward_step (st : bnb_state) : fres (loop_ctl * bnb_state) :=
  let* u := at_ utxo_pool (depth st) in
  if negb (0 <? effective_value u) then Err AssertionFailed
  else
    let* skip := equivalent_to_omitted utxo_pool st u in
    let* _ := at_ (curr_selection st) (depth st) in
    if skip then
      Ok (Continue, mkbnb (curr_value st) (depth st + 1)
                          (<[Z.to_nat (depth st) := false]> (curr_selection st))
                          (sub (curr_available_value st) (effective_value u))
                          (curr_waste st) (best_selection st) (best_waste st))
    else
      Ok (Continue, mkbnb (add (curr_value st) (effective_value u)) (depth st + 1)
                          (<[Z.to_nat (depth st) := true]> (curr_selection st))
                          (sub (curr_available_value st) (effective_value u))
                          (add (curr_waste st) (sub (fee u) (long_term_fee u)))
                          (best_selection st) (best_waste st)).

Definition bnb_iter (st : bnb_state) : fres (loop_ctl * bnb_state) :=
  let* b := must_backtrack st in
  if b then backtrack_step st
  else if actual_target <=? curr_value st then backtrack_step (record_solution st)
  else forward_step st.

Fixpoint bnb_loop (tries : nat) (st : bnb_state) : fres bnb_state :=
  match tries with
  | O => Ok st
  | S tries' =>
      let* (ctl, st') := bnb_iter st in
      match ctl with
      | Break => Ok st'
      | Continue => bnb_loop tries' st'
      end
  end.

Fixpoint emit (best : list bool) (i : Z) (out : coin_set) (value : CAmount)
  : fres (coin_set * CAmount) :=
  match best with
  | [] => Ok (out, value)
  | b :: best' =>
      if b then
        let* u := at_ utxo_pool i in
        emit best' (i + 1) (set_insert out u) (add value (nValue (txout u)))
      else emit best' (i + 1) out value
  end.

End BnB.

Definition SelectCoinsBnB (MAX_MONEY : CAmount) (utxo_pool : list CInputCoin)
    (target_value cost_of_change : CAmount) (value_ret_in : CAmount)
    (not_input_fees : CAmount) : fres outcome :=
  let actual_target := add not_input_fees target_value in
  if sum_effective utxo_pool <? actual_target
  then Ok (mkout false utxo_pool [] value_ret_in)
  else
    let sorted := sort_descending utxo_pool in
    let* st := bnb_loop sorted actual_target cost_of_change
                 (N.to_nat TOTAL_TRIES)
                 (bnb_initial MAX_MONEY sorted (sum_effective utxo_pool)) in
    if is_empty (best_selection st)
    then Ok (mkout false sorted [] value_ret_in)
    else
      let* (out, value) := emit sorted (best_selection st) 0 [] 0 in
      Ok (mkout true sorted out value).

(** *** Knapsack ([coinselection.cpp], lines 161-294) *)

Section Approximate.
Variable vValue : list CInputCoin.
Variable nTargetValue : CAmount.

Definition visit (take : bool) (i : nat) (st : trial) : trial :=
  match vValue !! i with
  | None => st
  | Some coin =>
      if take then
        let total := add (nTotal st) (nValue (txout coin)) in
        let included := <[i := true]> (vfIncluded st) in
        if nTargetValue <=? total then
          let best := if total <? nBest st then (total, included) else (nBest st, vfBest st) in
          mktrial (sub total (nValue (txout coin))) (<[i := false]> included) true
                  (fst best) (snd best)
        else mktrial total included (fReachedTarget st) (nBest st) (vfBest st)
      else st
  end.

Definition pass (randbool : nat -> bool) (nPass : nat) (st : trial) : trial :=
  fold_left
    (fun st i =>
       visit (match nPass with
              | O => randbool i
              | _ => negb (flag (vfIncluded st) i)
              end) i st)
    (seq 0 (length vValue)) st.

Definition repetition (randbool : nat -> bool) (best : CAmount * list bool)
  : CAmount * list bool :=
  let st0 := mktrial 0 (replicate (length vValue) false) false (fst best) (snd best) in
  let st1 := pass randbool 0 st0 in
  let st2 := if fReachedTarget st1 then st1 else pass randbool 1 st1 in
  (nBest st2, vfBest st2).

Fixpoint repetitions (rand : nat -> nat -> bool) (left nRep : nat)
    (best : CAmount * list bool) : CAmount * list bool :=
  match left with
  | O => best
  | S left' =>
      if fst best =? nTargetValue then best
      else repetitions rand left' (S nRep) (repetition (rand nRep) best)
  end.

Definition ApproximateBestSubset (rand : nat -> nat -> bool) (nTotalLower : CAmount)
    (iterations : nat) : CAmount * list bool :=
  repetitions rand iterations 0 (nTotalLower, replicate (length vValue) true).

End Approximate.

Fixpoint prescan (pool : list CInputCoin) (nTargetValue : CAmount)
    (vValue : list CInputCoin) (nTotalLower : CAmount)
    (coinLowestLarger : option CInputCoin)
  : CInputCoin + (list CInputCoin * CAmount * option CInputCoin) :=
  match pool with
  | [] => inr (vValue, nTotalLower, coinLowestLarger)
  | coin :: pool' =>
      if nValue (txout coin) =? nTargetValue then inl coin
      else if nValue (txout coin) <? add nTargetValue MIN_CHANGE then
        prescan pool' nTargetValue (vValue ++ [coin]) (add nTotalLower (nValue (txout coin)))
                coinLowestLarger
      else
        match coinLowestLarger with
        | Some larger =>
            if nValue (txout coin) <? nValue (txout larger)
            then prescan pool' nTargetValue vValue nTotalLower (Some coin)
            else prescan pool' nTargetValue vValue nTotalLower coinLowestLarger
        | None => prescan pool' nTargetValue vValue nTotalLower (Some coin)
        end
  end.

Definition insert_all (coins : list CInputCoin) (acc : coin_set * CAmount)
  : coin_set * CAmount :=
  fold_left (fun a c => (set_insert (fst a) c, add (snd a) (nValue (txout c)))) coins acc.

Definition KnapsackSolver (shuffle : list CInputCoin -> list CInputCoin)
    (rand1 rand2 : nat -> nat -> bool)
    (utxo_pool : list CInputCoin) (nTargetValue : CAmount) : outcome :=
  let pool := shuffle utxo_pool in
  match prescan pool nTargetValue [] 0 None with
  | inl coin =>
      mkout true pool (set_insert [] coin) (add 0 (nValue (txout coin)))
  | inr (vValue, nTotalLower, coinLowestLarger) =>
      if nTotalLower =? nTargetValue then
        let r := insert_all vValue ([], 0) in
        mkout true pool (fst r) (snd r)
      else if nTotalLower <? nTargetValue then
        match coinLowestLarger with
        | None => mkout false pool [] 0
        | Some larger => mkout true pool (set_insert [] larger) (add 0 (nValue (txout larger)))
        end
      else
        let vValue := sort_descending vValue in
        let best1 := ApproximateBestSubset vValue nTargetValue rand1 nTotalLower 1000 in
        let best :=
          if negb (fst best1 =? nTargetValue) && (add nTargetValue MIN_CHANGE <=? nTotalLower)
          then ApproximateBestSubset vValue (add nTargetValue MIN_CHANGE) rand2 nTotalLower 1000
          else best1 in
        let nBest := fst best in
        let vfBest := snd best in
        match coinLowestLarger with
        | Some larger =>
            if (negb (nBest =? nTargetValue) && (nBest <? add nTargetValue MIN_CHANGE))
               || (nValue (txout larger) <=? nBest)
            then mkout true pool (set_insert [] larger) (add 0 (nValue (txout larger)))
            else
              let r := insert_all (selected vValue vfBest) ([], 0) in
              mkout true pool (fst r) (snd r)
        | None =>
            let r := insert_all (selected vValue vfBest) ([], 0) in
            mkout true pool (fst r) (snd r)
        end
  end.

End CoinSelection64.

(** The amounts of a call are in range when no sum or difference the code
    forms leaves the range of [int64_t]: then the 64-bit functions compute
    what the functions of [CoinSelection] compute. *)
Module AmountRange.
Import CoinSelection CoinSpec Int64.
Local Open Scope Z_scope.

Definition int64 (z : Z) : Prop := INT64_MIN <= z <= INT64_MAX.

(** The sum of the absolute values of a measure over a list of coins: it
    bounds the absolute value of the sum over any sub-list. *)
Definition magnitude (f : CInputCoin -> CAmount) (l : list CInputCoin) : Z :=
  total (fun u => Z.abs (f u)) l.

(** [SelectCoinsBnB] adds effective values to [curr_value] and
    [curr_available_value], fee differences to [curr_waste], the excess
    [curr_value - actual_target] to [curr_waste], [cost_of_change] to
    [actual_target = not_input_fees + target_value], and values to
    [value_ret]. *)
Record bnb_amounts (utxo_pool : list CInputCoin)
    (target_value cost_of_change not_input_fees : CAmount) : Prop := {
  bnb_search_range :
    magnitude effective_value utxo_pool + magnitude fee utxo_pool
    + magnitude long_term_fee utxo_pool
    + Z.abs not_input_fees + Z.abs target_value + Z.abs cost_of_change <= INT64_MAX;
  bnb_value_range : magnitude value utxo_pool <= INT64_MAX
}.

(** [KnapsackSolver] and [ApproximateBestSubset] add values to [nTotalLower],
    [nTotal] and [value_ret], and [MIN_CHANGE] to [nTargetValue]. *)
Record knapsack_amounts (utxo_pool : list CInputCoin) (nTargetValue : CAmount) : Prop := {
  knapsack_value_range : magnitude value utxo_pool <= INT64_MAX;
  knapsack_target_range : int64 nTargetValue;
  knapsack_change_range : int64 (nTargetValue + MIN_CHANGE)
}.

(** The fee difference of a coin, which [curr_waste] adds up. *)
Definition waste (u : CInputCoin) : CAmount := fee u - long_term_fee u.

(** What the search maintains about [curr_waste]: the fee differences of the
    selected coins. *)
Definition bnb_waste (pool : list CInputCoin) (st : bnb_state) : Prop :=
  curr_waste st = total waste (selected pool (curr_selection st)).

(** The amounts of a state of the search are sums over coins of the pool. *)
Record bnb_bounded (pool : list CInputCoin) (st : bnb_state) : Prop := {
  bounded_value : Z.abs (curr_value st) <= magnitude effective_value pool;
  bounded_available : Z.abs (curr_available_value st) <= magnitude effective_value pool;
  bounded_reach :
    Z.abs (curr_value st + curr_available_value st) <= magnitude effective_value pool;
  bounded_waste :
    Z.abs (curr_waste st) <= magnitude fee pool + magnitude long_term_fee pool
}.

(** What a trial of [ApproximateBestSubset] maintains about [nTotal]: the
    value of the included coins. *)
Definition counted (vValue : list CInputCoin) (st : trial) : Prop :=
  length (vfIncluded st) = length vValue
  /\ total value (selected vValue (vfIncluded st)) = nTotal st.

End AmountRange.

Module CoinRangeSample.
Import CoinSelection CoinSample.
Local Open Scope Z_scope.

(** Effective values [3 * 2^61], three times, and [2^62 + 1]: together they
    exceed [INT64_MAX]. *)
Definition pool_large_effective : list CInputCoin :=
  [coin 1 1 6917529027641081856 0 0; coin 2 1 6917529027641081856 0 0;
   coin 3 1 6917529027641081856 0 0; coin 4 1 4611686018427387905 0 0].

(** Two coins of value [2^62] and effective value 5. *)
Definition pool_large_value : list CInputCoin :=
  [coin 1 4611686018427387904 5 0 0; coin 2 4611686018427387904 5 0 0].

(** One coin of value 7. *)
Definition pool_7 : list CInputCoin := [coin 1 7 7 0 0].

End CoinRangeSample.

(** * Properties *)

(** ** Results and streams *)

Lemma bind_Ok {E A B} (m : result E A) (k : A -> result E B) (b : B) :
  bind m k = Ok b -> exists a, m = Ok a /\ k a = Ok b.
Proof. destruct m as [a|e]; simpl; [eauto | discriminate]. Qed.

(** Split a successful [bind] in a hypothesis into its two halves. *)
Ltac bind_inv H :=
  let a := fresh "a" in
  let Ha := fresh "Ha" in
  apply bind_Ok in H; destruct H as (a & Ha & H);
  try match type of a with
      | (_ * _)%type => destruct a as [? ?]
      end.

Section StreamFacts.
Local Open Scope N_scope.

Lemma read_Ok len s bs s' :
  read len s = Ok (bs, s') ->
  s = bs ++ s' /\ length bs = N.to_nat len.
Proof.
  unfold read. destruct (N.leb_spec len (N.of_nat (length s))) as [Hle|]; [|discriminate].
  intros [= <- <-]. split.
  - by rewrite take_drop.
  - rewrite length_take. lia.
Qed.

Lemma read_length len s bs s' :
  read len s = Ok (bs, s') -> (length s' + N.to_nat len = length s)%nat.
Proof.
  intros H. apply read_Ok in H as [-> Hl]. rewrite length_app. lia.
Qed.

Lemma read_le_length w s v s' :
  read_le w s = Ok (v, s') -> (length s' + N.to_nat w = length s)%nat.
Proof.
  unfold read_le. intros H. bind_inv H. injection H as <- <-.
  eauto using read_length.
Qed.

Lemma ReadCompactSize_consumes s v s' :
  ReadCompactSize s = Ok (v, s') -> (length s' < length s)%nat.
Proof.
  unfold ReadCompactSize, read_u8. intros H. bind_inv H.
  apply read_le_length in Ha.
  repeat match type of H with
         | (if ?c then _ else _) = _ => destruct c
         | bind _ _ = Ok _ => bind_inv H; apply read_le_length in Ha0
         | Ok _ = Ok _ => injection H as <- <-
         | Err _ = Ok _ => discriminate
         end; lia.
Qed.

Lemma read_app (bs s : bytes) :
  read (N.of_nat (length bs)) (bs ++ s) = Ok (bs, s).
Proof.
  unfold read. rewrite length_app, Nat2N.id.
  destruct (N.leb_spec (N.of_nat (length bs)) (N.of_nat (length bs + length s))); [|lia].
  by rewrite take_app_length, drop_app_length.
Qed.

End StreamFacts.

Section CompactSizeFacts.
Local Open Scope N_scope.

Lemma to_N_byte_of_N v : v < 256 -> Byte.to_N (byte_of_N v) = v.
Proof.
  intros Hv. unfold byte_of_N.
  destruct (Byte.of_N v) as [b|] eqn:E.
  - by apply Byte.to_of_N.
  - apply Byte.of_N_None_iff in E. lia.
Qed.

Lemma length_N_to_le w v : length (N_to_le w v) = w.
Proof. revert v. induction w as [|w IH]; intros v; simpl; [done | by rewrite IH]. Qed.

Lemma le_to_N_N_to_le w v : le_to_N (N_to_le w v) = v mod 256 ^ N.of_nat w.
Proof.
  revert v. induction w as [|w IH]; intros v.
  - simpl. by rewrite N.mod_1_r.
  - cbn [N_to_le le_to_N]. rewrite IH, to_N_byte_of_N by (apply N.mod_lt; lia).
    rewrite Nat2N.inj_succ, N.pow_succ_r'.
    rewrite (N.Div0.mod_mul_r v 256 (256 ^ N.of_nat w)). lia.
Qed.

Lemma read_le_N_to_le w v s :
  read_le (N.of_nat w) (N_to_le w v ++ s) = Ok (v mod 256 ^ N.of_nat w, s).
Proof.
  unfold read_le. rewrite <- (length_N_to_le w v) at 1.
  rewrite read_app. simpl. by rewrite le_to_N_N_to_le.
Qed.

Lemma read_le_1 v s : read_le 1 (N_to_le 1 v ++ s) = Ok (v mod 256, s).
Proof. exact (read_le_N_to_le 1 v s). Qed.

Lemma read_le_2 v s : read_le 2 (N_to_le 2 v ++ s) = Ok (v mod 0x10000, s).
Proof. exact (read_le_N_to_le 2 v s). Qed.

Lemma read_le_4 v s : read_le 4 (N_to_le 4 v ++ s) = Ok (v mod 0x100000000, s).
Proof. exact (read_le_N_to_le 4 v s). Qed.

Lemma read_le_8 v s : read_le 8 (N_to_le 8 v ++ s) = Ok (v mod 2 ^ 64, s).
Proof. exact (read_le_N_to_le 8 v s). Qed.

(** Reading back what [WriteCompactSize] wrote, for every 64-bit value. *)
Lemma ReadCompactSize_WriteCompactSize v s :
  v < 2 ^ 64 -> ReadCompactSize (WriteCompactSize v ++ s) = Ok (v, s).
Proof.
  intros Hv. unfold WriteCompactSize, ReadCompactSize, read_u8.
  destruct (N.ltb_spec v 253) as [H1|H1].
  - rewrite read_le_1. cbn [bind].
    rewrite N.mod_small by lia.
    destruct (N.ltb_spec v 253); [done | lia].
  - destruct (N.leb_spec v 0xFFFF) as [H2|H2];
      [| destruct (N.leb_spec v 0xFFFFFFFF) as [H3|H3]].
    + change (xfd :: N_to_le 2 v) with (N_to_le 1 253 ++ N_to_le 2 v).
      rewrite <- app_assoc, read_le_1. cbn [bind].
      change (253 mod 256 <? 253) with false. cbn match.
      change (253 mod 256 =? 253) with true. cbn match.
      rewrite read_le_2. cbn [bind].
      rewrite N.mod_small by lia.
      destruct (N.ltb_spec v 253); [lia | done].
    + change (xfe :: N_to_le 4 v) with (N_to_le 1 254 ++ N_to_le 4 v).
      rewrite <- app_assoc, read_le_1. cbn [bind].
      change (254 mod 256 <? 253) with false. cbn match.
      change (254 mod 256 =? 253) with false. cbn match.
      change (254 mod 256 =? 254) with true. cbn match.
      rewrite read_le_4. cbn [bind].
      rewrite N.mod_small by lia.
      destruct (N.ltb_spec v 0x10000); [lia | done].
    + change (xff :: N_to_le 8 v) with (N_to_le 1 255 ++ N_to_le 8 v).
      rewrite <- app_assoc, read_le_1. cbn [bind].
      change (255 mod 256 <? 253) with false. cbn match.
      change (255 mod 256 =? 253) with false. cbn match.
      change (255 mod 256 =? 254) with false. cbn match.
      rewrite read_le_8. cbn [bind].
      rewrite N.mod_small by lia.
      destruct (N.ltb_spec v 0x100000000); [lia | done].
Qed.

(** A length-prefixed vector is read back by [ReadCompactSize] and [read]. *)
Lemma read_write_vector (v s : bytes) :
  N.of_nat (length v) < 2 ^ 64 ->
  ReadCompactSize (write_vector v ++ s) = Ok (N.of_nat (length v), v ++ s).
Proof.
  intros Hv. unfold write_vector. rewrite <- app_assoc.
  by apply ReadCompactSize_WriteCompactSize.
Qed.

End CompactSizeFacts.

(** ** The PSBT read loop *)

Module PSBTFacts.
Import StdMap PSBT PSBTSpec.

Lemma emplace_Forall {V} (Q : bytes * V -> Prop) k v (m : StdMap.t V) :
  Q (k, v) -> Forall Q m -> Forall Q (emplace k v m).
Proof.
  intros Hkv Hm. induction Hm as [|[k' v'] r Hx Hr IH]; simpl.
  - constructor; [assumption | constructor].
  - destruct (decide (k = k')); [by constructor |].
    destruct (bytes_ltb k k'); constructor; auto.
Qed.

Section Loop.
Context {P : Primitives}.

(** Case analysis on the conditionals of a successful run. *)
Ltac run H :=
  repeat match type of H with
         | bind _ _ = Ok _ => bind_inv H
         | (if ?c then _ else _) = Ok _ => destruct c eqn:?
         | match ?x with _ => _ end = Ok _ => destruct x eqn:?
         | Err _ = Ok _ => discriminate H
         | Ok _ = Ok _ => simplify_eq
         end.

Lemma unknown_record_consumes st key value_len s st' s' :
  unknown_record st key value_len s = Ok (st', s') -> (length s' <= length s)%nat.
Proof.
  unfold unknown_record. intros H. run H;
    match goal with Hr : read _ _ = Ok _ |- _ => apply read_length in Hr end; lia.
Qed.

Lemma read_keypath_consumes fuel i value_len s keypath kp s' :
  read_keypath fuel i value_len s keypath = Ok (kp, s') -> (length s' <= length s)%nat.
Proof.
  revert i s keypath. induction fuel as [|fuel IH]; intros i s keypath; simpl.
  - destruct (i <? value_len)%N; [discriminate | intros [= <- <-]; lia].
  - destruct (i <? value_len)%N; [| intros [= <- <-]; lia].
    intros H. bind_inv H. apply IH in H. apply read_le_length in Ha. lia.
Qed.

(** The fuel of [read_keypath] is never used up: every fuel above the
    stream length gives the same result. *)
Lemma read_keypath_fuel fuel fuel' i value_len s keypath :
  (length s < fuel)%nat -> (length s < fuel')%nat ->
  read_keypath fuel i value_len s keypath = read_keypath fuel' i value_len s keypath.
Proof.
  revert fuel' i s keypath. induction fuel as [|fuel IH]; intros fuel' i s keypath H1 H2;
    [lia |].
  destruct fuel' as [|fuel']; [lia |]. cbn [read_keypath].
  destruct (i <? value_len)%N; [| done].
  destruct (read_u32 s) as [[idx s1]|e] eqn:E; [| done]. cbn [bind].
  apply read_le_length in E. apply IH; lia.
Qed.

Lemma case_NUM_IN_VIN_consumes st key value_len s st' s' :
  case_NUM_IN_VIN st key value_len s = Ok (st', s') -> (length s' <= length s)%nat.
Proof.
  unfold case_NUM_IN_VIN. intros H.
  apply bind_Ok in H as ([st1 s1] & H1 & H).
  apply unknown_record_consumes in H.
  enough (length s1 <= length s)%nat by lia.
  run H1.
  - match goal with Hr : ReadCompactSize _ = Ok _ |- _ =>
      apply ReadCompactSize_consumes in Hr end. lia.
  - match goal with Hr : read_u64 _ = Ok _ |- _ => apply read_le_length in Hr end. lia.
Qed.

Lemma step_consumes st s st' s' :
  step st s = Ok (st', s') -> (length s' < length s)%nat.
Proof.
  unfold step. intros H.
  apply bind_Ok in H as ([key_len s1] & H1 & H).
  apply ReadCompactSize_consumes in H1.
  destruct (key_len =? 0)%N.
  { bind_inv H. injection H as <- <-. lia. }
  apply bind_Ok in H as ([key s2] & H2 & H). apply read_length in H2.
  apply bind_Ok in H as ([value_len s3] & H3 & H). apply ReadCompactSize_consumes in H3.
  enough (length s' <= length s3)%nat by lia.
  repeat match type of H with
         | (if bool_decide _ then _ else _) = _ => destruct (bool_decide _)
         end.
  - unfold case_UNSIGNED_TX_NON_WITNESS_UTXO in H. run H;
      match goal with Hr : UnserializeTx _ = Ok _ |- _ => apply UnserializeTx_suffix in Hr end;
      lia.
  - unfold case_REDEEMSCRIPT_WITNESS_UTXO in H. run H.
    + match goal with Hr : read _ _ = Ok _ |- _ => apply read_length in Hr end. lia.
    + match goal with Hr : UnserializeTxOut _ = Ok _ |- _ =>
        apply UnserializeTxOut_suffix in Hr end. lia.
  - unfold case_WITNESSSCRIPT_PARTIAL_SIG in H. run H;
      match goal with Hr : read _ _ = Ok _ |- _ => apply read_length in Hr end; lia.
  - unfold case_BIP32_KEYPATH_SIGHASH in H. run H.
    + match goal with Hr : read_keypath _ _ _ _ _ = Ok _ |- _ =>
        apply read_keypath_consumes in Hr end. lia.
    + match goal with Hr : read_i32 _ = Ok _ |- _ => unfold read_i32 in Hr; run Hr end.
      match goal with Hr : read_u32 _ = Ok _ |- _ => apply read_le_length in Hr end. lia.
  - by apply case_NUM_IN_VIN_consumes in H.
  - by apply unknown_record_consumes in H.
Qed.

(** The fuel of [read_loop] is never used up: every fuel that covers the
    stream gives the same result. *)
Lemma read_loop_fuel fuel fuel' st s :
  (length s <= fuel)%nat -> (length s <= fuel')%nat ->
  read_loop fuel st s = read_loop fuel' st s.
Proof.
  revert fuel' st s. induction fuel as [|fuel IH]; intros fuel' st s H1 H2.
  - destruct s; [| simpl in H1; lia]. by destruct fuel'.
  - destruct s as [|b s]; [by destruct fuel' |].
    destruct fuel' as [|fuel']; [simpl in H2; lia |].
    cbn [read_loop]. destruct (step st (b :: s)) as [[st1 s1]|e] eqn:E; [| done].
    cbn [bind]. apply step_consumes in E. simpl in *. apply IH; lia.
Qed.

(** The loop is the iteration of [step]. *)
Lemma read_loop_reaches st s st' s' :
  reaches st s st' s' ->
  read_loop (length s) st s = read_loop (length s') st' s'.
Proof.
  induction 1 as [|st s st1 s1 st' s' Hne Hstep Hreach IH]; [done |].
  destruct s as [|b s]; [done |]. cbn [length read_loop].
  rewrite Hstep. cbn [bind]. rewrite <- IH.
  apply step_consumes in Hstep. simpl in Hstep.
  apply read_loop_fuel; lia.
Qed.

(** Every turn of the loop keeps the script tables hash-bound: an entry only
    enters a table after its hash was recomputed and compared. *)
Lemma separator_psbt_tables st s st' :
  separator st s = Ok st' ->
  redeem_scripts (psbt st') = redeem_scripts (psbt st)
  /\ witness_scripts (psbt st') = witness_scripts (psbt st).
Proof.
  unfold separator. intros H. apply bind_Ok in H as (st1 & H1 & H).
  run H. run H1; done.
Qed.

Lemma unknown_record_tables st key value_len s st' s' :
  unknown_record st key value_len s = Ok (st', s') ->
  redeem_scripts (psbt st') = redeem_scripts (psbt st)
  /\ witness_scripts (psbt st') = witness_scripts (psbt st).
Proof. unfold unknown_record. intros H. run H; done. Qed.

Lemma step_hash_bound st s st' s' :
  step st s = Ok (st', s') -> hash_bound (psbt st) -> hash_bound (psbt st').
Proof.
  unfold step, hash_bound. intros H [Hr Hw].
  apply bind_Ok in H as ([key_len s1] & _ & H).
  destruct (key_len =? 0)%N.
  { apply bind_Ok in H as (st1 & Hsep & H). injection H as <- <-.
    apply separator_psbt_tables in Hsep as [-> ->]. done. }
  apply bind_Ok in H as ([key s2] & _ & H).
  apply bind_Ok in H as ([value_len s3] & _ & H).
  repeat match type of H with
         | (if bool_decide _ then _ else _) = _ => destruct (bool_decide _)
         end.
  - unfold case_UNSIGNED_TX_NON_WITNESS_UTXO in H. run H; done.
  - unfold case_REDEEMSCRIPT_WITNESS_UTXO in H. run H; [| done].
    cbn. split; [| done]. apply emplace_Forall; [| done].
    match goal with Hn : negb (bool_decide _) = false |- _ =>
      apply negb_false_iff, bool_decide_eq_true in Hn; symmetry; exact Hn end.
  - unfold case_WITNESSSCRIPT_PARTIAL_SIG in H. run H; [| done].
    cbn. split; [done |]. apply emplace_Forall; [| done].
    match goal with Hn : negb (bool_decide _) = false |- _ =>
      apply negb_false_iff, bool_decide_eq_true in Hn; symmetry; exact Hn end.
  - unfold case_BIP32_KEYPATH_SIGHASH in H. run H; done.
  - unfold case_NUM_IN_VIN in H.
    apply bind_Ok in H as ([st1 s4] & H1 & H).
    apply unknown_record_tables in H as [-> ->].
    run H1; done.
  - apply unknown_record_tables in H as [-> ->]. done.
Qed.

Lemma read_loop_hash_bound fuel st s st' :
  read_loop fuel st s = Ok st' -> hash_bound (psbt st) -> hash_bound (psbt st').
Proof.
  revert st s. induction fuel as [|fuel IH]; intros st s H Hb.
  - destruct s; [injection H as <-; done | discriminate].
  - destruct s as [|b s]; [injection H as <-; done |].
    cbn [read_loop] in H. apply bind_Ok in H as ([st1 s1] & Hstep & H).
    eauto using step_hash_bound.
Qed.

(** [Unserialize] on an object whose tables are hash-bound leaves them so. *)
Lemma Unserialize_hash_bound p0 s p :
  Unserialize p0 s = Ok p -> hash_bound p0 -> hash_bound p.
Proof.
  unfold Unserialize. intros H Hb. run H.
  eapply read_loop_hash_bound; eauto.
Qed.

(** After the five header bytes, [Unserialize] is the read loop. *)
Lemma Unserialize_header p0 s :
  Unserialize p0 (header ++ s)
  = let* st := read_loop (length s) (initial p0) s in Ok (psbt st).
Proof.
  unfold Unserialize, header, read_u32, read_u8, read_le.
  change ([x70; x73; x62; x74; xff] ++ s) with ([x70; x73; x62; x74] ++ [xff] ++ s).
  change 4%N with (N.of_nat (length [x70; x73; x62; x74])).
  rewrite read_app. cbn [bind].
  change (le_to_N [x70; x73; x62; x74] =? PSBT_MAGIC_BYTES)%N with true. cbn [negb].
  change 1%N with (N.of_nat (length [xff])).
  rewrite read_app. done.
Qed.

(** A global record of type [tag] whose value does not hash to the key
    suffix stops the loop. *)
Lemma step_redeem_mismatch st h script rest :
  in_globals st = true -> length h = 20%nat ->
  (N.of_nat (length script) < 2 ^ 64)%N ->
  Hash160 script <> h ->
  step st (record (PSBT_REDEEMSCRIPT_WITNESS_UTXO :: h) script ++ rest)
  = Err (HashMismatch PSBT_REDEEMSCRIPT_WITNESS_UTXO).
Proof.
  intros Hg Hh Hs Hne. unfold step, record.
  rewrite <- !app_assoc.
  rewrite read_write_vector by (cbn [length]; rewrite Hh; simpl; lia).
  cbn [bind]. cbn [length]. rewrite Hh.
  change (N.of_nat 21 =? 0)%N with false. cbn match.
  rewrite <- Hh. change (S (length h)) with (length (PSBT_REDEEMSCRIPT_WITNESS_UTXO :: h)).
  rewrite read_app. cbn [bind hd].
  rewrite read_write_vector by done. cbn [bind].
  rewrite (bool_decide_eq_false_2 (_ = PSBT_UNSIGNED_TX_NON_WITNESS_UTXO)) by done.
  rewrite (bool_decide_eq_true_2 (_ = PSBT_REDEEMSCRIPT_WITNESS_UTXO)) by done.
  unfold case_REDEEMSCRIPT_WITNESS_UTXO. cbn [length tail].
  rewrite Hg, Hh. rewrite bool_decide_eq_true_2 by done. cbn [negb].
  rewrite read_app. cbn [bind].
  rewrite bool_decide_eq_false_2 by congruence. done.
Qed.

Lemma step_witness_mismatch st h script rest :
  in_globals st = true -> length h = 32%nat ->
  (N.of_nat (length script) < 2 ^ 64)%N ->
  SHA256 script <> h ->
  step st (record (PSBT_WITNESSSCRIPT_PARTIAL_SIG :: h) script ++ rest)
  = Err (HashMismatch PSBT_WITNESSSCRIPT_PARTIAL_SIG).
Proof.
  intros Hg Hh Hs Hne. unfold step, record.
  rewrite <- !app_assoc.
  rewrite read_write_vector by (cbn [length]; rewrite Hh; simpl; lia).
  cbn [bind]. cbn [length]. rewrite Hh.
  change (N.of_nat 33 =? 0)%N with false. cbn match.
  rewrite <- Hh. change (S (length h)) with (length (PSBT_WITNESSSCRIPT_PARTIAL_SIG :: h)).
  rewrite read_app. cbn [bind hd].
  rewrite read_write_vector by done. cbn [bind].
  rewrite (bool_decide_eq_false_2 (_ = PSBT_UNSIGNED_TX_NON_WITNESS_UTXO)) by done.
  rewrite (bool_decide_eq_false_2 (_ = PSBT_REDEEMSCRIPT_WITNESS_UTXO)) by done.
  rewrite (bool_decide_eq_true_2 (_ = PSBT_WITNESSSCRIPT_PARTIAL_SIG)) by done.
  unfold case_WITNESSSCRIPT_PARTIAL_SIG. cbn [length tail].
  rewrite Hg, Hh. rewrite bool_decide_eq_true_2 by done. cbn [negb].
  rewrite read_app. cbn [bind].
  rewrite bool_decide_eq_false_2 by congruence. done.
Qed.

(** A failing turn fails the whole deserialization, wherever in the stream
    the loop has got to. *)
Lemma deserialize_fails_at s st s' e :
  reaches (initial default) s st s' -> s' <> [] -> step st s' = Err e ->
  deserialize (header ++ s) = Err e.
Proof.
  intros Hr Hne Hstep. unfold deserialize.
  rewrite Unserialize_header, (read_loop_reaches _ _ _ _ Hr).
  destruct s' as [|b s']; [done |]. cbn [length read_loop]. by rewrite Hstep.
Qed.

End Loop.
End PSBTFacts.

(** ** The PSBT codec: claims *)

Module PSBTClaims.
Import StdMap PSBT PSBTSpec PSBTFacts Sample.

Section Claims.
Context {P : Primitives}.

Lemma byte_of_to_N (b : byte) (v : N) : Byte.to_N b = v -> Byte.of_N v = Some b.
Proof. intros <-. apply Byte.of_to_N. Qed.

(** The magic check: four bytes that are not "psbt" are rejected with
    [InvalidMagic], whatever follows and whatever object is being filled. *)
Lemma Unserialize_invalid_magic (p : PSBT.t) (b0 b1 b2 b3 : byte) (rest : bytes) :
  [b0; b1; b2; b3] <> [x70; x73; x62; x74] ->
  Unserialize p (b0 :: b1 :: b2 :: b3 :: rest) = Err InvalidMagic.
Proof.
  intros Hne. unfold Unserialize, read_u32, read_le.
  change (b0 :: b1 :: b2 :: b3 :: rest) with ([b0; b1; b2; b3] ++ rest).
  change 4%N with (N.of_nat (length [b0; b1; b2; b3])).
  rewrite read_app. cbn [bind].
  destruct (N.eqb_spec (le_to_N [b0; b1; b2; b3]) PSBT_MAGIC_BYTES) as [E|E]; [| done].
  exfalso. apply Hne. cbn [le_to_N] in E. unfold PSBT_MAGIC_BYTES in E.
  pose proof (Byte.to_N_bounded b0). pose proof (Byte.to_N_bounded b1).
  pose proof (Byte.to_N_bounded b2). pose proof (Byte.to_N_bounded b3).
  assert (Byte.to_N b0 = 0x70 /\ Byte.to_N b1 = 0x73
          /\ Byte.to_N b2 = 0x62 /\ Byte.to_N b3 = 0x74)%N as (E0 & E1 & E2 & E3) by lia.
  apply byte_of_to_N in E0, E1, E2, E3. cbn in E0, E1, E2, E3. congruence.
Qed.

(** The head byte plays no part: whatever the fifth byte is, the stream is
    read as if it were [0xFF]. *)
Lemma Unserialize_ignores_head_byte (p : PSBT.t) (b : byte) (s : bytes) :
  Unserialize p ([x70; x73; x62; x74] ++ b :: s) = Unserialize p (header ++ s).
Proof.
  rewrite Unserialize_header. unfold Unserialize, read_u32, read_u8, read_le.
  change 4%N with (N.of_nat (length [x70; x73; x62; x74])).
  rewrite read_app. cbn [bind].
  change (le_to_N [x70; x73; x62; x74] =? PSBT_MAGIC_BYTES)%N with true. cbn [negb].
  change (b :: s) with ([b] ++ s).
  change 1%N with (N.of_nat (length [b])).
  rewrite read_app. done.
Qed.

(** The index test at the separator that closes an input section: it throws
    when neither the transaction nor the section uses an index. *)
Lemma separator_rejects_unindexed (st : pstate) (s : bytes) :
  (0 < separators st)%N ->
  use_in_index (psbt st) = false ->
  Input.use_in_index (input st) = false ->
  separator st s = Err IndexPolicyViolation.
Proof.
  intros Hsep Hu Hi. unfold separator.
  destruct (N.ltb_spec 0 (separators st)); [| lia].
  by rewrite Hu, Hi.
Qed.

(** The same test lets an unindexed section through once any earlier
    section has set the transaction-wide flag. *)
Lemma separator_accepts_unindexed_after_indexed (st : pstate) (b : byte) (s : bytes) :
  (0 < separators st)%N ->
  use_in_index (psbt st) = true ->
  exists st', separator st (b :: s) = Ok st'
              /\ inputs (psbt st') = inputs (psbt st) ++ [input st].
Proof.
  intros Hsep Hu. unfold separator.
  destruct (N.ltb_spec 0 (separators st)); [| lia].
  rewrite Hu. cbn. eexists. split; reflexivity.
Qed.

(** The count test at a separator that ends the stream: the loop only gets
    past it when the number of input sections read, [separators st], differs
    from [num_ins]. *)
Lemma separator_at_end_of_stream (st st' : pstate) :
  (separators st < 2 ^ 32 - 1)%N ->
  separator st [] = Ok st' ->
  separators st <> num_ins (psbt st').
Proof.
  intros Hsep H. unfold separator in H.
  apply bind_Ok in H as (st1 & H1 & H).
  assert (separators st1 = separators st) as Hs1.
  { destruct (0 <? separators st)%N; [destruct (_ && _) |]; by simplify_eq. }
  rewrite Hs1 in H. cbn [is_empty andb] in H.
  assert (uint32_wrap (Z.of_N (uint32_wrap (Z.of_N (separators st) + 1)) - 1)
          = separators st) as Hw.
  { unfold uint32_wrap.
    rewrite (Z.mod_small (Z.of_N (separators st) + 1)) by lia.
    rewrite Z2N.id by lia.
    replace (Z.of_N (separators st) + 1 - 1)%Z with (Z.of_N (separators st)) by lia.
    rewrite Z.mod_small by lia. apply N2Z.id. }
  rewrite Hw in H.
  destruct (N.eqb_spec (separators st) (num_ins (psbt st1))) as [E|E]; [discriminate |].
  by simplify_eq.
Qed.

(** C1 -- round trip.  The default-constructed PSBT has as many [inputs] as
    [tx.vin] (none) and empty, hence hash-bound, script tables.  [Serialize]
    writes it as magic, head byte and separator, and [Unserialize] rejects
    these six bytes: at the separator the stream is empty and the count check
    throws because the number of input sections read (0) equals [num_ins] (0). *)
Theorem roundtrip_fails_on_default_psbt :
  length (inputs default) = length (vin (tx default))
  /\ hash_bound default
  /\ Serialize default = Some stream_empty_psbt
  /\ deserialize stream_empty_psbt = Err UnexpectedInputCount.
Proof.
  split; [reflexivity |]. split; [split; constructor |].
  split; reflexivity.
Qed.

(** C3 -- hash binding.  After every successful deserialization the entries
    of [redeem_scripts] satisfy [Hash160 script = key] and those of
    [witness_scripts] satisfy [SHA256 script = key]; and wherever the read loop
    stands in the globals, a [0x01] (resp. [0x02]) record whose value does not
    hash to the 20 (resp. 32) bytes carried in its key makes the
    deserialization fail with [HashMismatch]. *)
Theorem hash_binding :
  (forall s p, deserialize s = Ok p -> hash_bound p)
  /\ (forall s st h script rest,
        reaches (initial default) s st
                (record (PSBT_REDEEMSCRIPT_WITNESS_UTXO :: h) script ++ rest) ->
        in_globals st = true ->
        length h = 20%nat ->
        (N.of_nat (length script) < 2 ^ 64)%N ->
        Hash160 script <> h ->
        deserialize (header ++ s) = Err (HashMismatch PSBT_REDEEMSCRIPT_WITNESS_UTXO))
  /\ (forall s st h script rest,
        reaches (initial default) s st
                (record (PSBT_WITNESSSCRIPT_PARTIAL_SIG :: h) script ++ rest) ->
        in_globals st = true ->
        length h = 32%nat ->
        (N.of_nat (length script) < 2 ^ 64)%N ->
        SHA256 script <> h ->
        deserialize (header ++ s) = Err (HashMismatch PSBT_WITNESSSCRIPT_PARTIAL_SIG)).
Proof.
  split; [| split].
  - intros s p H. eapply Unserialize_hash_bound; [exact H |]. split; constructor.
  - intros s st h script rest Hr Hg Hh Hs Hne.
    eapply deserialize_fails_at; [exact Hr | |].
    + unfold record, write_vector. destruct (WriteCompactSize _) eqn:E; [| done].
      unfold WriteCompactSize in E. repeat (destruct (_ : bool) in E); discriminate.
    + by apply step_redeem_mismatch.
  - intros s st h script rest Hr Hg Hh Hs Hne.
    eapply deserialize_fails_at; [exact Hr | |].
    + unfold record, write_vector. destruct (WriteCompactSize _) eqn:E; [| done].
      unfold WriteCompactSize in E. repeat (destruct (_ : bool) in E); discriminate.
    + by apply step_witness_mismatch.
Qed.

(** C5 -- input count.  Globals that state [num_ins = 2] followed by no input
    section at all are accepted, and globals that state [num_ins = 1] followed
    by exactly one input section are rejected with [UnexpectedInputCount]: the
    check at the last separator throws when the counts are equal. *)
Theorem input_count_check_is_inverted :
  deserialize stream_two_stated_none_given
  = Ok (mk CMutableTransaction_default [] [] [] [([x04], [x00])] [] 2 false)
  /\ deserialize stream_one_stated_one_given = Err UnexpectedInputCount.
Proof. split; reflexivity. Qed.

(** C6 -- index policy.  A stream whose input sections all lack an index
    is rejected with [IndexPolicyViolation] (with one section or two), and a
    stream whose first input section carries an index and whose second does
    not is accepted, with both inputs. *)
Theorem index_policy_check_is_inverted :
  deserialize stream_unindexed = Err IndexPolicyViolation
  /\ deserialize stream_unindexed_twice = Err IndexPolicyViolation
  /\ exists p, deserialize stream_mixed = Ok p
               /\ length (inputs p) = 2%nat
               /\ use_in_index p = true.
Proof.
  split; [reflexivity |]. split; [reflexivity |].
  eexists. split; [vm_compute; reflexivity |]. split; reflexivity.
Qed.

(** C7 -- head byte.  A stream that starts with the magic and whose fifth
    byte is [0x00] instead of [0xFF] is deserialized, to the default PSBT:
    the byte is read and never compared. *)
Theorem head_byte_is_not_checked :
  deserialize stream_bad_head = Ok default.
Proof. reflexivity. Qed.

End Claims.

(** The hypotheses of [hash_binding] are met on concrete streams: a stream
    whose two script records are under their digests deserializes; the same
    redeem record under twenty zero bytes is a mismatch, met in the initial
    state or after a first, well-formed record; and so is the witness record
    under thirty-two zero bytes. *)
Lemma hash_binding_witness :
  hash_bound (P := primitives)
    (mk CMutableTransaction_default [(digest20_51, script_51)]
        [(digest32_51, script_51)] [] [] [] 0 false)
  /\ deserialize (P := primitives)
       (header ++ record (PSBT_REDEEMSCRIPT_WITNESS_UTXO :: replicate 20 x00) script_51 ++ [])
     = Err (HashMismatch PSBT_REDEEMSCRIPT_WITNESS_UTXO)
  /\ deserialize (P := primitives)
       (header
        ++ record (PSBT_REDEEMSCRIPT_WITNESS_UTXO :: digest20_51) script_51
        ++ record (PSBT_REDEEMSCRIPT_WITNESS_UTXO :: replicate 20 x00) script_51 ++ [])
     = Err (HashMismatch PSBT_REDEEMSCRIPT_WITNESS_UTXO)
  /\ deserialize (P := primitives)
       (header ++ record (PSBT_WITNESSSCRIPT_PARTIAL_SIG :: replicate 32 x00) script_51 ++ [])
     = Err (HashMismatch PSBT_WITNESSSCRIPT_PARTIAL_SIG).
Proof.
  destruct (hash_binding (P := primitives)) as (H1 & H2 & H3).
  split; [| split; [| split]].
  - apply (H1 stream_two_scripts). vm_compute. reflexivity.
  - apply (H2 _ (initial default) (replicate 20 x00) script_51 []).
    + apply reaches_here.
    + reflexivity.
    + reflexivity.
    + vm_compute. reflexivity.
    + vm_compute. discriminate.
  - apply (H2 _ (with_psbt (initial default)
                   (set_redeem_scripts default [(digest20_51, script_51)]))
              (replicate 20 x00) script_51 []).
    + eapply reaches_step; [discriminate | vm_compute; reflexivity | apply reaches_here].
    + reflexivity.
    + reflexivity.
    + vm_compute. reflexivity.
    + vm_compute. discriminate.
  - apply (H3 _ (initial default) (replicate 32 x00) script_51 []).
    + apply reaches_here.
    + reflexivity.
    + reflexivity.
    + vm_compute. reflexivity.
    + vm_compute. discriminate.
Defined.

End PSBTClaims.

(** ** Coin selection: sums, selections and sets *)

Module CoinFacts.
Import CoinSelection CoinSpec.
Local Open Scope Z_scope.

Lemma fold_left_total (f : CInputCoin -> CAmount) l a :
  fold_left (fun acc u => acc + f u) l a = a + total f l.
Proof.
  revert a. induction l as [|u l IH]; intros a; simpl; [lia |].
  rewrite IH. lia.
Qed.

Lemma sum_effective_total l : sum_effective l = total effective_value l.
Proof. unfold sum_effective. by rewrite fold_left_total. Qed.

Lemma sum_value_total l : sum_value l = total value l.
Proof. unfold sum_value. by rewrite (fold_left_total value). Qed.

Lemma total_app f l k : total f (l ++ k) = total f l + total f k.
Proof. induction l as [|u l IH]; simpl; lia. Qed.

Lemma total_Permutation f l k : Permutation l k -> total f l = total f k.
Proof. induction 1; simpl; lia. Qed.

Lemma at_Ok {A} (v : list A) i x :
  at_ v i = Ok x -> 0 <= i /\ v !! Z.to_nat i = Some x.
Proof.
  unfold at_. destruct (Z.ltb_spec i 0); [discriminate |].
  destruct (v !! Z.to_nat i); [intros [= ->]; split; [lia | done] | discriminate].
Qed.

Lemma flag_Some (v : list bool) i b : v !! i = Some b -> flag v i = b.
Proof. unfold flag. by intros ->. Qed.

Lemma flag_false_lookup (v : list bool) i :
  (i < length v)%nat -> flag v i = false -> v !! i = Some false.
Proof.
  intros Hi. unfold flag. destruct (v !! i) as [b|] eqn:E.
  - by intros ->.
  - apply lookup_ge_None in E. lia.
Qed.

Lemma flag_insert_ne (v : list bool) i j b : i <> j -> flag (<[i:=b]> v) j = flag v j.
Proof. intros H. unfold flag. by rewrite list_lookup_insert_ne. Qed.

(** *** Selections *)

Lemma selected_nil_r v : selected v [] = [].
Proof. by destruct v. Qed.

Lemma selected_replicate_false v k : selected v (replicate k false) = [].
Proof. revert k. induction v as [|u v IH]; intros [|k]; simpl; auto. Qed.

Lemma selected_replicate_true v : selected v (replicate (length v) true) = v.
Proof. induction v as [|u v IH]; simpl; [done | by rewrite IH]. Qed.

(** Flipping one flag moves the sum by the measure of the coin at that
    index. *)
Lemma total_selected_insert f (v : list CInputCoin) (flags : list bool) (i : nat) u
    (b b' : bool) :
  v !! i = Some u -> flags !! i = Some b ->
  total f (selected v (<[i:=b']> flags))
  = total f (selected v flags) - (if b then f u else 0) + (if b' then f u else 0).
Proof.
  revert flags i. induction v as [|x v IH]; intros flags i Hv Hf; [done |].
  destruct flags as [|c flags]; [done |].
  destruct i as [|i]; simpl in Hv, Hf.
  - injection Hv as ->. injection Hf as ->. simpl.
    destruct b, b'; simpl; lia.
  - specialize (IH flags i Hv Hf). simpl. destruct c; simpl; lia.
Qed.

Lemma selected_sublist v flags : sublist (selected v flags) v.
Proof.
  revert flags. induction v as [|x v IH]; intros [|b flags]; simpl.
  - constructor.
  - constructor.
  - apply sublist_nil_l.
  - destruct b; [by apply sublist_skip | by apply sublist_cons].
Qed.

(** *** Distinct outpoints *)

Lemma distinct_outpoints_sublist l k :
  sublist l k -> distinct_outpoints k -> distinct_outpoints l.
Proof.
  intros Hs Hk. unfold distinct_outpoints in *.
  eapply sublist_NoDup; first [exact Hk | by apply fmap_sublist].
Qed.

Lemma distinct_outpoints_Permutation l k :
  Permutation l k -> distinct_outpoints l -> distinct_outpoints k.
Proof. unfold distinct_outpoints. by intros ->. Qed.

(** *** The output set *)

Lemma set_contains_false s c :
  outpoint c ∉ outpoint <$> s -> set_contains s c = false.
Proof.
  unfold set_contains. induction s as [|x s IH]; simpl; [done |].
  rewrite not_elem_of_cons. intros [Hx Hs]. rewrite IH by done.
  by rewrite bool_decide_eq_false_2.
Qed.

(** Inserting coins of pairwise distinct outpoints, none of which is in
    the set yet, keeps them all. *)
Lemma fold_set_insert_distinct l s :
  distinct_outpoints (s ++ l) -> fold_left set_insert l s = s ++ l.
Proof.
  revert s. induction l as [|c l IH]; intros s H; simpl.
  - by rewrite app_nil_r.
  - assert (set_contains s c = false) as Hc.
    { apply set_contains_false. unfold distinct_outpoints in H.
      rewrite fmap_app in H. apply NoDup_app in H as (_ & H & _).
      intros Hin. apply (H (outpoint c) Hin). rewrite fmap_cons. left. }
    unfold set_insert at 2. rewrite Hc.
    rewrite IH; rewrite <- app_assoc; done.
Qed.

(** *** The sort *)

Lemma insert_descending_Permutation c l : Permutation (insert_descending c l) (c :: l).
Proof.
  induction l as [|x l IH]; simpl; [done |].
  destruct (descending c x); [done |].
  rewrite IH. apply perm_swap.
Qed.

Lemma sort_descending_Permutation l : Permutation (sort_descending l) l.
Proof.
  unfold sort_descending.
  enough (forall acc, Permutation (fold_left (fun acc c => insert_descending c acc) l acc)
                                  (l ++ acc)) as H.
  { rewrite H. by rewrite app_nil_r. }
  induction l as [|c l IH]; intros acc; simpl; [done |].
  rewrite IH, insert_descending_Permutation. by rewrite Permutation_middle.
Qed.

End CoinFacts.

(** ** Branch and bound: the search keeps its invariant *)

Module BnBFacts.
Import CoinSelection CoinSpec CoinFacts.
Local Open Scope Z_scope.

Lemma walk_back_Ok pool (sel : list bool) k avail d avail' :
  walk_back pool sel k avail = Ok (d, avail') ->
  (d = -1 \/ (0 <= d < Z.of_nat k /\ sel !! Z.to_nat d = Some true))
  /\ (forall i : nat, d < Z.of_nat i < Z.of_nat k -> flag sel i = false).
Proof.
  revert avail. induction k as [|k IH]; intros avail; cbn [walk_back].
  - intros [= <- <-]. split; [by left | lia].
  - intros H. apply bind_Ok in H as (b & Hb & H).
    apply at_Ok in Hb as [_ Hb]. rewrite Nat2Z.id in Hb.
    destruct b.
    + injection H as <- <-. split; [| lia].
      right. rewrite Nat2Z.id. split; [lia | done].
    + apply bind_Ok in H as (u & _ & H). apply IH in H as [Hd Hflags].
      split.
      * destruct Hd as [-> | [Hd Hsel]]; [by left | right; split; [lia | done]].
      * intros i Hi. destruct (decide (i = k)) as [-> | Hne].
        -- by apply flag_Some.
        -- apply Hflags. lia.
Qed.

Section Search.
Variable pool : list CInputCoin.
Variables actual_target cost_of_change : CAmount.

#[local] Abbreviation inv := (bnb_inv pool actual_target cost_of_change).
#[local] Abbreviation iter := (bnb_iter pool actual_target cost_of_change).

Lemma record_solution_inv st :
  must_backtrack pool actual_target cost_of_change st = Ok false ->
  actual_target <= curr_value st ->
  inv st -> inv (record_solution actual_target st).
Proof.
  intros Hb Ht [Hlen Hdepth Hbeyond Hvalue Hbest]. unfold record_solution.
  destruct (_ <=? best_waste st); [| by constructor].
  constructor; cbn; try done.
  intros _. unfold in_range. rewrite <- Hvalue. split; [done |].
  unfold must_backtrack in Hb.
  destruct (Z.ltb_spec (curr_value st + curr_available_value st) actual_target);
    [discriminate |].
  destruct (Z.ltb_spec (actual_target + cost_of_change) (curr_value st));
    [discriminate | lia].
Qed.

Lemma backtrack_step_inv st ctl st' :
  inv st -> backtrack_step pool st = Ok (ctl, st') ->
  best_selection st' = best_selection st /\ (ctl = Continue -> inv st').
Proof.
  intros [Hlen Hdepth Hbeyond Hvalue Hbest]. unfold backtrack_step. intros H.
  apply bind_Ok in H as ([d avail] & Hw & H).
  apply walk_back_Ok in Hw as [Hd Hflags]. rewrite Z2Nat.id in Hd, Hflags by lia.
  destruct (Z.ltb_spec d 0).
  { injection H as <- <-. split; [done | discriminate]. }
  destruct Hd as [-> | [Hd Hsel]]; [lia |].
  apply bind_Ok in H as (b & _ & H).
  apply bind_Ok in H as (u & Hu & H). apply at_Ok in Hu as [_ Hu].
  injection H as <- <-. split; [done |]. intros _.
  constructor; cbn.
  - by rewrite length_insert.
  - lia.
  - intros i Hi. rewrite flag_insert_ne by lia.
    destruct (Z_lt_le_dec (Z.of_nat i) (depth st)).
    + apply Hflags. lia.
    + apply Hbeyond. lia.
  - rewrite (total_selected_insert _ _ _ _ u true false Hu Hsel). lia.
  - done.
Qed.

Lemma forward_step_inv st ctl st' :
  inv st -> forward_step pool st = Ok (ctl, st') ->
  best_selection st' = best_selection st /\ inv st'.
Proof.
  intros [Hlen Hdepth Hbeyond Hvalue Hbest]. unfold forward_step. intros H.
  apply bind_Ok in H as (u & Hu & H). apply at_Ok in Hu as [_ Hu].
  destruct (negb _); [discriminate |].
  apply bind_Ok in H as (skip & _ & H).
  apply bind_Ok in H as (b & _ & H).
  pose proof (lookup_lt_Some _ _ _ Hu) as Hlt.
  assert (curr_selection st !! Z.to_nat (depth st) = Some false) as Hsel.
  { apply flag_false_lookup; [lia | by apply Hbeyond]. }
  destruct skip; injection H as <- <-; (split; [done |]); constructor; cbn;
    try done; try (by rewrite length_insert); try lia.
  - intros i Hi. rewrite flag_insert_ne by lia. apply Hbeyond. lia.
  - by rewrite list_insert_id.
  - intros i Hi. rewrite flag_insert_ne by lia. apply Hbeyond. lia.
  - rewrite (total_selected_insert _ _ _ _ u false true Hu Hsel). lia.
Qed.

(** One turn of the loop: the best selection stays a solution, and the
    invariant holds again unless the loop is left. *)
Lemma bnb_iter_inv st ctl st' :
  inv st -> iter st = Ok (ctl, st') ->
  (best_selection st' <> [] -> in_range pool actual_target cost_of_change (best_selection st'))
  /\ (ctl = Continue -> inv st').
Proof.
  intros Hinv. unfold bnb_iter. intros H.
  apply bind_Ok in H as (b & Hb & H).
  destruct b.
  - apply (backtrack_step_inv _ _ _ Hinv) in H as [Hbest Hc].
    split; [| done]. rewrite Hbest. apply Hinv.
  - destruct (Z.leb_spec actual_target (curr_value st)) as [Ht|Ht].
    + pose proof (record_solution_inv st Hb Ht Hinv) as Hinv'.
      apply (backtrack_step_inv _ _ _ Hinv') in H as [Hbest Hc].
      split; [| done]. rewrite Hbest. apply Hinv'.
    + apply (forward_step_inv _ _ _ Hinv) in H as [Hbest Hinv'].
      split; [apply Hinv' | done].
Qed.

Lemma bnb_loop_best tries st st' :
  inv st -> bnb_loop pool actual_target cost_of_change tries st = Ok st' ->
  best_selection st' <> [] ->
  in_range pool actual_target cost_of_change (best_selection st').
Proof.
  revert st. induction tries as [|tries IH]; intros st Hinv; cbn [bnb_loop].
  - intros [= <-]. apply Hinv.
  - intros H. apply bind_Ok in H as ([ctl st1] & Hiter & H).
    apply (bnb_iter_inv _ _ _ Hinv) in Hiter as [Hbest Hc].
    destruct ctl.
    + eapply IH; [by apply Hc | exact H].
    + by injection H as <-.
Qed.

Lemma bnb_initial_inv MAX_MONEY available :
  inv (bnb_initial MAX_MONEY pool available).
Proof.
  constructor; cbn; try done.
  - by rewrite length_replicate.
  - lia.
  - intros i _. unfold flag.
    destruct (replicate (length pool) false !! i) as [b|] eqn:E; [| done].
    by apply lookup_replicate in E as [-> _].
  - by rewrite selected_replicate_false.
Qed.

(** What the output loop produces: every selected coin is inserted, and
    its value added, in index order. *)
Lemma emit_Ok best (k : nat) out v out' v' :
  emit pool best (Z.of_nat k) out v = Ok (out', v') ->
  out' = fold_left set_insert (selected (drop k pool) best) out
  /\ v' = v + total value (selected (drop k pool) best).
Proof.
  revert k out v. induction best as [|b best IH]; intros k out v; cbn [emit].
  - intros [= <- <-]. rewrite selected_nil_r. simpl. split; [done | lia].
  - replace (Z.of_nat k + 1) with (Z.of_nat (S k)) by lia.
    destruct b.
    + intros H. apply bind_Ok in H as (u & Hu & H).
      apply at_Ok in Hu as [_ Hu]. rewrite Nat2Z.id in Hu.
      apply IH in H as [-> ->].
      rewrite (drop_S _ _ _ Hu). cbn [selected fold_left total fold_right].
      split; [done |]. fold (total value (selected (drop (S k) pool) best)).
      unfold value at 2. lia.
    + intros H. apply IH in H as [-> ->].
      destruct (pool !! k) as [u|] eqn:Hu.
      * by rewrite (drop_S _ _ _ Hu).
      * apply lookup_ge_None in Hu.
        rewrite !drop_ge by lia. by destruct best.
Qed.

End Search.
End BnBFacts.

(** ** Branch and bound: the result of a successful run *)

Module BnBClaims.
Import CoinSelection CoinSpec CoinFacts BnBFacts CoinSample.
Local Open Scope Z_scope.





End BnBClaims.

(** ** Knapsack: the approximation keeps its invariant *)

Module KnapsackFacts.
Import CoinSelection CoinSpec CoinFacts.
Local Open Scope Z_scope.

(** An invariant indexed by the loop counter, along [for (i = a; i < a + n; i++)]. *)
Lemma fold_left_seq_inv {S : Type} (I : nat -> S -> Prop) (f : S -> nat -> S) n :
  forall a st,
    I a st ->
    (forall i st, (a <= i < a + n)%nat -> I i st -> I (Datatypes.S i) (f st i)) ->
    I (a + n)%nat (fold_left f (seq a n) st).
Proof.
  induction n as [|n IH]; intros a st H0 Hstep; simpl.
  - by rewrite Nat.add_0_r.
  - replace (a + Datatypes.S n)%nat with (Datatypes.S a + n)%nat by lia.
    apply IH.
    + apply Hstep; [lia | done].
    + intros i st' Hi. apply Hstep. lia.
Qed.

Section Approximate.
Variable vValue : list CInputCoin.
Variable target : CAmount.

#[local] Abbreviation tinv := (trial_inv vValue target).
#[local] Abbreviation best_ok := (CoinSpec.best_ok vValue target).

Lemma visit_inv (take : bool) (i : nat) st :
  tinv st ->
  (take = true -> flag (vfIncluded st) i = false) ->
  tinv (visit vValue target take i st).
Proof.
  intros [Hlen Htot Hbest Htarget] Hflag. unfold visit.
  destruct (vValue !! i) as [coin|] eqn:Hcoin; [| by constructor].
  destruct take; [| by constructor].
  pose proof (lookup_lt_Some _ _ _ Hcoin) as Hlt.
  assert (vfIncluded st !! i = Some false) as Hsel.
  { apply flag_false_lookup; [lia | by apply Hflag]. }
  pose proof (total_selected_insert value _ _ _ coin false true Hcoin Hsel) as Hadd.
  cbn match in Hadd. fold (value coin).
  destruct (Z.leb_spec target (nTotal st + value coin)) as [Hreach|Hshort].
  - constructor; cbn [nTotal vfIncluded nBest vfBest].
    + by rewrite !length_insert.
    + rewrite list_insert_insert_eq, list_insert_id by done. lia.
    + destruct (Z.ltb_spec (nTotal st + value coin) (nBest st)); cbn [fst snd];
        [lia | done].
    + destruct (Z.ltb_spec (nTotal st + value coin) (nBest st)); cbn [fst snd];
        [done | done].
  - constructor; cbn [nTotal vfIncluded nBest vfBest];
      [by rewrite length_insert | lia | done | done].
Qed.

Lemma visit_flag_ne (take : bool) (i j : nat) st :
  i <> j -> flag (vfIncluded (visit vValue target take i st)) j = flag (vfIncluded st) j.
Proof.
  intros Hne. unfold visit.
  destruct (vValue !! i); [| done]. destruct take; [| done].
  destruct (_ <=? _); cbn; by rewrite ?flag_insert_ne.
Qed.

Lemma pass_first_inv randbool st :
  tinv st -> (forall j, flag (vfIncluded st) j = false) ->
  tinv (pass vValue target randbool 0 st).
Proof.
  intros Hinv Hflags. unfold pass.
  pose proof (fold_left_seq_inv
    (fun i st => tinv st /\ forall j, (i <= j)%nat -> flag (vfIncluded st) j = false)
    (fun st i => visit vValue target (randbool i) i st) (length vValue) 0 st) as H.
  apply H.
  - split; [done | auto].
  - intros i st' _ [Hinv' Hflags']. split.
    + apply visit_inv; [done | auto].
    + intros j Hj. rewrite visit_flag_ne by lia. apply Hflags'. lia.
Qed.

Lemma pass_second_inv randbool st :
  tinv st -> tinv (pass vValue target randbool 1 st).
Proof.
  intros Hinv. unfold pass.
  apply (fold_left_seq_inv (fun _ st => tinv st)
           (fun st i => visit vValue target (negb (flag (vfIncluded st) i)) i st)
           (length vValue) 0 st); [done |].
  intros i st' _ Hinv'. apply visit_inv; [done |].
  by intros ->%negb_true_iff.
Qed.

Lemma repetition_best randbool best :
  best_ok best -> best_ok (repetition vValue target randbool best).
Proof.
  intros [Hsum Htarget]. unfold repetition.
  set (st0 := mktrial 0 _ false (fst best) (snd best)).
  assert (tinv st0) as H0.
  { constructor; cbn; [by rewrite length_replicate | | done | done].
    by rewrite selected_replicate_false. }
  assert (tinv (pass vValue target randbool 0 st0)) as H1.
  { apply pass_first_inv; [done |]. intros j. cbn. unfold flag.
    destruct (replicate _ false !! j) as [b|] eqn:E; [| done].
    by apply lookup_replicate in E as [-> _]. }
  destruct (fReachedTarget _).
  - cbn. split; apply H1.
  - pose proof (pass_second_inv randbool _ H1) as H2. cbn. split; apply H2.
Qed.

Lemma repetitions_best rand left nRep best :
  best_ok best -> best_ok (repetitions vValue target rand left nRep best).
Proof.
  revert nRep best. induction left as [|left IH]; intros nRep best Hb; simpl; [done |].
  destruct (_ =? _); [done |]. apply IH. by apply repetition_best.
Qed.

Lemma ApproximateBestSubset_best rand nTotalLower iterations :
  total value vValue = nTotalLower -> target <= nTotalLower ->
  best_ok (ApproximateBestSubset vValue target rand nTotalLower iterations).
Proof.
  intros Hsum Ht. unfold ApproximateBestSubset. apply repetitions_best.
  split; cbn; [by rewrite selected_replicate_true | done].
Qed.

End Approximate.

(** *** The first loop of [KnapsackSolver] *)

Lemma prescan_exact pool target vValue nTotalLower larger coin :
  prescan pool target vValue nTotalLower larger = inl coin ->
  coin ∈ pool /\ value coin = target.
Proof.
  revert vValue nTotalLower larger.
  induction pool as [|c pool IH]; intros vValue nTotalLower larger; cbn [prescan];
    [discriminate |].
  fold (value c).
  destruct (Z.eqb_spec (value c) target) as [E|E].
  { intros [= <-]. split; [left | done]. }
  intros H.
  assert (coin ∈ pool /\ value coin = target) as [Hin Hv];
    [| split; [by right | done]].
  destruct (_ <? _); [by apply IH in H |].
  destruct larger as [l|]; [destruct (_ <? _) |]; by apply IH in H.
Qed.

(** A coin worth exactly the target ends the first loop. *)
Lemma prescan_finds_exact pool target vValue nTotalLower larger coin :
  coin ∈ pool -> value coin = target ->
  exists coin', prescan pool target vValue nTotalLower larger = inl coin'.
Proof.
  revert vValue nTotalLower larger.
  induction pool as [|c pool IH]; intros vValue nTotalLower larger Hin Hv.
  { by apply elem_of_nil in Hin. }
  cbn [prescan]. fold (value c).
  destruct (Z.eqb_spec (value c) target) as [E|E]; [by eexists |].
  apply elem_of_cons in Hin as [-> | Hin]; [done |].
  destruct (_ <? _); [by apply IH |].
  destruct larger as [l|]; [destruct (_ <? _) |]; by apply IH.
Qed.

(** Without such a coin, the loop leaves the smaller coins, in pool order,
    their total, and a larger coin, if there is one, worth at least the target
    plus [MIN_CHANGE]. *)
Lemma prescan_partition pool target vValue nTotalLower larger vValue' nTotalLower' larger' :
  prescan pool target vValue nTotalLower larger = inr (vValue', nTotalLower', larger') ->
  (forall c, larger = Some c -> target + MIN_CHANGE <= value c) ->
  (exists lesser,
     vValue' = vValue ++ lesser
     /\ sublist lesser pool
     /\ nTotalLower' = nTotalLower + total value lesser)
  /\ (forall c, larger' = Some c -> target + MIN_CHANGE <= value c).
Proof.
  revert vValue nTotalLower larger.
  induction pool as [|c pool IH]; intros vValue nTotalLower larger; cbn [prescan].
  - intros [= <- <- <-] Hl. split; [| done].
    exists []. rewrite app_nil_r. split; [done |]. split; [constructor | simpl; lia].
  - fold (value c). destruct (Z.eqb_spec (value c) target); [discriminate |].
    destruct (Z.ltb_spec (value c) (target + MIN_CHANGE)) as [Hlt|Hge].
    + intros H Hl. apply IH in H as [(lesser & -> & Hsub & ->) Hl']; [| done].
      split; [| done]. exists (c :: lesser).
      rewrite <- app_assoc. split; [done |]. split; [by apply sublist_skip |].
      simpl. lia.
    + intros H Hl.
      assert (forall l0, (forall c0, l0 = Some c0 -> target + MIN_CHANGE <= value c0) ->
                prescan pool target vValue nTotalLower l0
                = inr (vValue', nTotalLower', larger') ->
                (exists lesser, vValue' = vValue ++ lesser /\ sublist lesser (c :: pool)
                                /\ nTotalLower' = nTotalLower + total value lesser)
                /\ (forall c0, larger' = Some c0 -> target + MIN_CHANGE <= value c0)) as Hgo.
      { intros l0 Hl0 H0. apply IH in H0 as [(lesser & -> & Hsub & ->) Hl']; [| done].
        split; [| done]. exists lesser. split; [done |].
        split; [by apply sublist_cons | done]. }
      destruct larger as [l|]; [destruct (_ <? _) |]; (eapply Hgo; [| exact H]).
      * by intros c0 [= <-].
      * done.
      * by intros c0 [= <-].
Qed.

Lemma insert_all_spec coins out v :
  insert_all coins (out, v) = (fold_left set_insert coins out, v + total value coins).
Proof.
  unfold insert_all. revert out v.
  induction coins as [|c coins IH]; intros out v; simpl.
  - f_equal. lia.
  - rewrite IH. f_equal. unfold value at 2. lia.
Qed.

End KnapsackFacts.

(** ** Knapsack and the failure paths: claims *)

Module KnapsackClaims.
Import CoinSelection CoinSpec CoinFacts KnapsackFacts CoinSample.
Local Open Scope Z_scope.

(** A successful run inserts the coins of some list [chosen] into the output
    set, one by one, and returns their total value, which reaches the target;
    the list has distinct outpoints when the shuffled pool has. *)
Lemma KnapsackSolver_success shuffle rand1 rand2 pool target :
  ret (KnapsackSolver shuffle rand1 rand2 pool target) = true ->
  exists chosen,
    out_set (KnapsackSolver shuffle rand1 rand2 pool target) = fold_left set_insert chosen []
    /\ value_ret (KnapsackSolver shuffle rand1 rand2 pool target) = total value chosen
    /\ target <= total value chosen
    /\ (distinct_outpoints (shuffle pool) -> distinct_outpoints chosen).
Proof.
  unfold KnapsackSolver.
  destruct (prescan (shuffle pool) target [] 0 None)
    as [coin | [[vValue nTotalLower] larger]] eqn:Hpre.
  { intros _. apply prescan_exact in Hpre as [_ Hv]. exists [coin].
    cbn [out_set value_ret fold_left total fold_right]. fold (value coin).
    split; [done |]. split; [lia |]. split; [lia |].
    intros _. apply NoDup_singleton. }
  apply prescan_partition in Hpre as [(lesser & Hl & Hsub & Htot) Hlarger]; [| done].
  cbn [app] in Hl. subst vValue. rewrite Z.add_0_l in Htot.
  assert (forall c, larger = Some c ->
            exists chosen,
              set_insert [] c = fold_left set_insert chosen []
              /\ 0 + nValue (txout c) = total value chosen
              /\ target <= total value chosen
              /\ (distinct_outpoints (shuffle pool) -> distinct_outpoints chosen)) as Hbig.
  { intros c Hc. apply Hlarger in Hc. exists [c].
    cbn [fold_left total fold_right]. fold (value c). unfold MIN_CHANGE in Hc.
    split; [done |]. split; [lia |]. split; [lia |].
    intros _. apply NoDup_singleton. }
  assert (forall flags,
            target <= total value (selected (sort_descending lesser) flags) ->
            exists chosen,
              fst (insert_all (selected (sort_descending lesser) flags) ([], 0))
              = fold_left set_insert chosen []
              /\ snd (insert_all (selected (sort_descending lesser) flags) ([], 0))
                 = total value chosen
              /\ target <= total value chosen
              /\ (distinct_outpoints (shuffle pool) -> distinct_outpoints chosen)) as Hsubset.
  { intros flags Hge. exists (selected (sort_descending lesser) flags).
    rewrite insert_all_spec. cbn [fst snd].
    split; [done |]. split; [lia |]. split; [done |].
    intros Hd. eapply distinct_outpoints_sublist; [apply selected_sublist |].
    eapply distinct_outpoints_Permutation;
      [symmetry; apply sort_descending_Permutation |].
    eapply distinct_outpoints_sublist; [exact Hsub | exact Hd]. }
  destruct (Z.eqb_spec nTotalLower target) as [Heq|Hne].
  { intros _. exists lesser. rewrite insert_all_spec. cbn [out_set value_ret fst snd].
    split; [done |]. split; [lia |]. split; [lia |].
    intros Hd. by eapply distinct_outpoints_sublist. }
  destruct (Z.ltb_spec nTotalLower target) as [Hlt|Hge].
  { destruct larger as [c|]; [| discriminate]. intros _. by apply Hbig. }
  assert (total value (sort_descending lesser) = nTotalLower) as Hsorted.
  { rewrite Htot. apply total_Permutation, sort_descending_Permutation. }
  set (best1 := ApproximateBestSubset (sort_descending lesser) target rand1 nTotalLower 1000).
  assert (best_ok (sort_descending lesser) target best1) as Hbest1.
  { apply ApproximateBestSubset_best; [done | lia]. }
  set (best := if negb (fst best1 =? target) && (target + MIN_CHANGE <=? nTotalLower)
               then ApproximateBestSubset (sort_descending lesser) (target + MIN_CHANGE)
                      rand2 nTotalLower 1000
               else best1).
  assert (target <= total value (selected (sort_descending lesser) (snd best))) as Hbest.
  { subst best. destruct (negb _ && _) eqn:Hc.
    - apply andb_true_iff in Hc as [_ Hc%Z.leb_le].
      destruct (ApproximateBestSubset_best (sort_descending lesser) (target + MIN_CHANGE)
                  rand2 nTotalLower 1000 Hsorted Hc) as [-> Hb].
      assert (0 < MIN_CHANGE) by done. lia.
    - destruct Hbest1 as [-> Hb]. done. }
  intros _. cbn zeta.
  destruct larger as [c|]; [destruct (_ || _) |];
    cbn [out_set value_ret]; auto.
Qed.

(** With sums in [Z]: the [value_ret] of a successful run is at least
    [nTargetValue]; and for a pool whose coins have pairwise distinct
    outpoints, which the shuffle permutes, it is the sum of [txout.nValue]
    over the returned [out_set]. *)
Lemma KnapsackSolver_sufficient shuffle rand1 rand2 pool nTargetValue :
  ret (KnapsackSolver shuffle rand1 rand2 pool nTargetValue) = true ->
  nTargetValue <= value_ret (KnapsackSolver shuffle rand1 rand2 pool nTargetValue)
  /\ (Permutation pool (shuffle pool) -> distinct_outpoints pool ->
      value_ret (KnapsackSolver shuffle rand1 rand2 pool nTargetValue)
      = sum_value (out_set (KnapsackSolver shuffle rand1 rand2 pool nTargetValue))).
Proof.
  intros Hret.
  destruct (KnapsackSolver_success _ _ _ _ _ Hret) as (chosen & Hout & Hv & Hge & Hd).
  split; [lia |]. intros Hperm Hdistinct.
  rewrite sum_value_total, Hv, Hout.
  rewrite (fold_set_insert_distinct chosen []); [done |].
  apply Hd. by eapply distinct_outpoints_Permutation.
Qed.

(** C8 -- knapsack exactness.  When some coin of the pool is worth exactly
    [nTargetValue], [KnapsackSolver] succeeds, [out_set] is a single coin of
    the pool worth [nTargetValue], and [value_ret] is [nTargetValue],
    whichever permutation the shuffle applies. *)
Theorem knapsack_exact_coin shuffle rand1 rand2 pool nTargetValue coin :
  Permutation pool (shuffle pool) ->
  coin ∈ pool ->
  nValue (txout coin) = nTargetValue ->
  exists coin',
    coin' ∈ pool
    /\ nValue (txout coin') = nTargetValue
    /\ ret (KnapsackSolver shuffle rand1 rand2 pool nTargetValue) = true
    /\ out_set (KnapsackSolver shuffle rand1 rand2 pool nTargetValue) = [coin']
    /\ value_ret (KnapsackSolver shuffle rand1 rand2 pool nTargetValue) = nTargetValue.
Proof.
  intros Hperm Hin Hv. rewrite Hperm in Hin.
  destruct (prescan_finds_exact _ _ [] 0 None _ Hin Hv) as [coin' Hpre].
  pose proof (prescan_exact _ _ _ _ _ _ Hpre) as [Hin' Hv'].
  exists coin'. rewrite <- Hperm in Hin'. unfold KnapsackSolver. rewrite Hpre.
  cbn [ret out_set value_ret]. unfold value in Hv'. repeat split; [done | done | lia].
Qed.


End KnapsackClaims.

(** ** The statements above, at concrete pools *)

Module CoinWitnesses.
Import CoinSelection CoinSpec CoinSample.
Local Open Scope Z_scope.

(** Values 4, 7, 10, 12, shuffled into the reverse order, and a target of 7. *)
Lemma knapsack_exact_coin_witness :
  exists coin',
    coin' ∈ pool_4_7_10_12
    /\ nValue (txout coin') = 7
    /\ ret (KnapsackSolver (@rev CInputCoin) tails tails pool_4_7_10_12 7) = true
    /\ out_set (KnapsackSolver (@rev CInputCoin) tails tails pool_4_7_10_12 7) = [coin']
    /\ value_ret (KnapsackSolver (@rev CInputCoin) tails tails pool_4_7_10_12 7) = 7.
Proof.
  apply (KnapsackClaims.knapsack_exact_coin (@rev CInputCoin) tails tails
           pool_4_7_10_12 7 (coin 2 7 7 0 0)).
  - apply Permutation_rev.
  - apply list_elem_of_In. vm_compute. tauto.
  - reflexivity.
Defined.


End CoinWitnesses.

(** ** The selectors on small pools *)

Module Scenarios.
Import CoinSelection CoinSample ScenarioInputs.
Local Open Scope Z_scope.

(** Effective values 8, 5, 3, 2, target 10, no change window: the subsets
    {8, 2} and {5, 3, 2} both pay exactly 10 with equal waste; the search
    meets {8, 2} first and, comparing with [<=], ends on {5, 3, 2}. *)
Example bnb_8_5_3_2_target_10 :
  bnb_summary (SelectCoinsBnB MAX_MONEY pool_8_5_3_2 10 0 0 0)
  = Some (true, [2; 3; 4]%N, 13).
Proof. vm_compute. reflexivity. Qed.

(** Effective values 10, 7, 5, 3, target 11, change window 2: {10, 3}
    overshoots by 2 and {7, 5} by 1; the search ends on {7, 5}. *)
Example bnb_10_7_5_3_target_11 :
  bnb_summary (SelectCoinsBnB MAX_MONEY pool_10_7_5_3 11 2 0 0)
  = Some (true, [2; 3]%N, 14).
Proof. vm_compute. reflexivity. Qed.

(** Effective values 3, 2, 1 cannot pay 10; the caller's [value_ret] (here
    77) is left as it was. *)
Example bnb_3_2_1_target_10 :
  bnb_summary (SelectCoinsBnB MAX_MONEY pool_3_2_1 10 0 77 0)
  = Some (false, [], 77).
Proof. vm_compute. reflexivity. Qed.

(** Values 4, 7, 10, 12 and target 7: the coin worth 7, alone. *)
Example knapsack_4_7_10_12_target_7 :
  summary (KnapsackSolver no_shuffle alternate alternate pool_4_7_10_12 7)
  = (true, [2]%N, 7).
Proof. vm_compute. reflexivity. Qed.

(** Values 1, 2 and target 10: failure. *)
Example knapsack_1_2_target_10 :
  summary (KnapsackSolver no_shuffle alternate alternate pool_1_2 10)
  = (false, [], 0).
Proof. vm_compute. reflexivity. Qed.

End Scenarios.

(** * Further properties of the selectors *)

(** ** Knapsack: the first loop, the fallback coin, and when it succeeds *)

Module KnapsackMore.
Import CoinSelection CoinSpec CoinFacts KnapsackFacts CoinExtraSpec.
Local Open Scope Z_scope.

Lemma filter_all {A} (Q : A -> Prop) `{forall x, Decision (Q x)} (l : list A) :
  (forall x, x ∈ l -> Q x) -> filter Q l = l.
Proof.
  induction l as [|x l IH]; intros Hall; [done |].
  rewrite filter_cons_True by (apply Hall; left).
  rewrite IH; [done |]. intros y Hy. apply Hall. by right.
Qed.

Lemma total_cons f x l : total f (x :: l) = f x + total f l.
Proof. reflexivity. Qed.

(** The first loop on a pool without a coin worth exactly the target: the
    coins below [nTargetValue + MIN_CHANGE], in pool order, their total, and
    the cheapest of the other coins. *)
Lemma prescan_no_exact pool target :
  (forall c, c ∈ pool -> value c <> target) ->
  forall vValue nTotalLower larger,
  exists larger',
    prescan pool target vValue nTotalLower larger
    = inr (vValue ++ filter (lesser target) pool,
           nTotalLower + total value (filter (lesser target) pool),
           larger')
    /\ lowest_larger target pool larger larger'.
Proof.
  induction pool as [|c pool IH]; intros Hne vValue nTotalLower larger.
  - exists larger. cbn [prescan]. rewrite filter_nil, app_nil_r. cbn [total fold_right].
    rewrite Z.add_0_r. split; [done |].
    destruct larger as [l|]; cbn.
    + split; [by left |]. split; [by intros c' Hc'%elem_of_nil |].
      by intros c0 [= ->].
    + split; [done |]. by intros c' Hc'%elem_of_nil.
  - assert (forall c', c' ∈ pool -> value c' <> target) as Hne'.
    { intros c' Hc'. apply Hne. by right. }
    cbn [prescan]. fold (value c).
    destruct (Z.eqb_spec (value c) target) as [E|_]; [by apply Hne in E; [| left] |].
    destruct (Z.ltb_spec (value c) (target + MIN_CHANGE)) as [Hlt|Hge].
    + destruct (IH Hne' (vValue ++ [c]) (nTotalLower + value c) larger)
        as (larger' & -> & Hlow).
      exists larger'. rewrite filter_cons_True by done.
      rewrite <- app_assoc. cbn [app]. rewrite total_cons, Z.add_assoc. split; [done |].
      destruct larger' as [l|]; cbn in Hlow |- *.
      * destruct Hlow as (Hin & Hmin & Hold). split; [| split; [| done]].
        -- destruct Hin as [-> | [Hin Hnl]]; [by left | right; split; [by right | done]].
        -- intros c' [-> | Hc']%elem_of_cons Hnl; [done | by apply Hmin].
      * destruct Hlow as [-> Hall]. split; [done |].
        intros c' [-> | Hc']%elem_of_cons; [done | by apply Hall].
    + assert (~ lesser target c) as Hnl by (unfold lesser; lia).
      set (next := match larger with
                   | Some l => if value c <? value l then Some c else larger
                   | None => Some c
                   end).
      assert (exists l1, next = Some l1 /\ value l1 <= value c
                         /\ (next = Some c \/ next = larger)
                         /\ (forall c0, larger = Some c0 -> value l1 <= value c0))
        as (l1 & Hnext & Hl1c & Hwhich & Hl1old).
      { subst next. destruct larger as [l|].
        - destruct (Z.ltb_spec (value c) (value l)).
          + exists c. split; [done |]. split; [lia |]. split; [by left |].
            intros c0 [= <-]. lia.
          + exists l. split; [done |]. split; [lia |]. split; [by right |].
            intros c0 [= <-]. lia.
        - exists c. split; [done |]. split; [lia |]. split; [by left | done]. }
      destruct (IH Hne' vValue nTotalLower next) as (larger' & Hpre & Hlow).
      exists larger'. rewrite filter_cons_False by done. split.
      * rewrite <- Hpre. subst next. unfold value.
        destruct larger as [l|]; [destruct (_ <? _) |]; reflexivity.
      * rewrite Hnext in Hlow. destruct larger' as [l'|]; cbn in Hlow |- *;
          [| by destruct Hlow as [[=] _]].
        destruct Hlow as (Hin & Hmin & Hold). specialize (Hold l1 eq_refl).
        split; [| split].
        -- destruct Hin as [[= ->] | [Hin Hnl']].
           ++ destruct Hwhich as [Hc | Hl]; rewrite Hnext in *.
              ** injection Hc as ->. right. split; [left | done].
              ** by left.
           ++ right. split; [by right | done].
        -- intros c' [-> | Hc']%elem_of_cons Hnl'; [lia | by apply Hmin].
        -- intros c0 Hc0. specialize (Hl1old c0 Hc0). lia.
Qed.

Lemma prescan_inr_no_exact pool target vValue nTotalLower larger r :
  prescan pool target vValue nTotalLower larger = inr r ->
  forall c, c ∈ pool -> value c <> target.
Proof.
  intros Hpre c Hin Hv.
  destruct (prescan_finds_exact pool target vValue nTotalLower larger c Hin Hv)
    as [c' Hc']. congruence.
Qed.

Lemma total_nonneg l : (forall c, c ∈ l -> 0 <= value c) -> 0 <= total value l.
Proof.
  induction l as [|x l IH]; intros H; [done |]. rewrite total_cons.
  assert (0 <= value x) by (apply H; left).
  assert (0 <= total value l) by (apply IH; intros c Hc; apply H; by right).
  lia.
Qed.

Lemma value_le_total l c :
  (forall c, c ∈ l -> 0 <= value c) -> c ∈ l -> value c <= total value l.
Proof.
  induction l as [|x l IH]; intros H Hin; [by apply elem_of_nil in Hin |].
  assert (0 <= value x) by (apply H; left).
  assert (forall c, c ∈ l -> 0 <= value c) as H' by (intros c' Hc'; apply H; by right).
  pose proof (total_nonneg l H'). rewrite total_cons.
  apply elem_of_cons in Hin as [-> | Hin]; [lia |].
  specialize (IH H' Hin). lia.
Qed.

(** Failure means that the whole pool is worth less than the target. *)
Lemma KnapsackSolver_fails shuffle rand1 rand2 pool target :
  ret (KnapsackSolver shuffle rand1 rand2 pool target) = false ->
  total value (shuffle pool) < target.
Proof.
  unfold KnapsackSolver.
  destruct (prescan (shuffle pool) target [] 0 None) as [coin | r] eqn:Hpre;
    [discriminate |].
  pose proof (prescan_inr_no_exact _ _ _ _ _ _ Hpre) as Hne.
  destruct (prescan_no_exact _ _ Hne [] 0 None) as (larger & Hpre' & Hlow).
  rewrite Hpre' in Hpre. injection Hpre as <-. cbn [app].
  destruct (_ =? _); [discriminate |].
  destruct (Z.ltb_spec (0 + total value (filter (lesser target) (shuffle pool))) target)
    as [Hlt|].
  - destruct larger as [c|]; [discriminate |]. intros _.
    destruct Hlow as [_ Hall]. rewrite (filter_all _ _ Hall) in Hlt. lia.
  - cbn zeta. destruct larger as [c|]; [destruct (_ || _) |]; discriminate.
Qed.

(** A pool of coins of non-negative value that is worth less than the
    target makes the solver fail. *)
Lemma KnapsackSolver_unfunded shuffle rand1 rand2 pool target :
  (forall c, c ∈ shuffle pool -> 0 <= value c) ->
  total value (shuffle pool) < target ->
  ret (KnapsackSolver shuffle rand1 rand2 pool target) = false.
Proof.
  intros Hpos Hlt. unfold KnapsackSolver.
  assert (forall c, c ∈ shuffle pool -> value c < target) as Hsmall.
  { intros c Hc. pose proof (value_le_total _ _ Hpos Hc). lia. }
  assert (forall c, c ∈ shuffle pool -> value c <> target) as Hne.
  { intros c Hc. specialize (Hsmall c Hc). lia. }
  assert (forall c, c ∈ shuffle pool -> lesser target c) as Hall.
  { intros c Hc. specialize (Hsmall c Hc). unfold lesser, MIN_CHANGE. lia. }
  destruct (prescan_no_exact _ _ Hne [] 0 None) as (larger & -> & Hlow).
  rewrite (filter_all _ _ Hall). cbn [app].
  destruct (Z.eqb_spec (0 + total value (shuffle pool)) target); [lia |].
  destruct (Z.ltb_spec (0 + total value (shuffle pool)) target); [| lia].
  destruct larger as [c|]; [| done].
  destruct Hlow as ([[=] | [Hc Hnl]] & _). exfalso. by apply Hnl, Hall.
Qed.

(** *** The approximation never does worse than taking every coin *)

Section ApproximateMore.
Variable vValue : list CInputCoin.
Variable target : CAmount.

Lemma visit_within (take : bool) (i : nat) st :
  length (vfIncluded st) = length vValue ->
  length (vfBest st) = length vValue ->
  length (vfIncluded (visit vValue target take i st)) = length vValue
  /\ length (vfBest (visit vValue target take i st)) = length vValue
  /\ nBest (visit vValue target take i st) <= nBest st.
Proof.
  intros Hi Hb. unfold visit.
  destruct (vValue !! i) as [coin|]; [| split; [done | split; [done | lia]]].
  destruct take; [| split; [done | split; [done | lia]]].
  destruct (_ <=? _); cbn [nBest vfBest vfIncluded].
  - rewrite !length_insert.
    destruct (Z.ltb_spec (nTotal st + nValue (txout coin)) (nBest st)); cbn [fst snd].
    + rewrite length_insert. split; [done | split; [done | lia]].
    + split; [done | split; [done | lia]].
  - rewrite length_insert. split; [done | split; [done | lia]].
Qed.

Lemma pass_within randbool nPass st bound :
  length (vfIncluded st) = length vValue ->
  length (vfBest st) = length vValue ->
  nBest st <= bound ->
  length (vfIncluded (pass vValue target randbool nPass st)) = length vValue
  /\ length (vfBest (pass vValue target randbool nPass st)) = length vValue
  /\ nBest (pass vValue target randbool nPass st) <= bound.
Proof.
  intros Hi Hb Hn. unfold pass.
  apply (fold_left_seq_inv
           (fun _ st => length (vfIncluded st) = length vValue
                        /\ length (vfBest st) = length vValue /\ nBest st <= bound)
           _ (length vValue) 0 st); [done |].
  intros i st' _ (Hi' & Hb' & Hn').
  destruct (visit_within (match nPass with
                          | O => randbool i
                          | _ => negb (flag (vfIncluded st') i)
                          end) i st' Hi' Hb') as (? & ? & ?).
  split; [done | split; [done | lia]].
Qed.

Lemma repetition_within randbool best bound :
  length (snd best) = length vValue -> fst best <= bound ->
  length (snd (repetition vValue target randbool best)) = length vValue
  /\ fst (repetition vValue target randbool best) <= bound.
Proof.
  intros Hb Hn. unfold repetition.
  set (st0 := mktrial 0 (replicate (length vValue) false) false (fst best) (snd best)).
  destruct (pass_within randbool 0 st0 bound) as (Hi1 & Hb1 & Hn1);
    [by apply length_replicate | done | done |].
  destruct (fReachedTarget _); cbn [fst snd]; [done |].
  destruct (pass_within randbool 1 _ bound Hi1 Hb1 Hn1) as (_ & ? & ?). done.
Qed.

Lemma repetitions_within rand left nRep best bound :
  length (snd best) = length vValue -> fst best <= bound ->
  length (snd (repetitions vValue target rand left nRep best)) = length vValue
  /\ fst (repetitions vValue target rand left nRep best) <= bound.
Proof.
  revert nRep best. induction left as [|left IH]; intros nRep best Hb Hn; simpl; [done |].
  destruct (_ =? _); [done |].
  destruct (repetition_within (rand nRep) best bound Hb Hn). by apply IH.
Qed.

End ApproximateMore.

(** With sums in [Z]: called on coins that add up to [nTotalLower], which
    reaches the target, [ApproximateBestSubset] returns one flag per coin and
    the value [nBest] of the flagged coins, with
    [nTargetValue <= nBest <= nTotalLower]. *)
Lemma ApproximateBestSubset_within vValue nTargetValue rand nTotalLower iterations :
  sum_value vValue = nTotalLower ->
  nTargetValue <= nTotalLower ->
  length (snd (ApproximateBestSubset vValue nTargetValue rand nTotalLower iterations))
  = length vValue
  /\ sum_value (selected vValue
                  (snd (ApproximateBestSubset vValue nTargetValue rand nTotalLower iterations)))
     = fst (ApproximateBestSubset vValue nTargetValue rand nTotalLower iterations)
  /\ nTargetValue
     <= fst (ApproximateBestSubset vValue nTargetValue rand nTotalLower iterations)
     <= nTotalLower.
Proof.
  intros Hsum Ht. rewrite sum_value_total in Hsum.
  destruct (ApproximateBestSubset_best vValue nTargetValue rand nTotalLower iterations
              Hsum Ht) as [Hbest Hge].
  destruct (repetitions_within vValue nTargetValue rand iterations 0
              (nTotalLower, replicate (length vValue) true) nTotalLower) as [Hlen Hle];
    [by apply length_replicate | done |].
  split; [exact Hlen |]. split; [by rewrite sum_value_total |].
  split; [done | exact Hle].
Qed.

(** With sums in [Z]: for a pool of coins of non-negative value, which the
    shuffle permutes, [KnapsackSolver] returns success exactly when the coins
    of the pool are worth at least [nTargetValue] together. *)
Lemma KnapsackSolver_funded shuffle rand1 rand2 pool nTargetValue :
  Permutation pool (shuffle pool) ->
  (forall c, c ∈ pool -> 0 <= nValue (txout c)) ->
  ret (KnapsackSolver shuffle rand1 rand2 pool nTargetValue) = true
  <-> nTargetValue <= sum_value pool.
Proof.
  intros Hperm Hpos. rewrite sum_value_total, (total_Permutation _ _ _ Hperm).
  split.
  - intros Hret. destruct (Z_lt_le_dec (total value (shuffle pool)) nTargetValue) as [Hlt|];
      [| done].
    rewrite KnapsackSolver_unfunded in Hret; [discriminate | | done].
    intros c Hc. apply Hpos. by rewrite Hperm.
  - intros Hge.
    destruct (ret (KnapsackSolver shuffle rand1 rand2 pool nTargetValue)) eqn:Hret; [done |].
    apply KnapsackSolver_fails in Hret. lia.
Qed.

(** With sums in [Z]: when no coin of the pool is worth exactly
    [nTargetValue], the coins worth less than [nTargetValue + MIN_CHANGE] do not
    add up to [nTargetValue], and some coin is worth at least
    [nTargetValue + MIN_CHANGE], [KnapsackSolver] succeeds with a single coin: one
    of least value among the coins worth at least [nTargetValue + MIN_CHANGE]. *)
Lemma KnapsackSolver_lowest_larger shuffle rand1 rand2 pool nTargetValue big :
  Permutation pool (shuffle pool) ->
  (forall c, c ∈ pool -> nValue (txout c) <> nTargetValue) ->
  sum_value (filter (lesser nTargetValue) pool) < nTargetValue ->
  big ∈ pool ->
  nTargetValue + MIN_CHANGE <= nValue (txout big) ->
  exists c,
    c ∈ pool
    /\ nTargetValue + MIN_CHANGE <= nValue (txout c)
    /\ (forall c', c' ∈ pool -> nTargetValue + MIN_CHANGE <= nValue (txout c') ->
                   nValue (txout c) <= nValue (txout c'))
    /\ ret (KnapsackSolver shuffle rand1 rand2 pool nTargetValue) = true
    /\ out_set (KnapsackSolver shuffle rand1 rand2 pool nTargetValue) = [c]
    /\ value_ret (KnapsackSolver shuffle rand1 rand2 pool nTargetValue) = nValue (txout c).
Proof.
  intros Hperm Hne Hsum Hbig Hbigv. rewrite sum_value_total in Hsum.
  assert (forall c, c ∈ shuffle pool -> value c <> nTargetValue) as Hne'.
  { intros c Hc. apply Hne. by rewrite Hperm. }
  unfold KnapsackSolver.
  destruct (prescan_no_exact _ _ Hne' [] 0 None) as (larger & -> & Hlow).
  cbn [app].
  assert (total value (filter (lesser nTargetValue) (shuffle pool))
          = total value (filter (lesser nTargetValue) pool)) as ->.
  { apply total_Permutation. by rewrite <- Hperm. }
  destruct (Z.eqb_spec (0 + total value (filter (lesser nTargetValue) pool)) nTargetValue);
    [lia |].
  destruct (Z.ltb_spec (0 + total value (filter (lesser nTargetValue) pool)) nTargetValue);
    [| lia].
  destruct larger as [c|]; cbn in Hlow.
  - destruct Hlow as ([[=] | [Hc Hnl]] & Hmin & _).
    exists c. cbn [ret out_set value_ret]. unfold lesser, value in *.
    split; [by rewrite Hperm |]. split; [lia |]. split.
    + intros c' Hc' Hv'. apply Hmin; [by rewrite <- Hperm | lia].
    + split; [done |]. split; [done | lia].
  - destruct Hlow as [_ Hall]. rewrite Hperm in Hbig.
    specialize (Hall big Hbig). unfold lesser, value in Hall. lia.
Qed.

End KnapsackMore.

(** ** Branch and bound: the lookahead, the sort and the assertion *)

Module BnBMore.
Import CoinSelection CoinSpec CoinFacts BnBFacts CoinExtraSpec KnapsackMore.
Local Open Scope Z_scope.

(** *** The sort leaves the pool in descending order *)

Lemma insert_descending_sorted c l :
  descending_order l -> descending_order (insert_descending c l).
Proof.
  unfold descending_order. induction 1 as [|x r Hr IH Hx]; simpl.
  - constructor; constructor.
  - unfold descending. destruct (Z.ltb_spec (effective_value x) (effective_value c)).
    + constructor; [by constructor |]. constructor; [lia |].
      eapply Forall_impl; [exact Hx |]. intros y Hy. simpl in Hy. lia.
    + constructor; [done |].
      rewrite insert_descending_Permutation. constructor; [lia | done].
Qed.

Lemma sort_descending_sorted l : descending_order (sort_descending l).
Proof.
  unfold sort_descending.
  enough (forall acc, descending_order acc ->
            descending_order (fold_left (fun acc c => insert_descending c acc) l acc)) as H.
  { apply H. constructor. }
  induction l as [|c l IH]; intros acc Hacc; simpl; [done |].
  apply IH. by apply insert_descending_sorted.
Qed.

(** In a pool in descending order, the coins from a coin of non-positive
    effective value on are worth nothing in total. *)
Lemma descending_order_tail_nonpos l (k : nat) u :
  descending_order l -> l !! k = Some u -> effective_value u <= 0 ->
  total effective_value (drop k l) <= 0.
Proof.
  intros Hs. revert k. induction Hs as [|x r Hr IH Hx]; intros k Hk Hu; [done |].
  destruct k as [|k]; simpl in Hk.
  - injection Hk as ->. rewrite drop_0, total_cons.
    enough (total effective_value r <= 0) by lia.
    clear IH Hr. induction Hx as [|y r Hy Hx IH]; [done |].
    rewrite total_cons. lia.
  - simpl. by apply IH.
Qed.

(** *** Indexing within bounds *)

Lemma at_in_range {A} (v : list A) (i : Z) :
  0 <= i < Z.of_nat (length v) ->
  exists x, at_ v i = Ok x /\ v !! Z.to_nat i = Some x.
Proof.
  intros Hi. destruct (lookup_lt_is_Some_2 v (Z.to_nat i)) as [x Hx]; [lia |].
  exists x. split; [| done]. unfold at_.
  destruct (Z.ltb_spec i 0); [lia |]. by rewrite Hx.
Qed.

Lemma walk_back_total pool (sel : list bool) k avail :
  (k <= length sel)%nat -> (k <= length pool)%nat ->
  exists d avail', walk_back pool sel k avail = Ok (d, avail').
Proof.
  revert avail. induction k as [|k IH]; intros avail Hs Hp; cbn [walk_back];
    [by eexists _, _ |].
  destruct (at_in_range sel (Z.of_nat k)) as (b & -> & _); [lia |]. cbn [bind].
  destruct b; [by eexists _, _ |].
  destruct (at_in_range pool (Z.of_nat k)) as (u & -> & _); [lia |]. cbn [bind].
  apply IH; lia.
Qed.

(** The walk gives back to the lookahead the coins it steps over. *)
Lemma walk_back_lookahead pool (sel : list bool) k avail d avail' :
  walk_back pool sel k avail = Ok (d, avail') ->
  avail' = avail + total effective_value (drop (Z.to_nat (d + 1)) pool)
           - total effective_value (drop k pool).
Proof.
  revert avail. induction k as [|k IH]; intros avail; cbn [walk_back].
  - intros [= <- <-]. change (Z.to_nat (-1 + 1)) with 0%nat. lia.
  - intros H. apply bind_Ok in H as (b & Hb & H). destruct b.
    + injection H as <- <-. replace (Z.to_nat (Z.of_nat k + 1)) with (S k) by lia. lia.
    + apply bind_Ok in H as (u & Hu & H). apply at_Ok in Hu as [_ Hu].
      rewrite Nat2Z.id in Hu. apply IH in H.
      rewrite (drop_S _ _ _ Hu), total_cons in H. lia.
Qed.

(** *** The output set *)



Lemma fold_set_insert_nonempty l s :
  s <> [] \/ l <> [] -> fold_left set_insert l s <> [].
Proof.
  revert s. induction l as [|c l IH]; intros s; simpl; [by intros [H | H] |].
  intros _. apply IH. left. unfold set_insert.
  destruct (set_contains s c) eqn:E.
  - destruct s; [discriminate | done].
  - by destruct s.
Qed.


Section SearchMore.
Variable pool : list CInputCoin.
Variables actual_target cost_of_change : CAmount.

#[local] Abbreviation inv := (bnb_inv pool actual_target cost_of_change).
#[local] Abbreviation more := (bnb_more pool).
#[local] Abbreviation iter := (bnb_iter pool actual_target cost_of_change).
#[local] Abbreviation loop := (bnb_loop pool actual_target cost_of_change).

Lemma flagged_positive_insert_false (flags : list bool) (i : nat) :
  flagged_positive pool flags -> flagged_positive pool (<[i:=false]> flags).
Proof.
  intros H j Hj. apply H. destruct (decide (i = j)) as [<- | Hne].
  - unfold flag in Hj. destruct (<[i:=false]> flags !! i) as [b|] eqn:E; [| done].
    apply list_lookup_insert_Some in E as [(_ & <- & _) | [? _]]; done.
  - by rewrite flag_insert_ne in Hj.
Qed.

Lemma flagged_positive_insert_true (flags : list bool) (i : nat) u :
  pool !! i = Some u -> 0 < effective_value u ->
  flagged_positive pool flags -> flagged_positive pool (<[i:=true]> flags).
Proof.
  intros Hu Hpos H j Hj. destruct (decide (i = j)) as [<- | Hne]; [eauto |].
  apply H. by rewrite flag_insert_ne in Hj.
Qed.

Lemma record_solution_more st :
  inv st -> more st -> more (record_solution actual_target st).
Proof.
  intros [Hlen _ _ _ _] [Hl Hc Hb Hn]. unfold record_solution.
  destruct (_ <=? _); [| by constructor].
  constructor; cbn; [done | done | done | lia].
Qed.

Lemma backtrack_step_more st ctl st' :
  inv st -> more st -> backtrack_step pool st = Ok (ctl, st') ->
  best_selection st' = best_selection st /\ (ctl = Continue -> more st').
Proof.
  intros [Hlen Hdepth Hbeyond Hvalue Hbest] [Hl Hc Hb Hn]. unfold backtrack_step. intros H.
  apply bind_Ok in H as ([d avail] & Hw & H).
  pose proof (walk_back_lookahead _ _ _ _ _ _ Hw) as Havail.
  apply walk_back_Ok in Hw as [Hd _]. rewrite Z2Nat.id in Hd by lia.
  destruct (Z.ltb_spec d 0).
  { injection H as <- <-. split; [done | discriminate]. }
  destruct Hd as [-> | [Hd Hsel]]; [lia |].
  apply bind_Ok in H as (b & _ & H).
  apply bind_Ok in H as (u & Hu & H).
  injection H as <- <-. split; [done |]. intros _.
  constructor; cbn.
  - rewrite Havail, Hl. lia.
  - by apply flagged_positive_insert_false.
  - done.
  - done.
Qed.

Lemma forward_step_more st ctl st' :
  inv st -> more st -> forward_step pool st = Ok (ctl, st') ->
  best_selection st' = best_selection st /\ more st'.
Proof.
  intros [Hlen Hdepth Hbeyond Hvalue Hbest] [Hl Hc Hb Hn]. unfold forward_step. intros H.
  apply bind_Ok in H as (u & Hu & H). apply at_Ok in Hu as [_ Hu].
  destruct (Z.ltb_spec 0 (effective_value u)) as [Hpos|]; [| discriminate].
  cbn [negb] in H.
  apply bind_Ok in H as (skip & _ & H).
  apply bind_Ok in H as (b & _ & H).
  assert (curr_available_value st - effective_value u
          = total effective_value (drop (Z.to_nat (depth st + 1)) pool)) as Hnext.
  { replace (Z.to_nat (depth st + 1)) with (S (Z.to_nat (depth st))) by lia.
    rewrite Hl, (drop_S _ _ _ Hu), total_cons. lia. }
  destruct skip; injection H as <- <-; (split; [done |]); constructor; cbn;
    try done.
  - by apply flagged_positive_insert_false.
  - by eapply flagged_positive_insert_true.
Qed.

(** One turn of the loop: the best selection keeps flagging coins of
    positive effective value, and the lookahead is right again unless the loop
    is left. *)
Lemma bnb_iter_more st ctl st' :
  inv st -> more st -> iter st = Ok (ctl, st') ->
  flagged_positive pool (best_selection st')
  /\ (length (best_selection st') <= length pool)%nat
  /\ (ctl = Continue -> more st').
Proof.
  intros Hinv Hmore. unfold bnb_iter. intros H.
  apply bind_Ok in H as (b & Hb & H).
  destruct b.
  - apply (backtrack_step_more _ _ _ Hinv Hmore) in H as [-> Hc].
    split; [apply Hmore |]. split; [apply Hmore | done].
  - destruct (Z.leb_spec actual_target (curr_value st)) as [Ht|Ht].
    + pose proof (record_solution_inv _ _ _ st Hb Ht Hinv) as Hinv'.
      pose proof (record_solution_more st Hinv Hmore) as Hmore'.
      apply (backtrack_step_more _ _ _ Hinv' Hmore') in H as [-> Hc].
      split; [apply Hmore' |]. split; [apply Hmore' | done].
    + apply (forward_step_more _ _ _ Hinv Hmore) in H as [_ Hmore'].
      split; [apply Hmore' |]. split; [apply Hmore' | done].
Qed.

Lemma bnb_loop_more tries st st' :
  inv st -> more st -> loop tries st = Ok st' ->
  flagged_positive pool (best_selection st')
  /\ (length (best_selection st') <= length pool)%nat.
Proof.
  revert st. induction tries as [|tries IH]; intros st Hinv Hmore; cbn [bnb_loop].
  - intros [= <-]. split; apply Hmore.
  - intros H. apply bind_Ok in H as ([ctl st1] & Hiter & H).
    pose proof (bnb_iter_inv _ _ _ _ _ _ Hinv Hiter) as [_ Hc].
    pose proof (bnb_iter_more _ _ _ Hinv Hmore Hiter) as (Hp & Hn & Hc').
    destruct ctl.
    + eapply IH; [by apply Hc | by apply Hc' | exact H].
    + by injection H as <-.
Qed.

Lemma bnb_initial_more MAX_MONEY :
  more (bnb_initial MAX_MONEY pool (total effective_value pool)).
Proof.
  assert (forall k, flagged_positive pool (replicate k false)) as Hrep.
  { intros k i Hi. unfold flag in Hi.
    destruct (replicate k false !! i) as [b|] eqn:E; [| done].
    apply lookup_replicate in E as [-> _]. done. }
  constructor; cbn.
  - by rewrite drop_0.
  - apply Hrep.
  - apply (Hrep 0%nat).
  - lia.
Qed.

(** *** Every turn of the loop is defined *)

Lemma backtrack_step_progress st :
  inv st -> exists ctl st', backtrack_step pool st = Ok (ctl, st').
Proof.
  intros [Hlen Hdepth Hbeyond Hvalue Hbest]. unfold backtrack_step.
  destruct (walk_back_total pool (curr_selection st) (Z.to_nat (depth st))
              (curr_available_value st)) as (d & avail & Hw); [lia | lia |].
  rewrite Hw. cbn [bind].
  apply walk_back_Ok in Hw as [Hd _]. rewrite Z2Nat.id in Hd by lia.
  destruct (Z.ltb_spec d 0); [by eexists _, _ |].
  destruct Hd as [-> | [Hd _]]; [lia |].
  destruct (at_in_range (curr_selection st) d) as (b & -> & _); [lia |].
  destruct (at_in_range pool d) as (u & -> & _); [lia |].
  cbn [bind]. by eexists _, _.
Qed.

Lemma forward_step_progress st u :
  inv st -> pool !! Z.to_nat (depth st) = Some u -> 0 < effective_value u ->
  exists ctl st', forward_step pool st = Ok (ctl, st').
Proof.
  intros [Hlen Hdepth Hbeyond Hvalue Hbest] Hu Hpos. unfold forward_step.
  pose proof (lookup_lt_Some _ _ _ Hu) as Hlt.
  destruct (at_in_range pool (depth st)) as (u' & -> & Hu'); [lia |].
  assert (u' = u) as -> by congruence. cbn [bind].
  destruct (Z.ltb_spec 0 (effective_value u)); [| lia]. cbn [negb].
  assert (exists skip, equivalent_to_omitted pool st u = Ok skip) as [skip ->].
  { unfold equivalent_to_omitted. destruct (Z.ltb_spec 0 (depth st)); [| by eexists].
    destruct (at_in_range (curr_selection st) (depth st - 1)) as (b & -> & _); [lia |].
    cbn [bind]. destruct (negb b); [| by eexists].
    destruct (at_in_range pool (depth st - 1)) as (prev & -> & _); [lia |].
    cbn [bind]. by eexists. }
  cbn [bind].
  destruct (at_in_range (curr_selection st) (depth st)) as (b & -> & _); [lia |].
  cbn [bind]. destruct skip; by eexists _, _.
Qed.

Lemma bnb_iter_progress st :
  descending_order pool -> pool <> [] -> inv st -> more st ->
  exists ctl st', iter st = Ok (ctl, st').
Proof.
  intros Hsorted Hne Hinv Hmore. unfold bnb_iter.
  destruct (must_backtrack pool actual_target cost_of_change st) as [b|e] eqn:Hb.
  2:{ exfalso. unfold must_backtrack in Hb.
      destruct (_ || _); [discriminate |]. destruct (_ <? _); [| discriminate].
      destruct pool as [|u0 pool']; [done |]. discriminate. }
  cbn [bind]. destruct b; [by apply backtrack_step_progress |].
  destruct (Z.leb_spec actual_target (curr_value st)) as [Ht|Ht].
  { apply backtrack_step_progress. by apply record_solution_inv. }
  assert (0 < total effective_value (drop (Z.to_nat (depth st)) pool)) as Havail.
  { rewrite <- (more_lookahead _ _ Hmore). unfold must_backtrack in Hb.
    destruct (Z.ltb_spec (curr_value st + curr_available_value st) actual_target);
      [discriminate | lia]. }
  destruct (pool !! Z.to_nat (depth st)) as [u|] eqn:Hu.
  - apply (forward_step_progress st u Hinv Hu).
    destruct (Z_lt_le_dec 0 (effective_value u)) as [| Hle]; [done |].
    pose proof (descending_order_tail_nonpos _ _ _ Hsorted Hu Hle). lia.
  - apply lookup_ge_None in Hu. rewrite drop_ge in Havail by done.
    cbn in Havail. lia.
Qed.

Lemma bnb_loop_progress tries st :
  descending_order pool -> pool <> [] -> inv st -> more st ->
  exists st', loop tries st = Ok st'.
Proof.
  intros Hsorted Hne. revert st.
  induction tries as [|tries IH]; intros st Hinv Hmore; cbn [bnb_loop]; [by eexists |].
  destruct (bnb_iter_progress st Hsorted Hne Hinv Hmore) as (ctl & st1 & Hiter).
  rewrite Hiter. cbn [bind].
  destruct ctl; [| by eexists].
  pose proof (bnb_iter_inv _ _ _ _ _ _ Hinv Hiter) as [_ Hc].
  pose proof (bnb_iter_more _ _ _ Hinv Hmore Hiter) as (_ & _ & Hc').
  apply IH; auto.
Qed.

Lemma emit_progress (best : list bool) (k : nat) out v :
  (k + length best <= length pool)%nat ->
  exists r, emit pool best (Z.of_nat k) out v = Ok r.
Proof.
  revert k out v. induction best as [|b best IH]; intros k out v Hk; cbn [emit];
    [by eexists |].
  cbn [length] in Hk.
  replace (Z.of_nat k + 1) with (Z.of_nat (S k)) by lia.
  destruct b; [| apply IH; lia].
  destruct (at_in_range pool (Z.of_nat k)) as (u & -> & _); [lia |].
  cbn [bind]. apply IH. lia.
Qed.

End SearchMore.

(** On an empty pool the first turn of the loop leaves it. *)
Lemma backtrack_step_nil st :
  depth st = 0 -> exists st', backtrack_step [] st = Ok (Break, st').
Proof. intros Hd. unfold backtrack_step. rewrite Hd. cbn. by eexists. Qed.

Lemma bnb_loop_nil MAX_MONEY actual_target cost_of_change tries :
  0 <= MAX_MONEY ->
  exists st', bnb_loop [] actual_target cost_of_change tries (bnb_initial MAX_MONEY [] 0)
              = Ok st'.
Proof.
  intros HM. destruct tries as [|tries]; [by eexists |].
  cbn [bnb_loop]. unfold bnb_iter.
  set (st := bnb_initial MAX_MONEY [] 0).
  assert (exists b, must_backtrack [] actual_target cost_of_change st = Ok b
                    /\ (b = false -> actual_target <= 0)) as (b & -> & Hb).
  { unfold must_backtrack, st, bnb_initial.
    cbn [length replicate curr_value curr_available_value curr_waste best_waste].
    destruct (Z.ltb_spec (0 + 0) actual_target); cbn [orb]; [by exists true |].
    destruct (_ <? 0); [by exists true |].
    destruct (Z.ltb_spec MAX_MONEY 0); [lia |]. exists false. split; [done | lia]. }
  cbn [bind]. destruct b.
  - destruct (backtrack_step_nil st eq_refl) as [st' ->]. cbn [bind]. by eexists.
  - change (curr_value st) with 0.
    destruct (Z.leb_spec actual_target 0); [| by specialize (Hb eq_refl); lia].
    destruct (backtrack_step_nil (record_solution actual_target st)) as [st' ->].
    + unfold record_solution. by destruct (_ <=? _).
    + cbn [bind]. by eexists.
Qed.

(** The search on the sorted pool is defined, whatever the pool. *)
Lemma bnb_search_returns MAX_MONEY pool actual_target cost_of_change tries :
  0 <= MAX_MONEY ->
  exists st,
    bnb_loop (sort_descending pool) actual_target cost_of_change tries
      (bnb_initial MAX_MONEY (sort_descending pool) (sum_effective pool)) = Ok st.
Proof.
  intros HM. destruct pool as [|u0 pool'].
  - change (sort_descending []) with (@nil CInputCoin).
    change (sum_effective []) with 0. by apply bnb_loop_nil.
  - apply bnb_loop_progress.
    + apply sort_descending_sorted.
    + intros Hnil. pose proof (sort_descending_Permutation (u0 :: pool')) as Hp.
      rewrite Hnil in Hp. by apply Permutation_nil_cons in Hp.
    + apply bnb_initial_inv.
    + rewrite sum_effective_total,
        <- (total_Permutation _ _ _ (sort_descending_Permutation (u0 :: pool'))).
      apply bnb_initial_more.
Qed.

(** What the search leaves in [best_selection]. *)
Lemma bnb_search_best MAX_MONEY pool actual_target cost_of_change tries st :
  bnb_loop (sort_descending pool) actual_target cost_of_change tries
    (bnb_initial MAX_MONEY (sort_descending pool) (sum_effective pool)) = Ok st ->
  flagged_positive (sort_descending pool) (best_selection st)
  /\ (length (best_selection st) <= length (sort_descending pool))%nat
  /\ (best_selection st <> [] ->
      in_range (sort_descending pool) actual_target cost_of_change (best_selection st)).
Proof.
  intros Hloop.
  assert (bnb_more (sort_descending pool)
            (bnb_initial MAX_MONEY (sort_descending pool) (sum_effective pool))) as Hmore.
  { rewrite sum_effective_total,
      <- (total_Permutation _ _ _ (sort_descending_Permutation pool)).
    apply bnb_initial_more. }
  pose proof (bnb_initial_inv (sort_descending pool) actual_target cost_of_change
                MAX_MONEY (sum_effective pool)) as Hinv.
  destruct (bnb_loop_more _ _ _ _ _ _ Hinv Hmore Hloop) as [Hpos Hlen].
  split; [done |]. split; [done |].
  by eapply bnb_loop_best.
Qed.

(** With sums in [Z] and a non-negative [MAX_MONEY], no call ends in an
    exception of [vector::at] or in the failure of
    [assert(utxo_pool.at(depth).effective_value > 0)]: in a pool sorted by
    descending effective value, the lookahead stops the search before it
    steps onto a coin of non-positive effective value or past the last
    coin. *)
Lemma SelectCoinsBnB_total MAX_MONEY utxo_pool target_value cost_of_change
    value_ret_in not_input_fees :
  0 <= MAX_MONEY ->
  exists r,
    SelectCoinsBnB MAX_MONEY utxo_pool target_value cost_of_change value_ret_in
      not_input_fees = Ok r.
Proof.
  intros HM. unfold SelectCoinsBnB.
  destruct (_ <? _); [by eexists |].
  destruct (bnb_search_returns MAX_MONEY utxo_pool (not_input_fees + target_value)
              cost_of_change (N.to_nat TOTAL_TRIES) HM) as [st Hloop].
  rewrite Hloop. cbn [bind].
  destruct (is_empty _); [by eexists |].
  destruct (bnb_search_best _ _ _ _ _ _ Hloop) as (_ & Hlen & _).
  destruct (emit_progress (sort_descending utxo_pool) (best_selection st) 0 [] 0)
    as [[out v] Hemit]; [simpl; lia |].
  change (Z.of_nat 0) with 0 in Hemit. rewrite Hemit. cbn [bind]. by eexists.
Qed.


(** With sums in [Z]: [utxo_pool] holds the same coins afterwards; it is
    untouched when the pool cannot pay the target, and sorted by descending
    effective value otherwise.  On failure [value_ret] keeps the value it had
    on entry. *)
Lemma SelectCoinsBnB_side_effects MAX_MONEY utxo_pool target_value cost_of_change
    value_ret_in not_input_fees r :
  SelectCoinsBnB MAX_MONEY utxo_pool target_value cost_of_change value_ret_in
    not_input_fees = Ok r ->
  Permutation (pool_after r) utxo_pool
  /\ (sum_effective utxo_pool < not_input_fees + target_value ->
      pool_after r = utxo_pool)
  /\ (not_input_fees + target_value <= sum_effective utxo_pool ->
      descending_order (pool_after r))
  /\ (ret r = false -> value_ret r = value_ret_in).
Proof.
  unfold SelectCoinsBnB. intros H.
  destruct (Z.ltb_spec (sum_effective utxo_pool) (not_input_fees + target_value)).
  - injection H as <-. cbn [pool_after ret value_ret].
    split; [done |]. split; [done |]. split; [lia | done].
  - apply bind_Ok in H as (st & _ & H).
    assert (pool_after r = sort_descending utxo_pool
            /\ (ret r = false -> value_ret r = value_ret_in)) as [-> Hv].
    { destruct (is_empty _); [by injection H as <- |].
      apply bind_Ok in H as ([out v] & _ & H). injection H as <-.
      split; [done | discriminate]. }
    split; [apply sort_descending_Permutation |]. split; [lia |].
    split; [intros _; apply sort_descending_sorted | done].
Qed.

(** With sums in [Z]: [SelectCoinsBnB] only succeeds on a pool that is not
    empty and whose effective values add up to the target
    [not_input_fees + target_value] at least, and with a change window
    [cost_of_change] that is not negative; when the target is positive,
    [out_set] is not empty. *)
Lemma SelectCoinsBnB_success_conditions MAX_MONEY utxo_pool target_value cost_of_change
    value_ret_in not_input_fees r :
  SelectCoinsBnB MAX_MONEY utxo_pool target_value cost_of_change value_ret_in
    not_input_fees = Ok r ->
  ret r = true ->
  utxo_pool <> []
  /\ not_input_fees + target_value <= sum_effective utxo_pool
  /\ 0 <= cost_of_change
  /\ (0 < not_input_fees + target_value -> out_set r <> []).
Proof.
  unfold SelectCoinsBnB. intros H Hret.
  destruct (Z.ltb_spec (sum_effective utxo_pool) (not_input_fees + target_value));
    [injection H as <-; discriminate |].
  apply bind_Ok in H as (st & Hloop & H).
  destruct (is_empty (best_selection st)) eqn:Hbest;
    [injection H as <-; discriminate |].
  apply bind_Ok in H as ([out v] & Hemit & H). injection H as <-.
  apply (emit_Ok _ _ 0) in Hemit as [-> _]. rewrite drop_0. cbn [out_set].
  destruct (bnb_search_best _ _ _ _ _ _ Hloop) as (_ & Hlen & Hrange).
  assert (best_selection st <> []) as Hne by (by destruct (best_selection st)).
  specialize (Hrange Hne). unfold in_range in Hrange.
  split; [| split; [done |]; split; [lia |]].
  - intros ->. change (sort_descending []) with (@nil CInputCoin) in Hlen.
    destruct (best_selection st); [done | simpl in Hlen; lia].
  - intros Hpos. apply fold_set_insert_nonempty. right.
    intros Hnil. rewrite Hnil in Hrange. cbn in Hrange. lia.
Qed.

End BnBMore.

(** ** Knapsack: which coins are chosen *)

Module KnapsackChoice.
Import CoinSelection CoinSpec CoinFacts KnapsackFacts CoinExtraSpec KnapsackMore BnBMore.
Local Open Scope Z_scope.



(** With sums in [Z]: when no coin is worth exactly [nTargetValue] and the
    coins worth less than [nTargetValue + MIN_CHANGE] add up to [nTargetValue],
    [KnapsackSolver] succeeds with these coins and no other; [out_set] lists
    them in the order of the shuffled pool, for a pool of pairwise distinct
    outpoints. *)
Lemma KnapsackSolver_all_lesser shuffle rand1 rand2 utxo_pool nTargetValue :
  Permutation utxo_pool (shuffle utxo_pool) ->
  distinct_outpoints utxo_pool ->
  (forall c, c ∈ utxo_pool -> nValue (txout c) <> nTargetValue) ->
  sum_value (filter (lesser nTargetValue) utxo_pool) = nTargetValue ->
  ret (KnapsackSolver shuffle rand1 rand2 utxo_pool nTargetValue) = true
  /\ out_set (KnapsackSolver shuffle rand1 rand2 utxo_pool nTargetValue)
     = filter (lesser nTargetValue) (shuffle utxo_pool)
  /\ value_ret (KnapsackSolver shuffle rand1 rand2 utxo_pool nTargetValue) = nTargetValue.
Proof.
  intros Hperm Hdistinct Hne Hsum. rewrite sum_value_total in Hsum.
  assert (forall c, c ∈ shuffle utxo_pool -> value c <> nTargetValue) as Hne'.
  { intros c Hc. apply Hne. by rewrite Hperm. }
  assert (total value (filter (lesser nTargetValue) (shuffle utxo_pool)) = nTargetValue)
    as Hsum'.
  { etrans; [| exact Hsum]. apply total_Permutation. by rewrite <- Hperm. }
  unfold KnapsackSolver.
  destruct (prescan_no_exact _ _ Hne' [] 0 None) as (larger & -> & _).
  cbn [app]. rewrite Hsum'.
  destruct (Z.eqb_spec (0 + nTargetValue) nTargetValue); [| lia].
  rewrite insert_all_spec. cbn [ret out_set value_ret fst snd].
  split; [done |]. split; [| lia].
  apply (fold_set_insert_distinct _ []). cbn [app].
  eapply distinct_outpoints_sublist; [apply sublist_filter |].
  by eapply distinct_outpoints_Permutation.
Qed.

(** With sums in [Z]: when the pool is worth [nTargetValue + MIN_CHANGE] at
    least, [KnapsackSolver] succeeds and [value_ret] is either exactly
    [nTargetValue] or at least [nTargetValue + MIN_CHANGE]. *)
Lemma KnapsackSolver_change shuffle rand1 rand2 utxo_pool nTargetValue :
  Permutation utxo_pool (shuffle utxo_pool) ->
  nTargetValue + MIN_CHANGE <= sum_value utxo_pool ->
  ret (KnapsackSolver shuffle rand1 rand2 utxo_pool nTargetValue) = true
  /\ (value_ret (KnapsackSolver shuffle rand1 rand2 utxo_pool nTargetValue) = nTargetValue
      \/ nTargetValue + MIN_CHANGE
         <= value_ret (KnapsackSolver shuffle rand1 rand2 utxo_pool nTargetValue)).
Proof.
  intros Hperm Hsum.
  rewrite sum_value_total, (total_Permutation _ _ _ Hperm) in Hsum.
  assert (0 < MIN_CHANGE) as Hmin by done.
  unfold KnapsackSolver.
  destruct (prescan (shuffle utxo_pool) nTargetValue [] 0 None)
    as [coin | [[vValue nTotalLower] larger]] eqn:Hpre.
  { apply prescan_exact in Hpre as [_ Hv]. unfold value in Hv.
    cbn [ret value_ret]. split; [done |]. left. lia. }
  pose proof (prescan_inr_no_exact _ _ _ _ _ _ Hpre) as Hne.
  destruct (prescan_no_exact _ _ Hne [] 0 None) as (larger' & Hpre' & Hlow).
  rewrite Hpre' in Hpre. injection Hpre as <- <- <-. cbn [app].
  set (lesser_coins := filter (lesser nTargetValue) (shuffle utxo_pool)).
  set (nTotalLower := 0 + total value lesser_coins).
  assert (forall c, larger' = Some c -> nTargetValue + MIN_CHANGE <= nValue (txout c))
    as Hbig.
  { intros c ->. destruct Hlow as ([[=] | [_ Hnl]] & _).
    unfold lesser, value in Hnl. lia. }
  assert (larger' = None -> nTargetValue + MIN_CHANGE <= nTotalLower) as Hnone.
  { intros ->. destruct Hlow as [_ Hall]. subst nTotalLower lesser_coins.
    rewrite (filter_all _ _ Hall). lia. }
  destruct (Z.eqb_spec nTotalLower nTargetValue) as [Heq|Hneq].
  { rewrite insert_all_spec. cbn [ret value_ret snd]. split; [done |]. left.
    subst nTotalLower. lia. }
  destruct (Z.ltb_spec nTotalLower nTargetValue) as [Hlt|Hge].
  { destruct larger' as [c|].
    - cbn [ret value_ret]. split; [done |]. right. specialize (Hbig c eq_refl). lia.
    - specialize (Hnone eq_refl). lia. }
  assert (total value (sort_descending lesser_coins) = nTotalLower) as Hsorted.
  { subst nTotalLower. rewrite (total_Permutation _ _ _ (sort_descending_Permutation _)).
    lia. }
  set (best1 := ApproximateBestSubset (sort_descending lesser_coins) nTargetValue rand1
                  nTotalLower 1000).
  assert (best_ok (sort_descending lesser_coins) nTargetValue best1) as Hbest1.
  { apply ApproximateBestSubset_best; [done | lia]. }
  set (best := if negb (fst best1 =? nTargetValue)
                  && (nTargetValue + MIN_CHANGE <=? nTotalLower)
               then ApproximateBestSubset (sort_descending lesser_coins)
                      (nTargetValue + MIN_CHANGE) rand2 nTotalLower 1000
               else best1).
  assert (total value (selected (sort_descending lesser_coins) (snd best)) = fst best
          /\ (larger' = None -> fst best = nTargetValue
                                \/ nTargetValue + MIN_CHANGE <= fst best)) as [Hval Hbest].
  { subst best. destruct (Z.eqb_spec (fst best1) nTargetValue) as [E|E]; cbn [negb andb].
    - split; [apply Hbest1 |]. by left.
    - destruct (Z.leb_spec (nTargetValue + MIN_CHANGE) nTotalLower) as [Hle|Hgt].
      + destruct (ApproximateBestSubset_best (sort_descending lesser_coins)
                    (nTargetValue + MIN_CHANGE) rand2 nTotalLower 1000 Hsorted Hle)
          as [Hv Hb].
        split; [done |]. intros _. by right.
      + split; [apply Hbest1 |]. intros Hn. specialize (Hnone Hn). lia. }
  cbn zeta. destruct larger' as [c|].
  - specialize (Hbig c eq_refl).
    destruct (Z.eqb_spec (fst best) nTargetValue) as [E|E]; cbn [negb andb orb].
    + destruct (Z.leb_spec (nValue (txout c)) (fst best)); cbn [ret value_ret].
      * split; [done |]. right. lia.
      * rewrite insert_all_spec. cbn [snd]. split; [done |]. left. lia.
    + destruct (Z.ltb_spec (fst best) (nTargetValue + MIN_CHANGE)); cbn [orb].
      * cbn [ret value_ret]. split; [done |]. right. lia.
      * destruct (Z.leb_spec (nValue (txout c)) (fst best)); cbn [ret value_ret].
        -- split; [done |]. right. lia.
        -- rewrite insert_all_spec. cbn [snd]. split; [done |]. right. lia.
  - rewrite insert_all_spec. cbn [ret value_ret snd]. split; [done |].
    destruct (Hbest eq_refl); [left | right]; lia.
Qed.

End KnapsackChoice.

(** ** The further statements, at concrete pools *)

Module CoinMoreWitnesses.
Import CoinSelection CoinSpec CoinSample CoinExtraSpec CoinExtraSample.
Local Open Scope Z_scope.



End CoinMoreWitnesses.

(** * Further properties of the PSBT codec *)

Module PSBTMore.
Import StdMap PSBT PSBTSpec PSBTFacts PSBTExtraSpec.
Local Open Scope N_scope.

Section Records.
Context {P : Primitives}.

(** One turn of the loop on a record: the key and the value length are read,
    and the first key byte selects the case. *)
Lemma step_record st (key : bytes) (value_len : N) (s : bytes) :
  key <> [] -> N.of_nat (length key) < 2 ^ 64 -> value_len < 2 ^ 64 ->
  step st (write_vector key ++ WriteCompactSize value_len ++ s)
  = if bool_decide (hd x00 key = PSBT_UNSIGNED_TX_NON_WITNESS_UTXO) then
      case_UNSIGNED_TX_NON_WITNESS_UTXO st s
    else if bool_decide (hd x00 key = PSBT_REDEEMSCRIPT_WITNESS_UTXO) then
      case_REDEEMSCRIPT_WITNESS_UTXO st key value_len s
    else if bool_decide (hd x00 key = PSBT_WITNESSSCRIPT_PARTIAL_SIG) then
      case_WITNESSSCRIPT_PARTIAL_SIG st key value_len s
    else if bool_decide (hd x00 key = PSBT_BIP32_KEYPATH_SIGHASH) then
      case_BIP32_KEYPATH_SIGHASH st key value_len s
    else if bool_decide (hd x00 key = PSBT_NUM_IN_VIN) then
      case_NUM_IN_VIN st key value_len s
    else
      unknown_record st key value_len s.
Proof.
  intros Hne Hk Hv. unfold step.
  rewrite read_write_vector by done. cbn [bind].
  destruct (N.eqb_spec (N.of_nat (length key)) 0) as [E|_].
  { destruct key; [done | simpl in E; lia]. }
  rewrite read_app. cbn [bind].
  rewrite ReadCompactSize_WriteCompactSize by done. done.
Qed.

(** X11 -- [case PSBT_NUM_IN_VIN] has no [break].  A record whose key starts
    with [0x04] is read twice over.  In the globals, the count is read as a
    CompactSize; in an input section that passes the index test, the index is
    read as eight bytes.  In both cases control falls into [default:], which
    reads [value_len] further bytes from the stream and files them as an
    unknown entry under the key of the record. *)
Theorem num_in_vin_falls_through st (k : bytes) (value_len v : N) (s : bytes) :
  N.of_nat (S (length k)) < 2 ^ 64 -> value_len < 2 ^ 64 -> v < 2 ^ 64 ->
  (in_globals st = true ->
   step st (write_vector (PSBT_NUM_IN_VIN :: k) ++ WriteCompactSize value_len
            ++ WriteCompactSize v ++ s)
   = let* (val_bytes, s') := read value_len s in
     Ok (with_psbt st
           (set_unknown (set_num_ins (psbt st) v)
              (emplace (PSBT_NUM_IN_VIN :: k) val_bytes (unknown (psbt st)))),
         s'))
  /\ (in_globals st = false ->
      use_in_index (psbt st) = true \/ separators st = 1 ->
      step st (write_vector (PSBT_NUM_IN_VIN :: k) ++ WriteCompactSize value_len
               ++ N_to_le 8 v ++ s)
      = let* (val_bytes, s') := read value_len s in
        Ok (mkst (set_use_in_index (psbt st) true) (separators st)
                 (Input.set_unknown
                    (Input.set_use_in_index (Input.set_index (input st) v) true)
                    (emplace (PSBT_NUM_IN_VIN :: k) val_bytes
                       (Input.unknown (input st))))
                 false,
            s')).
Proof.
  intros Hk Hvl Hv.
  assert (forall s0,
            step st (write_vector (PSBT_NUM_IN_VIN :: k) ++ WriteCompactSize value_len ++ s0)
            = case_NUM_IN_VIN st (PSBT_NUM_IN_VIN :: k) value_len s0) as Hstep.
  { intros s0. rewrite step_record by done. cbn [hd].
    rewrite (bool_decide_eq_false_2 (_ = PSBT_UNSIGNED_TX_NON_WITNESS_UTXO)) by done.
    rewrite (bool_decide_eq_false_2 (_ = PSBT_REDEEMSCRIPT_WITNESS_UTXO)) by done.
    rewrite (bool_decide_eq_false_2 (_ = PSBT_WITNESSSCRIPT_PARTIAL_SIG)) by done.
    rewrite (bool_decide_eq_false_2 (_ = PSBT_BIP32_KEYPATH_SIGHASH)) by done.
    by rewrite (bool_decide_eq_true_2 (_ = PSBT_NUM_IN_VIN)). }
  split.
  - intros Hg. rewrite Hstep. unfold case_NUM_IN_VIN. rewrite Hg.
    rewrite ReadCompactSize_WriteCompactSize by done. cbn [bind].
    unfold unknown_record. cbn [in_globals with_psbt]. rewrite Hg.
    by destruct (read value_len s) as [[val_bytes s']|e].
  - intros Hg Hidx. rewrite Hstep. unfold case_NUM_IN_VIN. rewrite Hg.
    assert (negb (use_in_index (psbt st)) && negb (separators st =? 1) = false) as ->.
    { destruct Hidx as [-> | ->]; [done |]. by rewrite andb_false_r. }
    unfold read_u64. rewrite read_le_8. cbn [bind].
    rewrite N.mod_small by done.
    unfold unknown_record. cbn [in_globals].
    by destruct (read value_len s) as [[val_bytes s']|e].
Qed.

(** X12 -- key sizes.  The size of a key is checked before its value is
    read: in the globals a [0x01] key must be 21 bytes long, a [0x02] key 33
    and a [0x03] key 34 or 66; in an input section a [0x02] key must be 34 or
    66 bytes long.  Any other size ends the deserialization with
    [BadKeyLength], whatever follows the value length. *)
Theorem key_sizes_are_checked st (k : bytes) (value_len : N) (s : bytes) :
  N.of_nat (S (length k)) < 2 ^ 64 -> value_len < 2 ^ 64 ->
  (in_globals st = true -> length k <> 20%nat ->
   step st (write_vector (PSBT_REDEEMSCRIPT_WITNESS_UTXO :: k)
            ++ WriteCompactSize value_len ++ s)
   = Err (BadKeyLength PSBT_REDEEMSCRIPT_WITNESS_UTXO))
  /\ (in_globals st = true -> length k <> 32%nat ->
      step st (write_vector (PSBT_WITNESSSCRIPT_PARTIAL_SIG :: k)
               ++ WriteCompactSize value_len ++ s)
      = Err (BadKeyLength PSBT_WITNESSSCRIPT_PARTIAL_SIG))
  /\ (in_globals st = true ->
      length k <> COMPRESSED_PUBLIC_KEY_SIZE -> length k <> PUBLIC_KEY_SIZE ->
      step st (write_vector (PSBT_BIP32_KEYPATH_SIGHASH :: k)
               ++ WriteCompactSize value_len ++ s)
      = Err (BadKeyLength PSBT_BIP32_KEYPATH_SIGHASH))
  /\ (in_globals st = false ->
      length k <> COMPRESSED_PUBLIC_KEY_SIZE -> length k <> PUBLIC_KEY_SIZE ->
      step st (write_vector (PSBT_WITNESSSCRIPT_PARTIAL_SIG :: k)
               ++ WriteCompactSize value_len ++ s)
      = Err (BadKeyLength PSBT_WITNESSSCRIPT_PARTIAL_SIG)).
Proof.
  intros Hk Hvl.
  assert (forall n m : nat, n <> m -> bool_decide (S n = S m) = false) as Hsize.
  { intros n m Hnm. apply bool_decide_eq_false_2. lia. }
  split; [| split; [| split]].
  - intros Hg Hlen. rewrite step_record by done. cbn [hd].
    rewrite (bool_decide_eq_false_2 (_ = PSBT_UNSIGNED_TX_NON_WITNESS_UTXO)) by done.
    rewrite (bool_decide_eq_true_2 (_ = PSBT_REDEEMSCRIPT_WITNESS_UTXO)) by done.
    unfold case_REDEEMSCRIPT_WITNESS_UTXO. rewrite Hg. cbn [length].
    by rewrite (Hsize _ 20%nat).
  - intros Hg Hlen. rewrite step_record by done. cbn [hd].
    rewrite (bool_decide_eq_false_2 (_ = PSBT_UNSIGNED_TX_NON_WITNESS_UTXO)) by done.
    rewrite (bool_decide_eq_false_2 (_ = PSBT_REDEEMSCRIPT_WITNESS_UTXO)) by done.
    rewrite (bool_decide_eq_true_2 (_ = PSBT_WITNESSSCRIPT_PARTIAL_SIG)) by done.
    unfold case_WITNESSSCRIPT_PARTIAL_SIG. rewrite Hg. cbn [length].
    by rewrite (Hsize _ 32%nat).
  - intros Hg H33 H65. rewrite step_record by done. cbn [hd].
    rewrite (bool_decide_eq_false_2 (_ = PSBT_UNSIGNED_TX_NON_WITNESS_UTXO)) by done.
    rewrite (bool_decide_eq_false_2 (_ = PSBT_REDEEMSCRIPT_WITNESS_UTXO)) by done.
    rewrite (bool_decide_eq_false_2 (_ = PSBT_WITNESSSCRIPT_PARTIAL_SIG)) by done.
    rewrite (bool_decide_eq_true_2 (_ = PSBT_BIP32_KEYPATH_SIGHASH)) by done.
    unfold case_BIP32_KEYPATH_SIGHASH, pubkey_key_ok. rewrite Hg. cbn [length].
    by rewrite (Hsize _ PUBLIC_KEY_SIZE), (Hsize _ COMPRESSED_PUBLIC_KEY_SIZE).
  - intros Hg H33 H65. rewrite step_record by done. cbn [hd].
    rewrite (bool_decide_eq_false_2 (_ = PSBT_UNSIGNED_TX_NON_WITNESS_UTXO)) by done.
    rewrite (bool_decide_eq_false_2 (_ = PSBT_REDEEMSCRIPT_WITNESS_UTXO)) by done.
    rewrite (bool_decide_eq_true_2 (_ = PSBT_WITNESSSCRIPT_PARTIAL_SIG)) by done.
    unfold case_WITNESSSCRIPT_PARTIAL_SIG, pubkey_key_ok. rewrite Hg. cbn [length].
    by rewrite (Hsize _ PUBLIC_KEY_SIZE), (Hsize _ COMPRESSED_PUBLIC_KEY_SIZE).
Qed.

End Records.

(** ** What the read loop maintains *)

Section Invariants.
Context {P : Primitives}.
Import PSBTInvariants.

(** Case analysis on the conditionals of a successful run, through the
    nested binds. *)
Ltac run H :=
  repeat match type of H with
         | bind _ _ = Ok _ =>
             let a := fresh "a" in
             let Ha := fresh "Ha" in
             apply bind_Ok in H; destruct H as (a & Ha & H);
             try match type of a with
                 | (_ * _)%type => destruct a as [? ?]
                 end;
             run Ha
         | (if ?c then _ else _) = Ok _ => destruct c eqn:?
         | match ?x with _ => _ end = Ok _ => destruct x eqn:?
         | Err _ = Ok _ => discriminate H
         | Ok _ = Ok _ => simplify_eq
         end.

Ltac cases_of_step H :=
  unfold step in H;
  let key_len := fresh "key_len" in
  let s1 := fresh "s1" in
  let H1 := fresh "Hlen" in
  apply bind_Ok in H as ([key_len s1] & H1 & H);
  destruct (key_len =? 0)%N;
  [ let st1 := fresh "st1" in
    let Hsep := fresh "Hsep" in
    apply bind_Ok in H as (st1 & Hsep & H); injection H as <- <-;
    unfold separator in Hsep; run Hsep
  | let key := fresh "key" in
    let s2 := fresh "s2" in
    let value_len := fresh "value_len" in
    let s3 := fresh "s3" in
    apply bind_Ok in H as ([key s2] & _ & H);
    apply bind_Ok in H as ([value_len s3] & _ & H);
    repeat match type of H with
           | (if bool_decide _ then _ else _) = _ => destruct (bool_decide _)
           end;
    unfold case_UNSIGNED_TX_NON_WITNESS_UTXO, case_REDEEMSCRIPT_WITNESS_UTXO,
      case_WITNESSSCRIPT_PARTIAL_SIG, case_BIP32_KEYPATH_SIGHASH, case_NUM_IN_VIN,
      unknown_record in H;
    run H ].

Lemma step_after_globals st s st' s' :
  step st s = Ok (st', s') -> in_globals st = false ->
  in_globals st' = false
  /\ globals_of (psbt st') = globals_of (psbt st)
  /\ (exists more, inputs (psbt st') = inputs (psbt st) ++ more)
  /\ (use_in_index (psbt st) = true -> use_in_index (psbt st') = true).
Proof.
  intros H Hg. cases_of_step H; cbn in *; try congruence;
    (split; [done |]); (split; [done |]);
    (split; [first [by eexists | by exists []; rewrite app_nil_r] | done]).
Qed.

Lemma step_index_flag st s st' s' :
  step st s = Ok (st', s') -> index_flag_inv st -> index_flag_inv st'.
Proof.
  intros H [Hin Hstored]. unfold index_flag_inv.
  cases_of_step H; cbn in *; try done.
  match goal with
  | Hc : negb _ && negb _ = false |- _ =>
      apply andb_false_iff in Hc as [Hc%negb_false_iff | Hc%negb_false_iff]
  end; auto.
Qed.

Lemma step_section_count len st s st' s' :
  N.of_nat len < 2 ^ 32 ->
  step st s = Ok (st', s') -> section_count_inv len st s -> section_count_inv len st' s'.
Proof.
  intros Hlen H [Hbound Hcount]. pose proof (step_consumes _ _ _ _ H) as Hless.
  unfold section_count_inv.
  assert (uint32_wrap (Z.of_N (separators st) + 1) = separators st + 1) as Hnext.
  { unfold uint32_wrap. change (2 ^ 32) with 4294967296 in Hlen.
    change (2 ^ 32)%Z with 4294967296%Z. rewrite Z.mod_small; lia. }
  clear Hlen.
  destruct (in_globals st) eqn:Hg;
    cases_of_step H; cbn in *; rewrite ?Hnext;
    try match goal with Hq : in_globals st = _ |- _ => rewrite Hq end;
    try congruence;
    try match goal with Hc : (0 <? separators st) = _ |- _ =>
          first [apply N.ltb_lt in Hc | apply N.ltb_ge in Hc] end;
    rewrite ?length_app; cbn [length];
    try (split; [lia | first [done | lia]]).
  destruct Hcount as [Hz ->]. cbn [length]. lia.
Qed.

Lemma read_loop_index_flag fuel st s st' :
  read_loop fuel st s = Ok st' -> index_flag_inv st -> index_flag_inv st'.
Proof.
  revert st s. induction fuel as [|fuel IH]; intros st s H Hinv.
  - destruct s; [injection H as <-; done | discriminate].
  - destruct s as [|b s]; [injection H as <-; done |].
    cbn [read_loop] in H. apply bind_Ok in H as ([st1 s1] & Hstep & H).
    eauto using step_index_flag.
Qed.

Lemma reaches_section_count len st s st' s' :
  N.of_nat len < 2 ^ 32 ->
  reaches st s st' s' -> section_count_inv len st s -> section_count_inv len st' s'.
Proof.
  intros Hlen. induction 1 as [|st s st1 s1 st' s' Hne Hstep Hreach IH]; [done |].
  intros Hinv. apply IH. by eapply step_section_count.
Qed.

(** X13 -- the globals are closed by the first separator.  Once the loop
    has left the globals it never returns to them, and no record it reads
    afterwards changes the transaction, the two script tables, the key paths,
    the stated input count or the global unknown entries: only [inputs] grows
    and [use_in_index] can be set. *)
Theorem globals_are_frozen st s st' s' :
  reaches st s st' s' -> in_globals st = false ->
  in_globals st' = false
  /\ globals_of (psbt st') = globals_of (psbt st)
  /\ (exists more, inputs (psbt st') = inputs (psbt st) ++ more)
  /\ (use_in_index (psbt st) = true -> use_in_index (psbt st') = true).
Proof.
  induction 1 as [|st s st1 s1 st' s' Hne Hstep Hreach IH]; intros Hg.
  - split; [done |]. split; [done |]. split; [| done].
    exists []. by rewrite app_nil_r.
  - destruct (step_after_globals _ _ _ _ Hstep Hg) as (Hg1 & Hgl1 & [more1 Hin1] & Hu1).
    destruct (IH Hg1) as (Hg' & Hgl' & [more Hin'] & Hu').
    split; [done |]. split; [congruence |]. split; [| auto].
    exists (more1 ++ more). by rewrite Hin', Hin1, app_assoc.
Qed.

(** X14 -- stored inputs need the index flag.  Whenever a deserialization
    succeeds and has stored an input, [use_in_index] is set on the result: a
    stream none of whose input sections carries an index record never yields a
    PSBT with inputs. *)
Theorem inputs_need_index (s : bytes) (p : t) :
  deserialize s = Ok p -> inputs p <> [] -> use_in_index p = true.
Proof.
  unfold deserialize, Unserialize. intros H Hin.
  apply bind_Ok in H as ([magic s1] & _ & H).
  destruct (negb _); [discriminate |].
  apply bind_Ok in H as ([magic_sep s2] & _ & H).
  apply bind_Ok in H as (st & Hloop & H). injection H as <-.
  apply read_loop_index_flag in Hloop as [_ Hstored]; [by apply Hstored |].
  split; [discriminate | done].
Qed.

(** X15 -- sections and separators.  While a stream shorter than 2^32 bytes
    is read, no separator has been counted and no input stored as long as the
    loop is in the globals; afterwards the inputs stored are exactly one fewer
    than the separators counted, so that the section being read is the one
    the next separator stores. *)
Theorem sections_are_counted (s : bytes) st s' :
  N.of_nat (length s) < 2 ^ 32 ->
  reaches (initial default) s st s' ->
  if in_globals st
  then separators st = 0 /\ inputs (psbt st) = []
  else N.to_nat (separators st) = S (length (inputs (psbt st))).
Proof.
  intros Hlen Hreach.
  apply (reaches_section_count (length s) _ _ _ _ Hlen Hreach).
  split; [cbn; lia | by split].
Qed.

(** X16 -- the magic.  Four leading bytes other than [70 73 62 74] end
    [Unserialize] with [InvalidMagic], before anything else is read and
    whatever object is being filled. *)
Theorem wrong_magic_is_rejected (p : t) (b0 b1 b2 b3 : byte) (rest : bytes) :
  [b0; b1; b2; b3] <> [x70; x73; x62; x74] ->
  Unserialize p (b0 :: b1 :: b2 :: b3 :: rest) = Err InvalidMagic.
Proof. apply PSBTClaims.Unserialize_invalid_magic. Qed.

End Invariants.

(** ** What [Serialize] reads of the object *)

Section Writer.
Context {P : Primitives}.

Lemma serialize_inputs_flag p p' txins ins :
  use_in_index p = use_in_index p' ->
  serialize_inputs p txins ins = serialize_inputs p' txins ins.
Proof.
  intros Hu. revert ins. induction txins as [|txin txins IH]; intros ins; [done |].
  destruct ins as [|psbt_in ins]; [done |]. cbn [serialize_inputs].
  rewrite IH. unfold serialize_input. by rewrite Hu.
Qed.

Lemma serialize_inputs_take p txins ins :
  serialize_inputs p txins (take (length txins) ins) = serialize_inputs p txins ins.
Proof.
  revert ins. induction txins as [|txin txins IH]; intros ins; [done |].
  destruct ins as [|psbt_in ins]; [done |]. cbn [length take serialize_inputs].
  by rewrite IH.
Qed.

Lemma serialize_inputs_None p txins ins :
  serialize_inputs p txins ins = None <-> (length ins < length txins)%nat.
Proof.
  revert ins. induction txins as [|txin txins IH]; intros ins.
  - cbn. split; [discriminate | lia].
  - destruct ins as [|psbt_in ins]; cbn [serialize_inputs length]; [split; [lia | done] |].
    specialize (IH ins). destruct (serialize_inputs p txins ins).
    + split; [discriminate |]. intros Hlt. assert (Some b = None) by (apply IH; lia).
      discriminate.
    + split; [| done]. intros _. assert (length ins < length txins)%nat by by apply IH.
      lia.
Qed.

(** X17 -- [Serialize] and the [inputs] vector.  [Serialize] indexes [inputs]
    with the positions of [tx.vin]: it reads past the end of [inputs], which
    is undefined, exactly when [inputs] is shorter than [tx.vin], and it
    writes the same bytes when the elements of [inputs] beyond the length of
    [tx.vin] are cut off. *)
Theorem Serialize_reads_inputs_of_vin (p : t) :
  (Serialize p = None <-> (length (inputs p) < length (vin (tx p)))%nat)
  /\ Serialize (set_inputs p (take (length (vin (tx p))) (inputs p))) = Serialize p.
Proof.
  unfold Serialize. split.
  - rewrite <- serialize_inputs_None with (p := p).
    by destruct (serialize_inputs p (vin (tx p)) (inputs p)).
  - cbn [tx inputs set_inputs].
    rewrite (serialize_inputs_flag _ p) by done.
    rewrite serialize_inputs_take.
    by destruct (serialize_inputs p (vin (tx p)) (inputs p)).
Qed.

End Writer.

(** ** Reading back the globals that [Serialize] wrote *)

(** *** Keys in increasing order are appended *)

Lemma bytes_ltb_irrefl a : bytes_ltb a a = false.
Proof.
  induction a as [|x a IH]; [done |]. cbn [bytes_ltb].
  by rewrite N.ltb_irrefl.
Qed.

Lemma bytes_ltb_asym a b : bytes_ltb a b = true -> bytes_ltb b a = false.
Proof.
  revert b. induction a as [|x a IH]; intros [|y b]; cbn [bytes_ltb]; try done.
  destruct (N.ltb_spec (Byte.to_N x) (Byte.to_N y)) as [Hxy|Hxy];
    destruct (N.ltb_spec (Byte.to_N y) (Byte.to_N x)) as [Hyx|Hyx];
    try done; try lia.
  apply IH.
Qed.

Lemma emplace_append {V} (k : bytes) (v : V) (m : StdMap.t V) :
  Forall (fun a => bytes_ltb (fst a) k = true) m -> emplace k v m = m ++ [(k, v)].
Proof.
  induction 1 as [|[k' v'] m Hk Hm IH]; [done |]. cbn [emplace app]. cbn [fst] in Hk.
  destruct (decide (k = k')) as [-> | _]; [by rewrite bytes_ltb_irrefl in Hk |].
  by rewrite (bytes_ltb_asym _ _ Hk), IH.
Qed.

Lemma key_sorted_before {V} (l r : StdMap.t V) e :
  key_sorted (l ++ e :: r) -> Forall (fun a => bytes_ltb (fst a) (fst e) = true) l.
Proof.
  unfold key_sorted. induction l as [|x l IH]; cbn [app]; [constructor |].
  intros H. inversion H as [|? ? Hs Hall]; subst.
  constructor; [| by apply IH].
  apply Forall_app in Hall as [_ Hall]. by inversion Hall.
Qed.

Section RoundTrip.
Context {P : Primitives}.

Lemma reaches_trans st s st1 s1 st2 s2 :
  reaches st s st1 s1 -> reaches st1 s1 st2 s2 -> reaches st s st2 s2.
Proof.
  induction 1 as [|st s sta sa st1 s1 Hne Hstep Hreach IH]; [done |].
  intros H2. eapply reaches_step; eauto.
Qed.

Lemma write_vector_nonempty (v s : bytes) : v <> [] -> write_vector v ++ s <> [].
Proof.
  intros Hv Hnil. apply (f_equal length) in Hnil.
  unfold write_vector in Hnil. rewrite !length_app in Hnil.
  destruct v; [done |]. cbn in Hnil. lia.
Qed.

(** *** One record of each kind *)

Lemma step_tx_record st (new_tx : CMutableTransaction) (rest : bytes) :
  in_globals st = true ->
  N.of_nat (length (SerializeTx new_tx)) < 2 ^ 64 ->
  UnserializeTx (SerializeTx new_tx ++ rest) = Ok (new_tx, rest) ->
  step st (write_vector [PSBT_UNSIGNED_TX_NON_WITNESS_UTXO]
           ++ write_vector (SerializeTx new_tx) ++ rest)
  = Ok (with_psbt st (set_tx (psbt st) new_tx), rest).
Proof.
  intros Hg Hlen Hcodec. unfold write_vector at 2. rewrite <- app_assoc.
  rewrite step_record by done. cbn [hd].
  rewrite (bool_decide_eq_true_2 (_ = PSBT_UNSIGNED_TX_NON_WITNESS_UTXO)) by done.
  unfold case_UNSIGNED_TX_NON_WITNESS_UTXO. by rewrite Hg, Hcodec.
Qed.

Lemma step_redeem_entry st (e : bytes * bytes) (rest : bytes) :
  in_globals st = true -> redeem_entry e ->
  step st (write_entry PSBT_REDEEMSCRIPT_WITNESS_UTXO e ++ rest)
  = Ok (with_psbt st
          (set_redeem_scripts (psbt st)
             (emplace (fst e) (snd e) (redeem_scripts (psbt st)))),
        rest).
Proof.
  destruct e as [k v]. intros Hg (Hk & Hh & Hv). cbn [fst snd] in *.
  unfold write_entry. cbn [fst snd]. unfold write_vector at 2. rewrite <- !app_assoc.
  rewrite step_record by (first [done | cbn [length]; rewrite Hk; done]). cbn [hd].
  rewrite (bool_decide_eq_false_2 (_ = PSBT_UNSIGNED_TX_NON_WITNESS_UTXO)) by done.
  rewrite (bool_decide_eq_true_2 (_ = PSBT_REDEEMSCRIPT_WITNESS_UTXO)) by done.
  unfold case_REDEEMSCRIPT_WITNESS_UTXO. cbn [length tail]. rewrite Hg, Hk.
  rewrite bool_decide_eq_true_2 by done. cbn [negb].
  rewrite read_app. cbn [bind].
  by rewrite bool_decide_eq_true_2 by done.
Qed.

Lemma step_witness_entry st (e : bytes * bytes) (rest : bytes) :
  in_globals st = true -> witness_entry e ->
  step st (write_entry PSBT_WITNESSSCRIPT_PARTIAL_SIG e ++ rest)
  = Ok (with_psbt st
          (set_witness_scripts (psbt st)
             (emplace (fst e) (snd e) (witness_scripts (psbt st)))),
        rest).
Proof.
  destruct e as [k v]. intros Hg (Hk & Hh & Hv). cbn [fst snd] in *.
  unfold write_entry. cbn [fst snd]. unfold write_vector at 2. rewrite <- !app_assoc.
  rewrite step_record by (first [done | cbn [length]; rewrite Hk; done]). cbn [hd].
  rewrite (bool_decide_eq_false_2 (_ = PSBT_UNSIGNED_TX_NON_WITNESS_UTXO)) by done.
  rewrite (bool_decide_eq_false_2 (_ = PSBT_REDEEMSCRIPT_WITNESS_UTXO)) by done.
  rewrite (bool_decide_eq_true_2 (_ = PSBT_WITNESSSCRIPT_PARTIAL_SIG)) by done.
  unfold case_WITNESSSCRIPT_PARTIAL_SIG. cbn [length tail]. rewrite Hg, Hk.
  rewrite bool_decide_eq_true_2 by done. cbn [negb].
  rewrite read_app. cbn [bind].
  by rewrite bool_decide_eq_true_2 by done.
Qed.

(** The key path loop reads back the indices that were written, four bytes
    each. *)
Lemma read_keypath_written (path : list N) :
  forall (fuel : nat) (i : N) (acc : list N) (rest : bytes),
    (length path <= fuel)%nat ->
    Forall (fun idx => idx < 2 ^ 32) path ->
    i + 4 * N.of_nat (length path) < 2 ^ 32 ->
    read_keypath fuel i (i + 4 * N.of_nat (length path))
      (flat_map (N_to_le 4) path ++ rest) acc
    = Ok (acc ++ path, rest).
Proof.
  induction path as [|idx path IH]; intros fuel i acc rest Hfuel Hidx Hi.
  - cbn [length flat_map app]. rewrite app_nil_r.
    replace (i + 4 * N.of_nat 0) with i by lia.
    destruct fuel; cbn [read_keypath]; by rewrite N.ltb_irrefl.
  - destruct fuel as [|fuel]; [cbn in Hfuel; lia |].
    cbn [read_keypath flat_map]. rewrite <- app_assoc.
    destruct (N.ltb_spec i (i + 4 * N.of_nat (length (idx :: path)))) as [_|Hge];
      [| cbn [length] in Hge; lia].
    unfold read_u32. rewrite read_le_4. cbn [bind].
    inversion Hidx as [|? ? Hidx0 Hidx']; subst.
    change 0x100000000 with (2 ^ 32). rewrite (N.mod_small idx) by done.
    cbn [length] in Hi |- *.
    rewrite (N.mod_small (i + 4)) by lia.
    replace (i + 4 * N.of_nat (S (length path)))
      with (i + 4 + 4 * N.of_nat (length path)) by lia.
    rewrite IH; [| cbn in Hfuel; lia | done | lia].
    by rewrite <- app_assoc.
Qed.

Lemma step_keypath_entry st (e : bytes * list N) (rest : bytes) :
  in_globals st = true -> keypath_entry e ->
  step st (write_keypath e ++ rest)
  = Ok (with_psbt st
          (set_hd_keypaths (psbt st)
             (emplace (fst e) (snd e) (hd_keypaths (psbt st)))),
        rest).
Proof.
  destruct e as [k path]. intros Hg (Hk & Hlen & Hidx). cbn [fst snd] in *.
  unfold write_keypath. cbn [fst snd]. rewrite <- !app_assoc.
  assert (N.of_nat (length (PSBT_BIP32_KEYPATH_SIGHASH :: k)) < 2 ^ 64) as Hkey.
  { cbn [length]. destruct Hk as [-> | ->]; done. }
  rewrite step_record by (first [done | lia]). cbn [hd].
  rewrite (bool_decide_eq_false_2 (_ = PSBT_UNSIGNED_TX_NON_WITNESS_UTXO)) by done.
  rewrite (bool_decide_eq_false_2 (_ = PSBT_REDEEMSCRIPT_WITNESS_UTXO)) by done.
  rewrite (bool_decide_eq_false_2 (_ = PSBT_WITNESSSCRIPT_PARTIAL_SIG)) by done.
  rewrite (bool_decide_eq_true_2 (_ = PSBT_BIP32_KEYPATH_SIGHASH)) by done.
  unfold case_BIP32_KEYPATH_SIGHASH. rewrite Hg.
  assert (pubkey_key_ok (PSBT_BIP32_KEYPATH_SIGHASH :: k) = true) as ->.
  { unfold pubkey_key_ok. cbn [length].
    destruct Hk as [-> | ->]; [by rewrite orb_true_r | done]. }
  cbn [negb tail].
  replace (N.of_nat (length path) * 4) with (0 + 4 * N.of_nat (length path)) by lia.
  rewrite read_keypath_written; [done | | done | lia].
  rewrite length_app. enough (length path <= length (flat_map (N_to_le 4) path))%nat by lia.
  clear. induction path as [|idx path IH]; [done |].
  cbn [flat_map]. rewrite length_app, length_N_to_le. cbn [length]. lia.
Qed.

Lemma step_unknown_entry st (e : bytes * bytes) (rest : bytes) :
  in_globals st = true -> unknown_entry e ->
  step st (write_unknown e ++ rest)
  = Ok (with_psbt st
          (set_unknown (psbt st) (emplace (fst e) (snd e) (unknown (psbt st)))),
        rest).
Proof.
  destruct e as [key v]. intros Hg Hok. unfold unknown_entry in Hok.
  cbn [fst snd] in *. destruct Hok as (Hk & Hv & b & k & -> & Hb).
  unfold write_unknown. cbn [fst snd]. unfold write_vector at 2. rewrite <- !app_assoc.
  rewrite step_record by done. cbn [hd].
  assert (forall tag, Byte.to_N tag <= 4 -> bool_decide (b = tag) = false) as Htag.
  { intros tag Ht. apply bool_decide_eq_false_2. intros ->. lia. }
  rewrite !Htag by (cbn; lia).
  unfold unknown_record. rewrite read_app. cbn [bind]. by rewrite Hg.
Qed.

(** *** One table after the other *)

Lemma read_table {V} (get : t -> StdMap.t V) (set : t -> StdMap.t V -> t)
    (w : bytes * V -> bytes) (ok : bytes * V -> Prop) :
  (forall p m, get (set p m) = m) ->
  (forall p m m', set (set p m) m' = set p m') ->
  (forall p, set p (get p) = p) ->
  (forall st e rest, in_globals st = true -> ok e ->
     w e ++ rest <> []
     /\ step st (w e ++ rest)
        = Ok (with_psbt st (set (psbt st) (emplace (fst e) (snd e) (get (psbt st)))),
              rest)) ->
  forall todo done st rest,
    in_globals st = true -> get (psbt st) = done ->
    key_sorted (done ++ todo) -> Forall ok todo ->
    reaches st (flat_map w todo ++ rest)
            (with_psbt st (set (psbt st) (done ++ todo))) rest.
Proof.
  intros Hgs Hss Hsg Hstep.
  induction todo as [|e todo IH]; intros done st rest Hg Hget Hsorted Hok.
  - rewrite app_nil_r, <- Hget, Hsg. cbn [flat_map app].
    replace (with_psbt st (psbt st)) with st by (by destruct st).
    apply reaches_here.
  - inversion Hok as [|? ? Hoke Hok']; subst.
    cbn [flat_map]. rewrite <- app_assoc.
    destruct (Hstep st e (flat_map w todo ++ rest) Hg Hoke) as [Hne Hs].
    eapply reaches_step; [exact Hne | exact Hs |].
    rewrite (emplace_append _ _ _ (key_sorted_before _ _ _ Hsorted)).
    replace (fst e, snd e) with e by (by destruct e).
    set (st1 := with_psbt st (set (psbt st) (get (psbt st) ++ [e]))).
    replace (with_psbt st (set (psbt st) (get (psbt st) ++ e :: todo)))
      with (with_psbt st1 (set (psbt st1) ((get (psbt st) ++ [e]) ++ todo))).
    + apply IH; [done | by cbn; rewrite Hgs | by rewrite <- app_assoc | done].
    + subst st1. cbn [psbt with_psbt]. rewrite Hss, <- app_assoc. done.
Qed.

Lemma entry_nonempty (tag : byte) (e : bytes * bytes) (rest : bytes) :
  write_entry tag e ++ rest <> [].
Proof. unfold write_entry. rewrite <- app_assoc. by apply write_vector_nonempty. Qed.

(** The bytes [Serialize] writes between the header and the separator are
    read back record by record. *)
Lemma serialize_globals_reaches (p : t) (rest : bytes) :
  wire_globals p ->
  exists body,
    serialize_globals p = header ++ body ++ [PSBT_SEPARATOR]
    /\ reaches (initial default) (body ++ PSBT_SEPARATOR :: rest)
               (initial p) (PSBT_SEPARATOR :: rest).
Proof.
  intros [Htx Hrs Hr Hws Hw Hks Hk Hus Hu Hn Hi Hf].
  set (tx_part := if CTransaction_IsNull (tx p) then []
                  else write_vector [PSBT_UNSIGNED_TX_NON_WITNESS_UTXO]
                       ++ write_vector (SerializeTx (tx p))).
  exists (tx_part
          ++ flat_map (write_entry PSBT_REDEEMSCRIPT_WITNESS_UTXO) (redeem_scripts p)
          ++ flat_map (write_entry PSBT_WITNESSSCRIPT_PARTIAL_SIG) (witness_scripts p)
          ++ flat_map write_keypath (hd_keypaths p)
          ++ flat_map write_unknown (unknown p)).
  split.
  - unfold serialize_globals. rewrite Hn. change (0 <? 0) with false. cbn match.
    change (N_to_le 4 PSBT_MAGIC_BYTES) with [x70; x73; x62; x74].
    unfold header. fold tx_part. rewrite <- !app_assoc. reflexivity.
  - rewrite <- !app_assoc.
    set (st1 := with_psbt (initial default) (set_tx default (tx p))).
    set (st2 := with_psbt st1 (set_redeem_scripts (psbt st1) (redeem_scripts p))).
    set (st3 := with_psbt st2 (set_witness_scripts (psbt st2) (witness_scripts p))).
    set (st4 := with_psbt st3 (set_hd_keypaths (psbt st3) (hd_keypaths p))).
    set (st5 := with_psbt st4 (set_unknown (psbt st4) (unknown p))).
    assert (st5 = initial p) as <-.
    { subst st5 st4 st3 st2 st1. unfold initial. destruct p. cbn in *. by subst. }
    eapply (reaches_trans _ _ st1).
    { subst tx_part. destruct (CTransaction_IsNull (tx p)).
      - cbn [app]. replace st1 with (initial default); [apply reaches_here |].
        subst st1. by rewrite Htx.
      - destruct Htx as [Hlen Hcodec]. rewrite <- !app_assoc.
        eapply reaches_step; [by apply write_vector_nonempty | | apply reaches_here].
        by apply step_tx_record. }
    eapply (reaches_trans _ _ st2).
    { apply (read_table redeem_scripts set_redeem_scripts
               (write_entry PSBT_REDEEMSCRIPT_WITNESS_UTXO) redeem_entry)
        with (done := []); try done.
      - by intros [].
      - intros st e r Hg He. split; [apply entry_nonempty | by apply step_redeem_entry]. }
    eapply (reaches_trans _ _ st3).
    { apply (read_table witness_scripts set_witness_scripts
               (write_entry PSBT_WITNESSSCRIPT_PARTIAL_SIG) witness_entry)
        with (done := []); try done.
      - by intros [].
      - intros st e r Hg He. split; [apply entry_nonempty | by apply step_witness_entry]. }
    eapply (reaches_trans _ _ st4).
    { apply (read_table hd_keypaths set_hd_keypaths write_keypath keypath_entry)
        with (done := []); try done.
      - by intros [].
      - intros st e r Hg He. split; [| by apply step_keypath_entry].
        unfold write_keypath. rewrite <- app_assoc. by apply write_vector_nonempty. }
    apply (read_table unknown set_unknown write_unknown unknown_entry)
      with (done := []); try done.
    + by intros [].
    + intros st e r Hg He. split; [| by apply step_unknown_entry].
      destruct He as (_ & _ & b & k & Hkey & _).
      unfold write_unknown. rewrite <- app_assoc. apply write_vector_nonempty.
      by rewrite Hkey.
Qed.

(** X18 -- the globals are read back.  For a PSBT of global data only that
    states no input count, whose tables hold their entries in key order,
    scripts under their digests, key paths under public keys and unknown
    entries under keys of no known type, [Unserialize] on a fresh object reads
    the bytes [Serialize] writes between the header and the separator record
    by record, and stands before the separator with an object equal to the
    one that was written. *)
Theorem globals_are_read_back (p : t) (rest : bytes) :
  wire_globals p ->
  exists body,
    serialize_globals p = header ++ body ++ [PSBT_SEPARATOR]
    /\ reaches (initial default) (body ++ PSBT_SEPARATOR :: rest)
               (initial p) (PSBT_SEPARATOR :: rest).
Proof. apply serialize_globals_reaches. Qed.

(** X19 -- no round trip without inputs.  For every such PSBT whose
    transaction has no inputs, [Serialize] is defined and [Unserialize]
    rejects what it wrote with [UnexpectedInputCount]: the globals are read
    back, and at the separator that ends the stream the count of input
    sections read, zero, equals the stated count, zero, which is the case the
    test at the separator throws on. *)
Theorem no_round_trip_without_inputs (p : t) :
  wire_globals p -> vin (tx p) = [] ->
  Serialize p = Some (serialize_globals p)
  /\ deserialize (serialize_globals p) = Err UnexpectedInputCount.
Proof.
  intros Hwg Hvin. split.
  - unfold Serialize. rewrite Hvin. cbn [serialize_inputs]. by rewrite app_nil_r.
  - destruct (serialize_globals_reaches p [] Hwg) as (body & -> & Hreach).
    apply (deserialize_fails_at _ (initial p) [PSBT_SEPARATOR]); [done | done |].
    unfold step. cbn. by rewrite (wg_num_ins _ Hwg).
Qed.

End RoundTrip.
End PSBTMore.

(** ** The further statements about the codec, at concrete streams *)

Module PSBTMoreWitnesses.
Import StdMap PSBT PSBTSpec PSBTExtraSpec Sample PSBTExtraSample.
Local Open Scope N_scope.

(** The globals record [01 04 01 02] followed by two separators: the count 2
    is read and the first separator is filed under the key [04].  The same key
    in the first input section, followed by an eight-byte index and two
    separators. *)
Lemma num_in_vin_falls_through_witness :
  step (P := primitives) (initial default)
    (write_vector [PSBT_NUM_IN_VIN] ++ WriteCompactSize 1 ++ WriteCompactSize 2
     ++ [x00; x00])
  = Ok (with_psbt (initial default)
          (set_unknown (set_num_ins default 2) [([PSBT_NUM_IN_VIN], [x00])]),
        [x00])
  /\ step (P := primitives) (mkst default 1 (Input.set_index Input.default 0) false)
       (write_vector [PSBT_NUM_IN_VIN] ++ WriteCompactSize 1 ++ N_to_le 8 0
        ++ [x00; x00])
     = Ok (mkst (set_use_in_index default true) 1
             (Input.set_unknown
                (Input.set_use_in_index (Input.set_index Input.default 0) true)
                [([PSBT_NUM_IN_VIN], [x00])])
             false,
           [x00]).
Proof.
  destruct (PSBTMore.num_in_vin_falls_through (P := primitives)
              (initial default) [] 1 2 [x00; x00]) as [H1 _];
    [reflexivity | reflexivity | reflexivity |].
  destruct (PSBTMore.num_in_vin_falls_through (P := primitives)
              (mkst default 1 (Input.set_index Input.default 0) false) [] 1 0 [x00; x00])
    as [_ H2]; [reflexivity | reflexivity | reflexivity |].
  split; [exact (H1 eq_refl) | exact (H2 eq_refl (or_intror eq_refl))].
Defined.

(** A redeem script key of two bytes in the globals, and a signature key of
    two bytes in an input section. *)
Lemma key_sizes_are_checked_witness :
  step (P := primitives) (initial default)
    (write_vector [PSBT_REDEEMSCRIPT_WITNESS_UTXO; xaa] ++ WriteCompactSize 0 ++ [])
  = Err (BadKeyLength PSBT_REDEEMSCRIPT_WITNESS_UTXO)
  /\ step (P := primitives) (mkst default 1 Input.default false)
       (write_vector [PSBT_WITNESSSCRIPT_PARTIAL_SIG; xaa] ++ WriteCompactSize 0 ++ [])
     = Err (BadKeyLength PSBT_WITNESSSCRIPT_PARTIAL_SIG).
Proof.
  destruct (PSBTMore.key_sizes_are_checked (P := primitives)
              (initial default) [xaa] 0 []) as (H1 & _);
    [reflexivity | reflexivity |].
  destruct (PSBTMore.key_sizes_are_checked (P := primitives)
              (mkst default 1 Input.default false) [xaa] 0 []) as (_ & _ & _ & H4);
    [reflexivity | reflexivity |].
  split.
  - apply H1; [reflexivity | discriminate].
  - apply H4; [reflexivity | discriminate | discriminate].
Defined.

(** The first input section of a stream, with an index record, read from
    the state the first separator leaves. *)
Lemma globals_are_frozen_witness :
  exists st',
    reaches (P := primitives) (mkst default 1 (Input.set_index Input.default 0) false)
            indexed_section st' []
    /\ in_globals st' = false
    /\ globals_of (psbt st') = globals_of default.
Proof.
  eassert (reaches (P := primitives)
             (mkst default 1 (Input.set_index Input.default 0) false)
             indexed_section _ []) as Hreach.
  { eapply reaches_step; [discriminate | reflexivity |].
    eapply reaches_step; [discriminate | reflexivity |]. apply reaches_here. }
  eexists. split; [exact Hreach |].
  destruct (PSBTMore.globals_are_frozen _ _ _ _ Hreach eq_refl) as (H1 & H2 & _).
  split; [exact H1 | exact H2].
Defined.

(** A stream with two input sections, the first of which carries an
    index. *)
Lemma inputs_need_index_witness :
  exists p,
    deserialize (P := primitives) stream_mixed = Ok p
    /\ inputs p <> []
    /\ use_in_index p = true.
Proof.
  eassert (deserialize (P := primitives) stream_mixed = Ok _) as Hd
    by (vm_compute; reflexivity).
  eexists. split; [exact Hd |].
  assert (forall A (x : A) l, x :: l <> []) as Hne by discriminate.
  split; [apply Hne |].
  apply (PSBTMore.inputs_need_index _ _ Hd). apply Hne.
Defined.

(** The separator that closes empty globals, and one input section. *)
Lemma sections_are_counted_witness :
  exists st,
    reaches (P := primitives) (initial default) ([x00] ++ indexed_section) st []
    /\ if in_globals st
       then separators st = 0 /\ inputs (psbt st) = []
       else N.to_nat (separators st) = S (length (inputs (psbt st))).
Proof.
  eassert (reaches (P := primitives) (initial default) ([x00] ++ indexed_section) _ [])
    as Hreach.
  { eapply reaches_step; [discriminate | reflexivity |].
    eapply reaches_step; [discriminate | reflexivity |].
    eapply reaches_step; [discriminate | reflexivity |]. apply reaches_here. }
  eexists. split; [exact Hreach |].
  apply (PSBTMore.sections_are_counted ([x00] ++ indexed_section) _ _ eq_refl Hreach).
Defined.

(** The magic with its last byte off by one. *)
Lemma wrong_magic_is_rejected_witness :
  Unserialize (P := primitives) default [x70; x73; x62; x75; xff; x00]
  = Err InvalidMagic.
Proof. apply PSBTMore.wrong_magic_is_rejected. discriminate. Defined.

(** The sample PSBT of global data is as [wire_globals] asks. *)
Lemma psbt_globals_only_wire : wire_globals (P := primitives) psbt_globals_only.
Proof.
  constructor; try reflexivity; try (repeat constructor; fail).
  constructor; [| constructor]. split; [reflexivity |]. split; [reflexivity |].
  exists x0f, [x01]. split; reflexivity.
Qed.

Lemma globals_are_read_back_witness :
  exists body,
    serialize_globals (P := primitives) psbt_globals_only
    = header ++ body ++ [PSBT_SEPARATOR]
    /\ reaches (P := primitives) (initial default) (body ++ PSBT_SEPARATOR :: [])
               (initial psbt_globals_only) (PSBT_SEPARATOR :: []).
Proof.
  exact (PSBTMore.globals_are_read_back psbt_globals_only [] psbt_globals_only_wire).
Defined.

Lemma no_round_trip_without_inputs_witness :
  Serialize (P := primitives) psbt_globals_only
  = Some (serialize_globals (P := primitives) psbt_globals_only)
  /\ deserialize (P := primitives) (serialize_globals (P := primitives) psbt_globals_only)
     = Err UnexpectedInputCount.
Proof.
  apply (PSBTMore.no_round_trip_without_inputs psbt_globals_only
           psbt_globals_only_wire).
  reflexivity.
Defined.

End PSBTMoreWitnesses.

(** * The output set, the read loop as a whole, and the key path loop *)

Module OutputSet.
Import CoinSelection CoinSpec CoinFacts BnBFacts CoinSample KnapsackChoice.
Local Open Scope Z_scope.






End OutputSet.

Module PSBTLoop.
Import StdMap PSBT PSBTSpec PSBTFacts PSBTExtraSpec PSBTGrowth Sample.
Local Open Scope N_scope.

Lemma emplace_keeps {V} (k : bytes) (v : V) (m : StdMap.t V) e :
  e ∈ m -> e ∈ emplace k v m.
Proof.
  induction m as [|[k' v'] m IH]; [by intros H%elem_of_nil |].
  cbn [emplace]. destruct (decide (k = k')); [done |].
  destruct (bytes_ltb k k'); [by right |].
  intros [-> | Hin]%elem_of_cons; [left | right; by apply IH].
Qed.

Section Loop.
Context {P : Primitives}.

Ltac run H :=
  repeat match type of H with
         | bind _ _ = Ok _ =>
             let a := fresh "a" in
             let Ha := fresh "Ha" in
             apply bind_Ok in H; destruct H as (a & Ha & H);
             try match type of a with
                 | (_ * _)%type => destruct a as [? ?]
                 end;
             run Ha
         | (if ?c then _ else _) = Ok _ => destruct c eqn:?
         | match ?x with _ => _ end = Ok _ => destruct x eqn:?
         | Err _ = Ok _ => discriminate H
         | Ok _ = Ok _ => simplify_eq
         end.

Lemma grows_refl p : grows p p.
Proof. constructor; auto. exists []. by rewrite app_nil_r. Qed.

Lemma grows_trans p1 p2 p3 : grows p1 p2 -> grows p2 p3 -> grows p1 p3.
Proof.
  intros [Hr Hw Hk Hu [m Hi]] [Hr' Hw' Hk' Hu' [m' Hi']]. constructor; auto.
  exists (m ++ m'). by rewrite Hi', Hi, app_assoc.
Qed.

Lemma step_grows st s st' s' :
  step st s = Ok (st', s') -> grows (psbt st) (psbt st').
Proof.
  intros H. unfold step in H.
  apply bind_Ok in H as ([key_len s1] & _ & H).
  destruct (key_len =? 0).
  { apply bind_Ok in H as (st1 & Hsep & H). injection H as <- <-.
    unfold separator in Hsep. run Hsep; cbn; try apply grows_refl.
    constructor; cbn; auto. by eexists. }
  apply bind_Ok in H as ([key s2] & _ & H).
  apply bind_Ok in H as ([value_len s3] & _ & H).
  repeat match type of H with
         | (if bool_decide _ then _ else _) = _ => destruct (bool_decide _)
         end;
    unfold case_UNSIGNED_TX_NON_WITNESS_UTXO, case_REDEEMSCRIPT_WITNESS_UTXO,
      case_WITNESSSCRIPT_PARTIAL_SIG, case_BIP32_KEYPATH_SIGHASH, case_NUM_IN_VIN,
      unknown_record in H;
    run H; cbn; try apply grows_refl;
    (constructor; cbn; auto using emplace_keeps;
     exists []; by rewrite app_nil_r).
Qed.

Lemma read_loop_Ok_reaches fuel st s st' :
  read_loop fuel st s = Ok st' -> reaches st s st' [].
Proof.
  revert st s. induction fuel as [|fuel IH]; intros st s H.
  - destruct s; [injection H as <-; apply reaches_here | discriminate].
  - destruct s as [|b s]; [injection H as <-; apply reaches_here |].
    cbn [read_loop] in H. apply bind_Ok in H as ([st1 s1] & Hstep & H).
    eapply reaches_step; [done | exact Hstep | by apply IH].
Qed.

(** The fuel of [read_loop] cuts no run short: a stream that starts with the
    header deserializes to [p] exactly when the turns of the loop use up the
    stream and leave [p]. *)
Lemma deserialize_reaches (s : bytes) (p : t) :
  deserialize (header ++ s) = Ok p
  <-> exists st, reaches (initial default) s st [] /\ psbt st = p.
Proof.
  unfold deserialize. rewrite Unserialize_header. split.
  - intros H. apply bind_Ok in H as (st & Hloop & H). injection H as <-.
    exists st. split; [| done]. by eapply read_loop_Ok_reaches.
  - intros (st & Hreach & <-). by rewrite (read_loop_reaches _ _ _ _ Hreach).
Qed.

(** X22 -- nothing stored is lost.  Reading on never removes or replaces
    what the object holds: every entry of the two script tables, of the key
    paths and of the unknown entries stays as it is, and [inputs] is only
    extended at its end. *)
Theorem stored_entries_stay st s st' s' :
  reaches st s st' s' -> grows (psbt st) (psbt st').
Proof.
  induction 1 as [|st s st1 s1 st' s' Hne Hstep Hreach IH]; [apply grows_refl |].
  eapply grows_trans; [by eapply step_grows | exact IH].
Qed.

(** The key path loop on a value length that need not be a multiple of
    four. *)
Lemma read_keypath_words (path : list N) :
  forall (fuel : nat) (i value_len : N) (acc : list N) (rest : bytes),
    (length path <= fuel)%nat ->
    Forall (fun idx => idx < 2 ^ 32) path ->
    value_len <= i + 4 * N.of_nat (length path) ->
    i + 4 * N.of_nat (length path) < value_len + 4 ->
    i + 4 * N.of_nat (length path) < 2 ^ 32 ->
    read_keypath fuel i value_len (flat_map (N_to_le 4) path ++ rest) acc
    = Ok (acc ++ path, rest).
Proof.
  induction path as [|idx path IH]; intros fuel i value_len acc rest Hfuel Hidx Hle Hlt Hi.
  - cbn [length flat_map app] in *. rewrite app_nil_r.
    destruct (N.ltb_spec i value_len) as [Hc|_]; [lia |].
    destruct fuel; cbn [read_keypath];
      by destruct (N.ltb_spec i value_len) as [Hc|_]; [lia |].
  - destruct fuel as [|fuel]; [cbn in Hfuel; lia |].
    cbn [read_keypath flat_map]. rewrite <- app_assoc.
    cbn [length] in Hle, Hlt, Hi.
    destruct (N.ltb_spec i value_len) as [_|Hge]; [| lia].
    unfold read_u32. rewrite read_le_4. cbn [bind].
    inversion Hidx as [|? ? Hidx0 Hidx']; subst.
    change 0x100000000 with (2 ^ 32). rewrite (N.mod_small idx) by done.
    rewrite (N.mod_small (i + 4)) by lia.
    rewrite IH; [| cbn in Hfuel; lia | done | lia | lia | lia].
    by rewrite <- app_assoc.
Qed.

(** X23 -- the key path loop reads whole words.  The loop
    [for (i = 0; i < value_len; i += 4)] reads one 32-bit index per started
    group of four bytes, as long as the value length rounded up to a multiple
    of four stays below 2^32: a value length that is not a multiple of four
    makes it read up to three bytes past the value. *)
Theorem keypath_loop_reads_whole_words (path : list N) (value_len : N) (rest : bytes)
    (fuel : nat) :
  (length path <= fuel)%nat ->
  Forall (fun idx => idx < 2 ^ 32) path ->
  value_len <= 4 * N.of_nat (length path) ->
  4 * N.of_nat (length path) < value_len + 4 ->
  4 * N.of_nat (length path) < 2 ^ 32 ->
  read_keypath fuel 0 value_len (flat_map (N_to_le 4) path ++ rest) []
  = Ok (path, rest).
Proof.
  intros Hfuel Hidx Hle Hlt Hi.
  by rewrite read_keypath_words.
Qed.

End Loop.

(** Two records under one unknown key: the second is ignored. *)
Lemma stored_entries_stay_witness :
  exists st',
    reaches (P := primitives) (initial default)
      (record [x0f] [xaa] ++ record [x0f] [xbb]) st' []
    /\ unknown (psbt st') = [([x0f], [xaa])]
    /\ grows default (psbt st').
Proof.
  eassert (reaches (P := primitives) (initial default)
             (record [x0f] [xaa] ++ record [x0f] [xbb]) _ []) as Hreach.
  { eapply reaches_step; [discriminate | reflexivity |].
    eapply reaches_step; [discriminate | reflexivity |]. apply reaches_here. }
  eexists. split; [exact Hreach |]. split; [reflexivity |].
  exact (stored_entries_stay _ _ _ _ Hreach).
Defined.

(** A value length of five: two indices, eight bytes, are read. *)
Lemma keypath_loop_reads_whole_words_witness :
  read_keypath 2 0 5 (flat_map (N_to_le 4) [44; 7] ++ [xff]) [] = Ok ([44; 7], [xff]).
Proof.
  apply (keypath_loop_reads_whole_words [44; 7] 5 [xff] 2).
  - reflexivity.
  - repeat constructor.
  - discriminate.
  - reflexivity.
  - reflexivity.
Defined.

End PSBTLoop.

(** * A PSBT as its creator writes it *)

Module PSBTCreator.
Import StdMap PSBT PSBTSpec PSBTFacts PSBTExtraSpec PSBTMore PSBTCreatorSample.
Local Open Scope N_scope.

Section Creator.
Context {P : Primitives}.

Lemma step_separator st (s : bytes) :
  step st (PSBT_SEPARATOR :: s) = let* st1 := separator st s in Ok (st1, s).
Proof.
  unfold step. change (PSBT_SEPARATOR :: s) with (WriteCompactSize 0 ++ s).
  by rewrite ReadCompactSize_WriteCompactSize.
Qed.

(** X24 -- no round trip with inputs that carry no index.  Take a PSBT
    whose globals are as [Serialize] and [Unserialize] agree on them, whose
    transaction has at least one input and which does not use input indices.
    When the section [Serialize] writes for the first input is empty (the
    separator alone: an input with no UTXO, signature, sighash type or unknown
    entry), [Serialize] is defined and [Unserialize] rejects its output with
    [IndexPolicyViolation], at the separator that closes the first input
    section. *)
Theorem unindexed_inputs_do_not_round_trip (p : t) (txin : CTxIn) (txins : list CTxIn)
    (psbt_in : Input.t) (ins : list Input.t) :
  wire_globals (set_inputs p []) ->
  vin (tx p) = txin :: txins ->
  inputs p = psbt_in :: ins ->
  (length txins <= length ins)%nat ->
  serialize_input p txin psbt_in = [PSBT_SEPARATOR] ->
  exists stream,
    Serialize p = Some stream
    /\ deserialize stream = Err IndexPolicyViolation.
Proof.
  intros Hwg Hvin Hin Hlen Hsection.
  destruct (serialize_inputs p txins ins) as [others|] eqn:Hothers.
  2:{ apply serialize_inputs_None in Hothers. lia. }
  exists (serialize_globals p ++ [PSBT_SEPARATOR] ++ others). split.
  - unfold Serialize. rewrite Hvin, Hin. cbn [serialize_inputs].
    by rewrite Hothers, Hsection.
  - change (serialize_globals p) with (serialize_globals (set_inputs p [])).
    destruct (serialize_globals_reaches (set_inputs p []) (PSBT_SEPARATOR :: others) Hwg)
      as (body & -> & Hreach).
    rewrite <- !app_assoc.
    set (st1 := mkst (set_inputs p []) 1 (Input.set_index Input.default 0) false).
    apply (deserialize_fails_at _ st1 (PSBT_SEPARATOR :: others)); [| done |].
    + eapply reaches_trans; [exact Hreach |].
      eapply reaches_step; [done | | apply reaches_here].
      by rewrite step_separator.
    + pose proof (wg_use_in_index _ Hwg) as Hflag. cbn in Hflag.
      rewrite step_separator. unfold separator. cbn. by rewrite Hflag.
Qed.

End Creator.

(** The PSBT of an unsigned transaction with two inputs. *)
Lemma unindexed_inputs_do_not_round_trip_witness :
  exists stream,
    Serialize (P := counting_primitives) psbt_created = Some stream
    /\ deserialize (P := counting_primitives) stream = Err IndexPolicyViolation.
Proof.
  apply (unindexed_inputs_do_not_round_trip (P := counting_primitives) psbt_created
           blank_txin [blank_txin] Input.default [Input.default]).
  - constructor; try reflexivity; repeat constructor.
  - reflexivity.
  - reflexivity.
  - reflexivity.
  - reflexivity.
Defined.

End PSBTCreator.

(** * The selectors in 64-bit arithmetic *)

(** ** Amounts in range are added without wrap-around *)

Module Int64Facts.
Import CoinSelection CoinSpec CoinFacts Int64 AmountRange.
Local Open Scope Z_scope.

Lemma wrap_small z : Z.abs z <= INT64_MAX -> wrap z = z.
Proof.
  unfold wrap, INT64_MIN, INT64_MAX. intros H.
  change (2 ^ 64) with 18446744073709551616.
  rewrite Z.mod_small; lia.
Qed.

Lemma wrap_int64 z : int64 z -> wrap z = z.
Proof.
  unfold int64, wrap, INT64_MIN, INT64_MAX. intros H.
  change (2 ^ 64) with 18446744073709551616.
  rewrite Z.mod_small; lia.
Qed.

Lemma add_small a b : Z.abs (a + b) <= INT64_MAX -> add a b = a + b.
Proof. apply wrap_small. Qed.

Lemma sub_small a b : Z.abs (a - b) <= INT64_MAX -> sub a b = a - b.
Proof. apply wrap_small. Qed.

(** [a + b] and [a - b] for [add a b] and [sub a b], when [lia] finds the
    result in range. *)
Ltac no_wrap_add a b :=
  replace (add a b) with (a + b) by (symmetry; apply add_small; lia).
Ltac no_wrap_sub a b :=
  replace (sub a b) with (a - b) by (symmetry; apply sub_small; lia).

Lemma magnitude_nonneg f l : 0 <= magnitude f l.
Proof. unfold magnitude. induction l as [|u l IH]; simpl; lia. Qed.

Lemma magnitude_cons f u l : magnitude f (u :: l) = Z.abs (f u) + magnitude f l.
Proof. done. Qed.

Lemma magnitude_app f l k : magnitude f (l ++ k) = magnitude f l + magnitude f k.
Proof. apply total_app. Qed.

Lemma magnitude_Permutation f l k : Permutation l k -> magnitude f l = magnitude f k.
Proof. apply total_Permutation. Qed.

Lemma magnitude_sublist f l k : sublist l k -> magnitude f l <= magnitude f k.
Proof.
  induction 1 as [|u l k _ IH|u l k _ IH]; rewrite ?magnitude_cons; [done | lia |].
  pose proof (Z.abs_nonneg (f u)). lia.
Qed.

Lemma abs_total f l : Z.abs (total f l) <= magnitude f l.
Proof.
  induction l as [|u l IH]; [done |].
  rewrite magnitude_cons. cbn [total fold_right]. fold (total f l). lia.
Qed.

Lemma abs_total_sublist f l k : sublist l k -> Z.abs (total f l) <= magnitude f k.
Proof.
  intros H. etrans; [apply abs_total | by apply magnitude_sublist].
Qed.

Lemma magnitude_lookup f (l : list CInputCoin) (i : nat) u :
  l !! i = Some u -> Z.abs (f u) <= magnitude f l.
Proof.
  intros H. rewrite <- (take_drop_middle _ _ _ H), magnitude_app, magnitude_cons.
  pose proof (magnitude_nonneg f (take i l)).
  pose proof (magnitude_nonneg f (drop (S i) l)). lia.
Qed.

Lemma magnitude_take_drop f (l : list CInputCoin) (k : nat) :
  magnitude f (take k l) + magnitude f (drop k l) = magnitude f l.
Proof. by rewrite <- magnitude_app, take_drop. Qed.

Lemma magnitude_waste l :
  magnitude waste l <= magnitude fee l + magnitude long_term_fee l.
Proof.
  induction l as [|u l IH]; [done |].
  rewrite !magnitude_cons. unfold waste at 1. lia.
Qed.

(** A selection that flags no coin from index [d] on selects among the
    first [d] coins. *)
Lemma selected_take v (flags : list bool) (d : nat) :
  (forall i : nat, (d <= i)%nat -> flag flags i = false) ->
  selected v flags = selected (take d v) flags.
Proof.
  revert flags d. induction v as [|u v IH]; intros flags d H.
  - by rewrite take_nil.
  - destruct flags as [|b flags]; [by destruct (take d (u :: v)) |].
    destruct d as [|d].
    + assert (b = false) as -> by (apply (H 0%nat); lia).
      cbn [take selected]. rewrite (IH flags 0%nat); [by rewrite take_0 |].
      intros i _. apply (H (S i)). lia.
    + cbn [take selected]. rewrite (IH flags d); [done |].
      intros i Hi. apply (H (S i)). lia.
Qed.

(** The partial sums of a measure whose magnitude is in range. *)
Lemma fold_left_add (f : CInputCoin -> CAmount) l a :
  Z.abs a + magnitude f l <= INT64_MAX ->
  fold_left (fun acc u => add acc (f u)) l a = fold_left (fun acc u => acc + f u) l a.
Proof.
  revert a. induction l as [|u l IH]; intros a H; [done |].
  rewrite magnitude_cons in H. cbn [fold_left].
  pose proof (magnitude_nonneg f l).
  rewrite add_small by lia. apply IH. lia.
Qed.

End Int64Facts.

(** ** Branch and bound *)

Module BnB64.
Import CoinSelection CoinSpec CoinFacts BnBFacts CoinExtraSpec BnBMore Int64 AmountRange
  Int64Facts.
Local Open Scope Z_scope.

Lemma sum_effective_no_wrap l :
  magnitude effective_value l <= INT64_MAX ->
  CoinSelection64.sum_effective l = sum_effective l.
Proof. intros H. apply fold_left_add. simpl. lia. Qed.

Section Search.
Variable pool : list CInputCoin.
Variables actual_target cost_of_change : CAmount.
Hypothesis search_range :
  magnitude effective_value pool + magnitude fee pool + magnitude long_term_fee pool
  + Z.abs actual_target + Z.abs cost_of_change <= INT64_MAX.

#[local] Abbreviation inv := (bnb_inv pool actual_target cost_of_change).
#[local] Abbreviation more := (bnb_more pool).
#[local] Abbreviation wasted := (bnb_waste pool).

#[local] Abbreviation bounded := (bnb_bounded pool).

(** [curr_value] and [curr_waste] are sums over the selected coins, which
    lie before [depth]; [curr_available_value] is a sum over the coins from
    [depth] on. *)
Lemma state_bounded st : inv st -> more st -> wasted st -> bounded st.
Proof.
  intros [Hlen Hdepth Hbeyond Hvalue _] [Hlook _ _ _] Hwaste.
  constructor.
  - rewrite Hvalue. apply abs_total_sublist, selected_sublist.
  - rewrite Hlook. apply abs_total_sublist, sublist_drop.
  - rewrite Hvalue, Hlook, (selected_take _ _ _ Hbeyond).
    set (d := Z.to_nat (depth st)).
    pose proof (abs_total_sublist effective_value _ _
                  (selected_sublist (take d pool) (curr_selection st))).
    pose proof (abs_total effective_value (drop d pool)).
    pose proof (magnitude_take_drop effective_value pool d). lia.
  - rewrite Hwaste.
    etrans; [apply abs_total_sublist, selected_sublist | apply magnitude_waste].
Qed.

Lemma magnitudes_nonneg :
  0 <= magnitude effective_value pool /\ 0 <= magnitude fee pool
  /\ 0 <= magnitude long_term_fee pool.
Proof. repeat split; apply magnitude_nonneg. Qed.

(** [utxo_pool.at(i).fee - utxo_pool.at(i).long_term_fee] *)
Lemma waste_no_wrap (i : nat) u :
  pool !! i = Some u ->
  sub (fee u) (long_term_fee u) = waste u
  /\ Z.abs (waste u) <= magnitude fee pool + magnitude long_term_fee pool.
Proof.
  intros Hu. pose proof magnitudes_nonneg as (? & ? & ?).
  pose proof (magnitude_lookup fee _ _ _ Hu).
  pose proof (magnitude_lookup long_term_fee _ _ _ Hu).
  unfold waste. split; [apply sub_small |]; lia.
Qed.

Lemma must_backtrack_no_wrap st :
  bounded st ->
  CoinSelection64.must_backtrack pool actual_target cost_of_change st
  = must_backtrack pool actual_target cost_of_change st.
Proof.
  intros [Hv Ha Hr Hw]. pose proof magnitudes_nonneg as (? & ? & ?).
  unfold CoinSelection64.must_backtrack, must_backtrack.
  rewrite !add_small by lia.
  destruct (_ || _); [done |]. destruct (_ <? _); [| done].
  destruct (at_ pool 0) as [u0|e] eqn:Hu0; [| done]. cbn [bind].
  apply at_Ok in Hu0 as [_ Hu0]. by destruct (waste_no_wrap _ _ Hu0) as [-> _].
Qed.

Lemma record_solution_no_wrap st :
  bounded st ->
  CoinSelection64.record_solution actual_target st = record_solution actual_target st.
Proof.
  intros [Hv Ha Hr Hw]. pose proof magnitudes_nonneg as (? & ? & ?).
  unfold CoinSelection64.record_solution, record_solution.
  no_wrap_sub (curr_value st) actual_target.
  no_wrap_add (curr_waste st) (curr_value st - actual_target).
  no_wrap_sub (curr_waste st + (curr_value st - actual_target))
              (curr_value st - actual_target).
  replace (curr_waste st + (curr_value st - actual_target)
           - (curr_value st - actual_target)) with (curr_waste st) by lia.
  destruct (_ <=? _); [done | by destruct st].
Qed.

(** Walking back, the lookahead stays the effective value of a tail of the
    pool. *)
Lemma walk_back_no_wrap (sel : list bool) (k : nat) avail :
  avail = total effective_value (drop k pool) ->
  CoinSelection64.walk_back pool sel k avail = walk_back pool sel k avail.
Proof.
  pose proof magnitudes_nonneg as (? & ? & ?).
  revert avail. induction k as [|k IH]; intros avail Havail; [done |].
  cbn [CoinSelection64.walk_back walk_back].
  destruct (at_ sel (Z.of_nat k)) as [b|e]; [| done]. cbn [bind].
  destruct b; [done |].
  destruct (at_ pool (Z.of_nat k)) as [u|e] eqn:Hu; [| done]. cbn [bind].
  apply at_Ok in Hu as [_ Hu]. rewrite Nat2Z.id in Hu.
  assert (avail + effective_value u = total effective_value (drop k pool)) as Hsum.
  { rewrite (drop_S _ _ _ Hu), Havail. unfold total. cbn [fold_right]. lia. }
  rewrite add_small.
  - by apply IH.
  - rewrite Hsum. etrans; [apply abs_total_sublist, sublist_drop | lia].
Qed.

Lemma backtrack_step_no_wrap st :
  inv st -> more st -> wasted st ->
  CoinSelection64.backtrack_step pool st = backtrack_step pool st.
Proof.
  intros Hinv Hmore Hwaste. pose proof magnitudes_nonneg as (? & ? & ?).
  destruct Hinv as [Hlen Hdepth Hbeyond Hvalue _].
  unfold CoinSelection64.backtrack_step, backtrack_step.
  rewrite walk_back_no_wrap by apply Hmore.
  destruct (walk_back _ _ _ _) as [[d avail]|e] eqn:Hw; [| done]. cbn [bind].
  apply walk_back_Ok in Hw as [Hd _]. rewrite Z2Nat.id in Hd by lia.
  destruct (Z.ltb_spec d 0); [done |].
  destruct Hd as [-> | [Hd Hsel]]; [lia |].
  destruct (at_ (curr_selection st) d) as [b|e]; [| done]. cbn [bind].
  destruct (at_ pool d) as [u|e] eqn:Hu; [| done]. cbn [bind].
  apply at_Ok in Hu as [_ Hu].
  destruct (waste_no_wrap _ _ Hu) as [-> _].
  pose proof (total_selected_insert effective_value _ _ _ u true false Hu Hsel) as He.
  pose proof (total_selected_insert waste _ _ _ u true false Hu Hsel) as Hf.
  cbn match in He, Hf. rewrite <- Hvalue in He. rewrite <- Hwaste in Hf.
  assert (Z.abs (curr_waste st - waste u)
          <= magnitude fee pool + magnitude long_term_fee pool) as Hw'.
  { replace (curr_waste st - waste u) with
      (total waste (selected pool (<[Z.to_nat d:=false]> (curr_selection st)))) by lia.
    etrans; [apply abs_total_sublist, selected_sublist | apply magnitude_waste]. }
  assert (Z.abs (curr_value st - effective_value u) <= magnitude effective_value pool)
    as Hv'.
  { replace (curr_value st - effective_value u) with
      (total effective_value (selected pool (<[Z.to_nat d:=false]> (curr_selection st))))
      by lia.
    apply abs_total_sublist, selected_sublist. }
  no_wrap_sub (curr_value st) (effective_value u).
  by no_wrap_sub (curr_waste st) (waste u).
Qed.

Lemma forward_step_no_wrap st :
  inv st -> more st -> wasted st ->
  CoinSelection64.forward_step pool st = forward_step pool st.
Proof.
  intros Hinv Hmore Hwaste. pose proof magnitudes_nonneg as (? & ? & ?).
  destruct Hinv as [Hlen Hdepth Hbeyond Hvalue _].
  destruct Hmore as [Hlook _ _ _].
  unfold CoinSelection64.forward_step, forward_step.
  destruct (at_ pool (depth st)) as [u|e] eqn:Hu; [| done]. cbn [bind].
  destruct (negb _); [done |].
  destruct (equivalent_to_omitted pool st u) as [skip|e]; [| done]. cbn [bind].
  destruct (at_ (curr_selection st) (depth st)) as [b|e]; [| done]. cbn [bind].
  apply at_Ok in Hu as [_ Hu].
  pose proof (lookup_lt_Some _ _ _ Hu) as Hlt.
  assert (curr_selection st !! Z.to_nat (depth st) = Some false) as Hsel.
  { apply flag_false_lookup; [lia | by apply Hbeyond]. }
  destruct (waste_no_wrap _ _ Hu) as [-> _].
  pose proof (total_selected_insert effective_value _ _ _ u false true Hu Hsel) as He.
  pose proof (total_selected_insert waste _ _ _ u false true Hu Hsel) as Hf.
  cbn match in He, Hf. rewrite <- Hvalue in He. rewrite <- Hwaste in Hf.
  assert (curr_available_value st - effective_value u
          = total effective_value (drop (S (Z.to_nat (depth st))) pool)) as Ha.
  { rewrite Hlook, (drop_S _ _ _ Hu). unfold total. cbn [fold_right]. lia. }
  assert (Z.abs (curr_available_value st - effective_value u)
          <= magnitude effective_value pool) as Ha'.
  { rewrite Ha. apply abs_total_sublist, sublist_drop. }
  assert (Z.abs (curr_waste st + waste u)
          <= magnitude fee pool + magnitude long_term_fee pool) as Hw'.
  { replace (curr_waste st + waste u) with
      (total waste (selected pool (<[Z.to_nat (depth st):=true]> (curr_selection st))))
      by lia.
    etrans; [apply abs_total_sublist, selected_sublist | apply magnitude_waste]. }
  assert (Z.abs (curr_value st + effective_value u) <= magnitude effective_value pool)
    as Hv'.
  { replace (curr_value st + effective_value u) with
      (total effective_value
         (selected pool (<[Z.to_nat (depth st):=true]> (curr_selection st)))) by lia.
    apply abs_total_sublist, selected_sublist. }
  no_wrap_sub (curr_available_value st) (effective_value u).
  destruct skip; [done |].
  no_wrap_add (curr_value st) (effective_value u).
  by no_wrap_add (curr_waste st) (waste u).
Qed.

(** [curr_waste] stays the fee difference of the selected coins. *)
Lemma record_solution_waste st : wasted st -> wasted (record_solution actual_target st).
Proof. unfold bnb_waste, record_solution. by destruct (_ <=? _). Qed.

Lemma backtrack_step_waste st st' :
  inv st -> wasted st -> backtrack_step pool st = Ok (Continue, st') -> wasted st'.
Proof.
  intros [Hlen Hdepth Hbeyond Hvalue _] Hwaste. unfold backtrack_step. intros H.
  apply bind_Ok in H as ([d avail] & Hw & H).
  apply walk_back_Ok in Hw as [Hd _]. rewrite Z2Nat.id in Hd by lia.
  destruct (Z.ltb_spec d 0); [discriminate |].
  destruct Hd as [-> | [Hd Hsel]]; [lia |].
  apply bind_Ok in H as (b & _ & H).
  apply bind_Ok in H as (u & Hu & H). apply at_Ok in Hu as [_ Hu].
  injection H as <-. unfold bnb_waste. cbn.
  rewrite (total_selected_insert _ _ _ _ u true false Hu Hsel), <- Hwaste.
  unfold waste. lia.
Qed.

Lemma forward_step_waste st ctl st' :
  inv st -> wasted st -> forward_step pool st = Ok (ctl, st') -> wasted st'.
Proof.
  intros [Hlen Hdepth Hbeyond Hvalue _] Hwaste. unfold forward_step. intros H.
  apply bind_Ok in H as (u & Hu & H). apply at_Ok in Hu as [_ Hu].
  destruct (negb _); [discriminate |].
  apply bind_Ok in H as (skip & _ & H).
  apply bind_Ok in H as (b & _ & H).
  pose proof (lookup_lt_Some _ _ _ Hu) as Hlt.
  assert (curr_selection st !! Z.to_nat (depth st) = Some false) as Hsel.
  { apply flag_false_lookup; [lia | by apply Hbeyond]. }
  destruct skip; injection H as <- <-; unfold bnb_waste; cbn.
  - by rewrite list_insert_id.
  - rewrite (total_selected_insert _ _ _ _ u false true Hu Hsel), <- Hwaste.
    unfold waste. lia.
Qed.

Lemma bnb_iter_waste st st' :
  inv st -> wasted st ->
  bnb_iter pool actual_target cost_of_change st = Ok (Continue, st') -> wasted st'.
Proof.
  intros Hinv Hwaste. unfold bnb_iter. intros H.
  apply bind_Ok in H as (b & Hb & H).
  destruct b; [by eapply backtrack_step_waste |].
  destruct (Z.leb_spec actual_target (curr_value st)) as [Ht|Ht].
  - eapply backtrack_step_waste; [| | exact H].
    + by apply record_solution_inv.
    + by apply record_solution_waste.
  - by eapply forward_step_waste.
Qed.

(** One turn of the loop forms no amount out of range. *)
Lemma bnb_iter_no_wrap st :
  inv st -> more st -> wasted st ->
  CoinSelection64.bnb_iter pool actual_target cost_of_change st
  = bnb_iter pool actual_target cost_of_change st.
Proof.
  intros Hinv Hmore Hwaste.
  pose proof (state_bounded _ Hinv Hmore Hwaste) as Hb.
  unfold CoinSelection64.bnb_iter, bnb_iter.
  rewrite must_backtrack_no_wrap by done.
  destruct (must_backtrack _ _ _ _) as [b|e] eqn:Hmust; [| done]. cbn [bind].
  destruct b; [by apply backtrack_step_no_wrap |].
  destruct (Z.leb_spec actual_target (curr_value st)) as [Ht|Ht].
  - rewrite record_solution_no_wrap by done.
    apply backtrack_step_no_wrap.
    + by apply record_solution_inv.
    + by eapply record_solution_more.
    + by apply record_solution_waste.
  - by apply forward_step_no_wrap.
Qed.

Lemma bnb_loop_no_wrap tries st :
  inv st -> more st -> wasted st ->
  CoinSelection64.bnb_loop pool actual_target cost_of_change tries st
  = bnb_loop pool actual_target cost_of_change tries st.
Proof.
  revert st. induction tries as [|tries IH]; intros st Hinv Hmore Hwaste; [done |].
  cbn [CoinSelection64.bnb_loop bnb_loop].
  rewrite bnb_iter_no_wrap by done.
  destruct (bnb_iter _ _ _ _) as [[ctl st']|e] eqn:Hiter; [| done]. cbn [bind].
  destruct ctl; [| done].
  apply IH.
  - by apply (bnb_iter_inv _ _ _ _ _ _ Hinv Hiter).
  - by apply (bnb_iter_more _ _ _ _ _ _ Hinv Hmore Hiter).
  - by eapply bnb_iter_waste.
Qed.

End Search.

(** [value_ret] adds up values of coins of the pool, each at most once. *)
Lemma emit_no_wrap pool (best : list bool) (k : nat) out v :
  Z.abs v + magnitude value (drop k pool) <= INT64_MAX ->
  CoinSelection64.emit pool best (Z.of_nat k) out v = emit pool best (Z.of_nat k) out v.
Proof.
  revert k out v. induction best as [|b best IH]; intros k out v Hv; [done |].
  cbn [CoinSelection64.emit emit].
  replace (Z.of_nat k + 1) with (Z.of_nat (S k)) by lia.
  destruct b.
  - destruct (at_ pool (Z.of_nat k)) as [u|e] eqn:Hu; [| done]. cbn [bind].
    apply at_Ok in Hu as [_ Hu]. rewrite Nat2Z.id in Hu.
    rewrite (drop_S _ _ _ Hu), magnitude_cons in Hv. unfold value at 1 in Hv.
    pose proof (magnitude_nonneg value (drop (S k) pool)).
    rewrite add_small by lia. apply IH. lia.
  - apply IH. etrans; [| exact Hv].
    apply Z.add_le_mono_l, magnitude_sublist.
    replace (S k) with (k + 1)%nat by lia. rewrite <- drop_drop.
    apply sublist_drop.
Qed.


(** On amounts in range, the 64-bit [SelectCoinsBnB] is the function of
    [CoinSelection]. *)
Lemma SelectCoinsBnB_no_wrap MAX_MONEY pool target_value cost_of_change value_in
    not_input_fees :
  bnb_amounts pool target_value cost_of_change not_input_fees ->
  CoinSelection64.SelectCoinsBnB MAX_MONEY pool target_value cost_of_change value_in
    not_input_fees
  = SelectCoinsBnB MAX_MONEY pool target_value cost_of_change value_in not_input_fees.
Proof.
  intros [Hsearch Hvalue].
  pose proof (magnitude_nonneg effective_value pool).
  pose proof (magnitude_nonneg fee pool).
  pose proof (magnitude_nonneg long_term_fee pool).
  unfold CoinSelection64.SelectCoinsBnB, SelectCoinsBnB.
  rewrite add_small by lia. rewrite sum_effective_no_wrap by lia.
  destruct (_ <? _); [done |].
  pose proof (sort_descending_Permutation pool) as Hperm.
  rewrite bnb_loop_no_wrap.
  - destruct (bnb_loop _ _ _ _ _) as [st|e]; [| done]. cbn [bind].
    destruct (is_empty _); [done |].
    rewrite (emit_no_wrap _ _ 0%nat); [done |].
    rewrite drop_0, (magnitude_Permutation _ _ _ Hperm). simpl. lia.
  - rewrite !(magnitude_Permutation _ _ _ Hperm). lia.
  - apply bnb_initial_inv.
  - rewrite sum_effective_total, <- (total_Permutation _ _ _ Hperm).
    apply bnb_initial_more.
  - unfold bnb_waste. cbn. by rewrite selected_replicate_false.
Qed.

End BnB64.

(** ** Knapsack *)

Module Knapsack64.
Import CoinSelection CoinSpec CoinFacts KnapsackFacts CoinExtraSpec KnapsackMore Int64
  AmountRange Int64Facts.
Local Open Scope Z_scope.

(** Two loop bodies that agree on the states of an invariant give one
    result along [for (i = a; i < a + n; i++)]. *)
Lemma fold_left_seq_agree {S : Type} (I : nat -> S -> Prop) (f g : S -> nat -> S) n :
  forall a st,
    I a st ->
    (forall i st, (a <= i < a + n)%nat -> I i st ->
                  g st i = f st i /\ I (Datatypes.S i) (f st i)) ->
    fold_left g (seq a n) st = fold_left f (seq a n) st
    /\ I (a + n)%nat (fold_left f (seq a n) st).
Proof.
  induction n as [|n IH]; intros a st H0 Hstep; simpl.
  - by rewrite Nat.add_0_r.
  - destruct (Hstep a st) as [-> H1]; [lia | done |].
    replace (a + Datatypes.S n)%nat with (Datatypes.S a + n)%nat by lia.
    apply IH; [done |]. intros i st' Hi. apply Hstep. lia.
Qed.

Section Approximate.
Variable vValue : list CInputCoin.
Variable target : CAmount.
Hypothesis value_range : magnitude value vValue <= INT64_MAX.

#[local] Abbreviation counted := (AmountRange.counted vValue).

(** A coin is added to [nTotal] when it is not included yet: the sum is the
    value of a selection of the coins. *)
Lemma visit_no_wrap (take : bool) (i : nat) st :
  counted st ->
  (take = true -> flag (vfIncluded st) i = false) ->
  CoinSelection64.visit vValue target take i st = visit vValue target take i st
  /\ counted (visit vValue target take i st).
Proof.
  intros [Hlen Htot] Hflag. unfold CoinSelection64.visit, visit.
  destruct (vValue !! i) as [coin|] eqn:Hcoin; [| done].
  destruct take; [| done].
  pose proof (lookup_lt_Some _ _ _ Hcoin) as Hlt.
  assert (vfIncluded st !! i = Some false) as Hsel.
  { apply flag_false_lookup; [lia | by apply Hflag]. }
  pose proof (total_selected_insert value _ _ _ coin false true Hcoin Hsel) as Hadd.
  cbn match in Hadd. fold (value coin).
  assert (Z.abs (nTotal st + value coin) <= INT64_MAX) as Hup.
  { replace (nTotal st + value coin) with
      (total value (selected vValue (<[i:=true]> (vfIncluded st)))) by lia.
    etrans; [apply abs_total_sublist, selected_sublist | done]. }
  assert (Z.abs (nTotal st) <= INT64_MAX) as Hdown.
  { rewrite <- Htot. etrans; [apply abs_total_sublist, selected_sublist | done]. }
  no_wrap_add (nTotal st) (value coin).
  no_wrap_sub (nTotal st + value coin) (value coin).
  split; [done |].
  destruct (_ <=? _); split; cbn [nTotal vfIncluded].
  - by rewrite !length_insert.
  - rewrite list_insert_insert_eq, list_insert_id by done. lia.
  - by rewrite length_insert.
  - lia.
Qed.

Lemma pass_first_no_wrap randbool st :
  counted st ->
  (forall j, flag (vfIncluded st) j = false) ->
  CoinSelection64.pass vValue target randbool 0 st = pass vValue target randbool 0 st
  /\ counted (pass vValue target randbool 0 st).
Proof.
  intros Hc Hflags. unfold CoinSelection64.pass, pass.
  destruct (fold_left_seq_agree
              (fun i st => counted st /\ forall j, (i <= j)%nat -> flag (vfIncluded st) j = false)
              (fun st i => visit vValue target (randbool i) i st)
              (fun st i => CoinSelection64.visit vValue target (randbool i) i st)
              (length vValue) 0%nat st) as [Heq [Hc' _]].
  - split; [done |]. intros j _. apply Hflags.
  - intros i st' _ [Hc' Hf].
    destruct (visit_no_wrap (randbool i) i st' Hc') as [Hv Hc'']; [intros _; apply Hf; lia |].
    split; [done |]. split; [done |].
    intros j Hj. rewrite visit_flag_ne by lia. apply Hf. lia.
  - done.
Qed.

Lemma pass_second_no_wrap randbool nPass st :
  counted st ->
  CoinSelection64.pass vValue target randbool (S nPass) st
  = pass vValue target randbool (S nPass) st
  /\ counted (pass vValue target randbool (S nPass) st).
Proof.
  intros Hc. unfold CoinSelection64.pass, pass.
  apply (fold_left_seq_agree
           (fun _ st => counted st)
           (fun st i => visit vValue target (negb (flag (vfIncluded st) i)) i st)
           (fun st i => CoinSelection64.visit vValue target (negb (flag (vfIncluded st) i)) i st)
           (length vValue) 0%nat st); [done |].
  intros i st' _ Hc'. apply visit_no_wrap; [done |].
  by intros ->%negb_true_iff.
Qed.

Lemma repetition_no_wrap randbool best :
  CoinSelection64.repetition vValue target randbool best
  = repetition vValue target randbool best.
Proof.
  unfold CoinSelection64.repetition, repetition.
  set (st0 := mktrial 0 (replicate (length vValue) false) false (fst best) (snd best)).
  destruct (pass_first_no_wrap randbool st0) as [-> Hc].
  - split; cbn; [by rewrite length_replicate | by rewrite selected_replicate_false].
  - intros j. subst st0. cbn. unfold flag.
    destruct (replicate (length vValue) false !! j) as [b|] eqn:E; [| done].
    by apply lookup_replicate in E as [-> _].
  - cbn zeta. destruct (fReachedTarget _); [done |].
    by destruct (pass_second_no_wrap randbool 0 _ Hc) as [-> _].
Qed.

Lemma repetitions_no_wrap rand left nRep best :
  CoinSelection64.repetitions vValue target rand left nRep best
  = repetitions vValue target rand left nRep best.
Proof.
  revert nRep best. induction left as [|left IH]; intros nRep best; [done |].
  cbn [CoinSelection64.repetitions repetitions].
  destruct (_ =? _); [done |]. by rewrite repetition_no_wrap, IH.
Qed.

(** On coins whose values are in range, the 64-bit [ApproximateBestSubset]
    is the function of [CoinSelection]. *)
Lemma ApproximateBestSubset_no_wrap rand nTotalLower iterations :
  CoinSelection64.ApproximateBestSubset vValue target rand nTotalLower iterations
  = ApproximateBestSubset vValue target rand nTotalLower iterations.
Proof. apply repetitions_no_wrap. Qed.

End Approximate.

(** [nTotalLower] adds up values of coins of the pool, each at most once. *)
Lemma prescan_no_wrap pool target vValue nTotalLower larger :
  int64 (target + MIN_CHANGE) ->
  Z.abs nTotalLower + magnitude value pool <= INT64_MAX ->
  CoinSelection64.prescan pool target vValue nTotalLower larger
  = prescan pool target vValue nTotalLower larger.
Proof.
  intros Ht. revert vValue nTotalLower larger.
  induction pool as [|c pool IH]; intros vValue nTotalLower larger Hn; [done |].
  rewrite magnitude_cons in Hn. pose proof (magnitude_nonneg value pool).
  cbn [CoinSelection64.prescan prescan]. fold (value c).
  replace (add target MIN_CHANGE) with (target + MIN_CHANGE)
    by (symmetry; by apply wrap_int64).
  destruct (_ =? _); [done |].
  destruct (_ <? _).
  - no_wrap_add nTotalLower (value c). apply IH. lia.
  - destruct larger as [l|]; [destruct (_ <? _) |]; apply IH; lia.
Qed.

Lemma insert_all_no_wrap coins out v :
  Z.abs v + magnitude value coins <= INT64_MAX ->
  CoinSelection64.insert_all coins (out, v) = insert_all coins (out, v).
Proof.
  unfold CoinSelection64.insert_all, insert_all. revert out v.
  induction coins as [|c coins IH]; intros out v Hv; [done |].
  rewrite magnitude_cons in Hv. pose proof (magnitude_nonneg value coins).
  cbn [fold_left fst snd]. fold (value c).
  no_wrap_add v (value c). apply IH. lia.
Qed.

(** On amounts in range, the 64-bit [KnapsackSolver] is the function of
    [CoinSelection]. *)
Lemma KnapsackSolver_no_wrap shuffle rand1 rand2 pool target :
  knapsack_amounts (shuffle pool) target ->
  CoinSelection64.KnapsackSolver shuffle rand1 rand2 pool target
  = KnapsackSolver shuffle rand1 rand2 pool target.
Proof.
  intros [Hvalue Htarget Hchange].
  pose proof (magnitude_nonneg value (shuffle pool)).
  assert (forall c, c ∈ shuffle pool -> add 0 (nValue (txout c)) = 0 + nValue (txout c))
    as Hcoin.
  { intros c [i Hi]%list_elem_of_lookup_1. apply add_small.
    pose proof (magnitude_lookup value _ _ _ Hi). unfold value in *. lia. }
  assert (forall coins, sublist coins (shuffle pool) ->
            CoinSelection64.insert_all coins ([], 0) = insert_all coins ([], 0)) as Hall.
  { intros coins Hsub. apply insert_all_no_wrap.
    pose proof (magnitude_sublist value _ _ Hsub). simpl. lia. }
  unfold CoinSelection64.KnapsackSolver, KnapsackSolver.
  rewrite prescan_no_wrap by (done || (simpl; lia)).
  destruct (prescan (shuffle pool) target [] 0 None)
    as [coin | [[vValue nTotalLower] larger]] eqn:Hpre.
  { apply prescan_exact in Hpre as [Hin _]. by rewrite Hcoin. }
  pose proof (prescan_inr_no_exact _ _ _ _ _ _ Hpre) as Hne.
  destruct (prescan_no_exact _ _ Hne [] 0 None) as (larger' & Hpre' & Hlow).
  rewrite Hpre' in Hpre. injection Hpre as <- <- <-. cbn [app].
  set (lesser_coins := filter (lesser target) (shuffle pool)).
  assert (sublist lesser_coins (shuffle pool)) as Hsub by apply sublist_filter.
  assert (forall c, larger' = Some c -> c ∈ shuffle pool) as Hbig.
  { intros c ->. by destruct Hlow as ([[=] | [Hc _]] & _). }
  assert (forall flags, sublist (selected (sort_descending lesser_coins) flags)
                                (sort_descending lesser_coins)) as Hsel
    by (intros; apply selected_sublist).
  assert (magnitude value (sort_descending lesser_coins) <= INT64_MAX) as Hsorted.
  { rewrite (magnitude_Permutation _ _ _ (sort_descending_Permutation _)).
    etrans; [by apply magnitude_sublist | done]. }
  assert (forall flags,
            CoinSelection64.insert_all (selected (sort_descending lesser_coins) flags) ([], 0)
            = insert_all (selected (sort_descending lesser_coins) flags) ([], 0)) as Hbest.
  { intros flags. apply insert_all_no_wrap.
    pose proof (magnitude_sublist value _ _ (Hsel flags)). simpl. lia. }
  replace (add target MIN_CHANGE) with (target + MIN_CHANGE)
    by (symmetry; by apply wrap_int64).
  rewrite !ApproximateBestSubset_no_wrap by done.
  destruct (_ =? _); [by rewrite Hall |].
  destruct (_ <? _).
  { destruct larger' as [c|]; [| done]. by rewrite Hcoin by by apply Hbig. }
  cbn zeta. destruct larger' as [c|].
  - destruct (_ || _); [by rewrite Hcoin by by apply Hbig | by rewrite Hbest].
  - by rewrite Hbest.
Qed.

End Knapsack64.

(** ** The selectors as the machine runs them *)

Module BnB64Claims.
Import CoinSelection CoinSpec CoinExtraSpec CoinSample CoinRangeSample Int64 AmountRange.
Local Open Scope Z_scope.


(** It also fails, on distinct outpoints, when the effective values of the
    pool do not add up within [int64_t]: with three coins of effective value
    [3 * 2^61] and one of [2^62 + 1], the sums wrap around, the target
    [3 * 2^61 + 1] is taken for reached by all four coins, and the effective
    values of [out_set] add up to [11 * 2^61 + 1]. *)
Lemma bnb_range_overflow_counterexample :
  distinct_outpoints pool_large_effective
  /\ exists r,
       CoinSelection64.SelectCoinsBnB MAX_MONEY pool_large_effective
         6917529027641081857 0 0 0 = Ok r
       /\ ret r = true
       /\ out_set r = pool_large_effective
       /\ ~ (0 + 6917529027641081857 <= sum_effective (out_set r)
             <= 0 + 6917529027641081857 + 0).
Proof.
  split.
  { unfold distinct_outpoints. apply (bool_decide_unpack _). vm_compute. exact I. }
  eexists. split; [vm_compute; reflexivity |]. split; [reflexivity |].
  split; [reflexivity |]. vm_compute. intros [_ H]. by apply H.
Qed.



(** It also fails, on distinct outpoints, when the values of the pool do not
    add up within [int64_t]: two coins of value [2^62] give a [value_ret] of
    [-2^63], while the coins of [out_set] are worth [2^63]. *)
Lemma bnb_value_ret_overflow_counterexample :
  distinct_outpoints pool_large_value
  /\ exists r,
       CoinSelection64.SelectCoinsBnB MAX_MONEY pool_large_value 10 0 0 0 = Ok r
       /\ ret r = true
       /\ value_ret r = INT64_MIN
       /\ sum_value (out_set r) = INT64_MAX + 1.
Proof.
  split.
  { unfold distinct_outpoints. apply (bool_decide_unpack _). vm_compute. exact I. }
  eexists. split; [vm_compute; reflexivity |]. repeat split.
Qed.


(** X4 -- [SelectCoinsBnB] returns.  With a non-negative [MAX_MONEY] and
    amounts in range ([bnb_amounts]), no call of [SelectCoinsBnB], run in
    64-bit arithmetic, ends in an exception of [vector::at] or in the failure
    of [assert(utxo_pool.at(depth).effective_value > 0)], also when the pool
    holds coins of zero or negative effective value: in a pool sorted by
    descending effective value, the lookahead stops the search before it
    steps onto such a coin or past the last coin. *)
Theorem SelectCoinsBnB_returns MAX_MONEY utxo_pool target_value cost_of_change
    value_ret_in not_input_fees :
  bnb_amounts utxo_pool target_value cost_of_change not_input_fees ->
  0 <= MAX_MONEY ->
  exists r,
    CoinSelection64.SelectCoinsBnB MAX_MONEY utxo_pool target_value cost_of_change
      value_ret_in not_input_fees = Ok r.
Proof.
  intros Ha HM. rewrite BnB64.SelectCoinsBnB_no_wrap by done.
  by apply BnBMore.SelectCoinsBnB_total.
Qed.

(** X6 -- what a call leaves in the caller's variables.  For amounts in
    range ([bnb_amounts]), after [SelectCoinsBnB], run in 64-bit arithmetic,
    [utxo_pool] holds the same coins; it is untouched when the effective
    values of the pool add up to less than the target
    [not_input_fees + target_value], and sorted by descending effective value
    otherwise, on success and on failure alike.  On failure [value_ret] keeps
    the value it had on entry. *)
Theorem bnb_side_effects MAX_MONEY utxo_pool target_value cost_of_change
    value_ret_in not_input_fees r :
  bnb_amounts utxo_pool target_value cost_of_change not_input_fees ->
  CoinSelection64.SelectCoinsBnB MAX_MONEY utxo_pool target_value cost_of_change
    value_ret_in not_input_fees = Ok r ->
  Permutation (pool_after r) utxo_pool
  /\ (sum_effective utxo_pool < not_input_fees + target_value ->
      pool_after r = utxo_pool)
  /\ (not_input_fees + target_value <= sum_effective utxo_pool ->
      descending_order (pool_after r))
  /\ (ret r = false -> value_ret r = value_ret_in).
Proof.
  intros Ha H. rewrite BnB64.SelectCoinsBnB_no_wrap in H by done.
  by eapply BnBMore.SelectCoinsBnB_side_effects.
Qed.

(** X7 -- what success takes.  For amounts in range ([bnb_amounts]),
    [SelectCoinsBnB], run in 64-bit arithmetic, only succeeds on a pool that
    is not empty and whose effective values add up to the target
    [not_input_fees + target_value] at least, and with a change window
    [cost_of_change] that is not negative; when the target is positive,
    [out_set] is not empty. *)
Theorem bnb_success_conditions MAX_MONEY utxo_pool target_value cost_of_change
    value_ret_in not_input_fees r :
  bnb_amounts utxo_pool target_value cost_of_change not_input_fees ->
  CoinSelection64.SelectCoinsBnB MAX_MONEY utxo_pool target_value cost_of_change
    value_ret_in not_input_fees = Ok r ->
  ret r = true ->
  utxo_pool <> []
  /\ not_input_fees + target_value <= sum_effective utxo_pool
  /\ 0 <= cost_of_change
  /\ (0 < not_input_fees + target_value -> out_set r <> []).
Proof.
  intros Ha H Hret. rewrite BnB64.SelectCoinsBnB_no_wrap in H by done.
  by eapply BnBMore.SelectCoinsBnB_success_conditions.
Qed.

End BnB64Claims.

Module Knapsack64Claims.
Import CoinSelection CoinSpec CoinExtraSpec CoinSample CoinRangeSample Int64 AmountRange
  Int64Facts.
Local Open Scope Z_scope.

(** The amounts of a pool are those of the shuffled pool. *)
Lemma knapsack_amounts_shuffle (shuffle : list CInputCoin -> list CInputCoin) pool target :
  Permutation pool (shuffle pool) ->
  knapsack_amounts pool target -> knapsack_amounts (shuffle pool) target.
Proof.
  intros Hperm [Hv Ht Hc]. split; [| done | done].
  by rewrite <- (magnitude_Permutation _ _ _ Hperm).
Qed.

(** For a pool which the shuffle permutes and amounts in range, the 64-bit
    [KnapsackSolver] is the function of [CoinSelection]. *)
Lemma KnapsackSolver_in_range shuffle rand1 rand2 pool target :
  Permutation pool (shuffle pool) ->
  knapsack_amounts pool target ->
  CoinSelection64.KnapsackSolver shuffle rand1 rand2 pool target
  = KnapsackSolver shuffle rand1 rand2 pool target.
Proof.
  intros Hperm Ha. by apply Knapsack64.KnapsackSolver_no_wrap, knapsack_amounts_shuffle.
Qed.

(** C4, as the claim states it, fails when the pool lists one outpoint
    twice: the two entries, worth 5 each, add up to the target of 10 and are
    both inserted; [value_ret] is 10, the output set holds one coin worth 5. *)
Lemma knapsack_value_ret_twice_counterexample :
  ret (CoinSelection64.KnapsackSolver no_shuffle tails tails pool_5_5_twice 10) = true
  /\ value_ret (CoinSelection64.KnapsackSolver no_shuffle tails tails pool_5_5_twice 10) = 10
  /\ sum_value (out_set (CoinSelection64.KnapsackSolver no_shuffle tails tails
                           pool_5_5_twice 10)) = 5.
Proof. repeat split. Qed.

(** It also fails when [nTargetValue + MIN_CHANGE] leaves the range of
    [int64_t]: for a target of [INT64_MAX - 5] the sum wraps around to a
    negative amount, the one coin of the pool, worth 7, is taken for a
    larger coin, and the call succeeds with a [value_ret] of 7. *)
Lemma knapsack_target_overflow_counterexample :
  ret (CoinSelection64.KnapsackSolver no_shuffle tails tails pool_7 (INT64_MAX - 5)) = true
  /\ value_ret (CoinSelection64.KnapsackSolver no_shuffle tails tails pool_7 (INT64_MAX - 5))
     = 7
  /\ 7 < INT64_MAX - 5.
Proof. repeat split. Qed.

(** C4 -- knapsack sufficiency, amended.  For a pool which the shuffle
    permutes and amounts in range ([knapsack_amounts]: the absolute values of
    the coins' values add up to [INT64_MAX] at most, and [nTargetValue] and
    [nTargetValue + MIN_CHANGE] are within [int64_t]), whenever
    [KnapsackSolver], run in 64-bit arithmetic, returns success, [value_ret]
    is at least [nTargetValue], whatever the coin flips; and when the coins of
    the pool have pairwise distinct outpoints, [value_ret] is the sum of
    [txout.nValue] over the returned [out_set]. *)
Theorem knapsack_sufficient shuffle rand1 rand2 pool nTargetValue :
  Permutation pool (shuffle pool) ->
  knapsack_amounts pool nTargetValue ->
  ret (CoinSelection64.KnapsackSolver shuffle rand1 rand2 pool nTargetValue) = true ->
  nTargetValue
  <= value_ret (CoinSelection64.KnapsackSolver shuffle rand1 rand2 pool nTargetValue)
  /\ (distinct_outpoints pool ->
      value_ret (CoinSelection64.KnapsackSolver shuffle rand1 rand2 pool nTargetValue)
      = sum_value
          (out_set (CoinSelection64.KnapsackSolver shuffle rand1 rand2 pool nTargetValue))).
Proof.
  intros Hperm Ha. rewrite KnapsackSolver_in_range by done. intros Hret.
  destruct (KnapsackClaims.KnapsackSolver_sufficient _ _ _ _ _ Hret) as [Hge Heq].
  split; [done |]. intros Hd. by apply Heq.
Qed.

(** X1 -- [ApproximateBestSubset].  Called on coins whose values are in range
    (their absolute values add up to [INT64_MAX] at most) and add up to
    [nTotalLower], which reaches the target, [ApproximateBestSubset], run in
    64-bit arithmetic, returns one flag per coin and the value [nBest] of the
    flagged coins, with [nTargetValue <= nBest <= nTotalLower]: the subset
    found pays the target and is never worth more than all the coins
    together, whatever bits are drawn and however many repetitions are
    run. *)
Theorem ApproximateBestSubset_bounds vValue nTargetValue rand nTotalLower iterations :
  magnitude value vValue <= INT64_MAX ->
  sum_value vValue = nTotalLower ->
  nTargetValue <= nTotalLower ->
  length (snd (CoinSelection64.ApproximateBestSubset vValue nTargetValue rand nTotalLower
                 iterations))
  = length vValue
  /\ sum_value (selected vValue
                  (snd (CoinSelection64.ApproximateBestSubset vValue nTargetValue rand
                          nTotalLower iterations)))
     = fst (CoinSelection64.ApproximateBestSubset vValue nTargetValue rand nTotalLower
              iterations)
  /\ nTargetValue
     <= fst (CoinSelection64.ApproximateBestSubset vValue nTargetValue rand nTotalLower
               iterations)
     <= nTotalLower.
Proof.
  intros Hrange Hsum Ht. rewrite Knapsack64.ApproximateBestSubset_no_wrap by done.
  by apply KnapsackMore.ApproximateBestSubset_within.
Qed.

(** X2 -- when [KnapsackSolver] succeeds.  For a pool of coins of non-negative
    value, which the shuffle permutes, and amounts in range
    ([knapsack_amounts]), [KnapsackSolver], run in 64-bit arithmetic, returns
    success exactly when the coins of the pool are worth at least
    [nTargetValue] together, whatever the coin flips. *)
Theorem knapsack_succeeds_iff_funded shuffle rand1 rand2 pool nTargetValue :
  Permutation pool (shuffle pool) ->
  knapsack_amounts pool nTargetValue ->
  (forall c, c ∈ pool -> 0 <= nValue (txout c)) ->
  ret (CoinSelection64.KnapsackSolver shuffle rand1 rand2 pool nTargetValue) = true
  <-> nTargetValue <= sum_value pool.
Proof.
  intros Hperm Ha Hpos. rewrite KnapsackSolver_in_range by done.
  by apply KnapsackMore.KnapsackSolver_funded.
Qed.

(** X3 -- the fallback coin.  Take a pool which the shuffle permutes and
    amounts in range ([knapsack_amounts]).  When no coin of the pool is worth
    exactly [nTargetValue], the coins worth less than
    [nTargetValue + MIN_CHANGE] do not add up to [nTargetValue], and some coin
    is worth at least [nTargetValue + MIN_CHANGE], [KnapsackSolver], run in
    64-bit arithmetic, succeeds with a single coin: one of least value among
    the coins worth at least [nTargetValue + MIN_CHANGE]; [value_ret] is its
    value. *)
Theorem knapsack_lowest_larger shuffle rand1 rand2 pool nTargetValue big :
  Permutation pool (shuffle pool) ->
  knapsack_amounts pool nTargetValue ->
  (forall c, c ∈ pool -> nValue (txout c) <> nTargetValue) ->
  sum_value (filter (lesser nTargetValue) pool) < nTargetValue ->
  big ∈ pool ->
  nTargetValue + MIN_CHANGE <= nValue (txout big) ->
  exists c,
    c ∈ pool
    /\ nTargetValue + MIN_CHANGE <= nValue (txout c)
    /\ (forall c', c' ∈ pool -> nTargetValue + MIN_CHANGE <= nValue (txout c') ->
                   nValue (txout c) <= nValue (txout c'))
    /\ ret (CoinSelection64.KnapsackSolver shuffle rand1 rand2 pool nTargetValue) = true
    /\ out_set (CoinSelection64.KnapsackSolver shuffle rand1 rand2 pool nTargetValue) = [c]
    /\ value_ret (CoinSelection64.KnapsackSolver shuffle rand1 rand2 pool nTargetValue)
       = nValue (txout c).
Proof.
  intros Hperm Ha Hne Hsum Hbig Hbigv. rewrite KnapsackSolver_in_range by done.
  by eapply KnapsackMore.KnapsackSolver_lowest_larger.
Qed.

(** X9 -- the smaller coins pay the target exactly.  Take a pool of pairwise
    distinct outpoints which the shuffle permutes, and amounts in range
    ([knapsack_amounts]).  When no coin is worth exactly [nTargetValue] and
    the coins worth less than [nTargetValue + MIN_CHANGE] add up to
    [nTargetValue], [KnapsackSolver], run in 64-bit arithmetic, succeeds with
    these coins and no other; [out_set] lists them in the order of the
    shuffled pool, and [value_ret] is [nTargetValue]. *)
Theorem knapsack_all_lesser shuffle rand1 rand2 utxo_pool nTargetValue :
  Permutation utxo_pool (shuffle utxo_pool) ->
  knapsack_amounts utxo_pool nTargetValue ->
  distinct_outpoints utxo_pool ->
  (forall c, c ∈ utxo_pool -> nValue (txout c) <> nTargetValue) ->
  sum_value (filter (lesser nTargetValue) utxo_pool) = nTargetValue ->
  ret (CoinSelection64.KnapsackSolver shuffle rand1 rand2 utxo_pool nTargetValue) = true
  /\ out_set (CoinSelection64.KnapsackSolver shuffle rand1 rand2 utxo_pool nTargetValue)
     = filter (lesser nTargetValue) (shuffle utxo_pool)
  /\ value_ret (CoinSelection64.KnapsackSolver shuffle rand1 rand2 utxo_pool nTargetValue)
     = nTargetValue.
Proof.
  intros Hperm Ha Hdistinct Hne Hsum. rewrite KnapsackSolver_in_range by done.
  by apply KnapsackChoice.KnapsackSolver_all_lesser.
Qed.

(** X10 -- no small change.  For a pool which the shuffle permutes and
    amounts in range ([knapsack_amounts]), when the pool is worth
    [nTargetValue + MIN_CHANGE] at least, [KnapsackSolver], run in 64-bit
    arithmetic, succeeds and [value_ret] is either exactly [nTargetValue] or
    at least [nTargetValue + MIN_CHANGE]: the change is nothing or
    [MIN_CHANGE] at least, whatever the coin flips. *)
Theorem knapsack_change_not_small shuffle rand1 rand2 utxo_pool nTargetValue :
  Permutation utxo_pool (shuffle utxo_pool) ->
  knapsack_amounts utxo_pool nTargetValue ->
  nTargetValue + MIN_CHANGE <= sum_value utxo_pool ->
  ret (CoinSelection64.KnapsackSolver shuffle rand1 rand2 utxo_pool nTargetValue) = true
  /\ (value_ret (CoinSelection64.KnapsackSolver shuffle rand1 rand2 utxo_pool nTargetValue)
      = nTargetValue
      \/ nTargetValue + MIN_CHANGE
         <= value_ret (CoinSelection64.KnapsackSolver shuffle rand1 rand2 utxo_pool
                         nTargetValue)).
Proof.
  intros Hperm Ha Hsum. rewrite KnapsackSolver_in_range by done.
  by apply KnapsackChoice.KnapsackSolver_change.
Qed.

End Knapsack64Claims.

(** ** The statements above, at concrete pools *)

Module Coin64Witnesses.
Import CoinSelection CoinSpec CoinSample CoinExtraSpec CoinExtraSample Int64 AmountRange.
Local Open Scope Z_scope.



(** Values 4, 7, 10, 12 and a target of 11: no coin is worth 11 and the
    coins add up to 33, so the subset is found by approximation. *)
Lemma knapsack_sufficient_witness :
  knapsack_amounts pool_4_7_10_12 11
  /\ 11 <= value_ret (CoinSelection64.KnapsackSolver no_shuffle alternate alternate
                        pool_4_7_10_12 11)
  /\ value_ret (CoinSelection64.KnapsackSolver no_shuffle alternate alternate
                  pool_4_7_10_12 11)
     = sum_value (out_set (CoinSelection64.KnapsackSolver no_shuffle alternate alternate
                             pool_4_7_10_12 11)).
Proof.
  assert (knapsack_amounts pool_4_7_10_12 11) as Hrange.
  { repeat split; vm_compute; discriminate. }
  split; [exact Hrange |].
  destruct (Knapsack64Claims.knapsack_sufficient no_shuffle alternate alternate
              pool_4_7_10_12 11) as [Hge Heq].
  - apply Permutation_refl.
  - exact Hrange.
  - vm_compute. reflexivity.
  - split; [exact Hge |]. apply Heq.
    unfold distinct_outpoints. apply (bool_decide_unpack _). vm_compute. exact I.
Defined.

(** Values 4, 7, 10, 12, which add up to 33, and a target of 11. *)
Lemma ApproximateBestSubset_bounds_witness :
  magnitude value pool_4_7_10_12 <= INT64_MAX
  /\ sum_value pool_4_7_10_12 = 33
  /\ 11 <= fst (CoinSelection64.ApproximateBestSubset pool_4_7_10_12 11 alternate 33 1000)
     <= 33.
Proof.
  assert (magnitude value pool_4_7_10_12 <= INT64_MAX) as Hrange
    by (vm_compute; discriminate).
  split; [exact Hrange |]. split; [reflexivity |].
  destruct (Knapsack64Claims.ApproximateBestSubset_bounds pool_4_7_10_12 11 alternate 33
              1000) as (_ & _ & H); [exact Hrange | reflexivity | lia | exact H].
Defined.

(** The same pool, left in its order, and a target of 11. *)
Lemma knapsack_succeeds_iff_funded_witness :
  knapsack_amounts pool_4_7_10_12 11
  /\ (ret (CoinSelection64.KnapsackSolver no_shuffle alternate alternate pool_4_7_10_12 11)
      = true
      <-> 11 <= sum_value pool_4_7_10_12).
Proof.
  assert (knapsack_amounts pool_4_7_10_12 11) as Hrange.
  { repeat split; vm_compute; discriminate. }
  split; [exact Hrange |].
  apply (Knapsack64Claims.knapsack_succeeds_iff_funded no_shuffle alternate alternate
           pool_4_7_10_12 11).
  - apply Permutation_refl.
  - exact Hrange.
  - apply Forall_forall. repeat constructor; discriminate.
Defined.

(** A target of 30: the coins of value 4, 7 and 10 do not pay it, and of the
    two large coins the one worth 2,000,000 is taken. *)
Lemma knapsack_lowest_larger_witness :
  knapsack_amounts pool_small_and_large 30
  /\ exists c,
       c ∈ pool_small_and_large
       /\ 30 + MIN_CHANGE <= nValue (txout c)
       /\ (forall c', c' ∈ pool_small_and_large -> 30 + MIN_CHANGE <= nValue (txout c') ->
                      nValue (txout c) <= nValue (txout c'))
       /\ ret (CoinSelection64.KnapsackSolver no_shuffle tails tails pool_small_and_large 30)
          = true
       /\ out_set (CoinSelection64.KnapsackSolver no_shuffle tails tails
                     pool_small_and_large 30) = [c]
       /\ value_ret (CoinSelection64.KnapsackSolver no_shuffle tails tails
                       pool_small_and_large 30)
          = nValue (txout c).
Proof.
  assert (knapsack_amounts pool_small_and_large 30) as Hrange.
  { repeat split; vm_compute; discriminate. }
  split; [exact Hrange |].
  apply (Knapsack64Claims.knapsack_lowest_larger no_shuffle tails tails
           pool_small_and_large 30 (coin 2 3000000 3000000 0 0)).
  - apply Permutation_refl.
  - exact Hrange.
  - apply Forall_forall. repeat constructor; discriminate.
  - vm_compute. reflexivity.
  - right. left.
  - vm_compute. discriminate.
Defined.

(** A pool with coins of effective value 0 and -1, a target of 4 and a
    change window of 1. *)
Lemma SelectCoinsBnB_returns_witness :
  bnb_amounts pool_5_0_minus1 4 1 0
  /\ 0 <= MAX_MONEY
  /\ exists r, CoinSelection64.SelectCoinsBnB MAX_MONEY pool_5_0_minus1 4 1 0 0 = Ok r.
Proof.
  assert (bnb_amounts pool_5_0_minus1 4 1 0) as Hrange.
  { split; vm_compute; discriminate. }
  assert (0 <= MAX_MONEY) as HM by discriminate.
  split; [exact Hrange |]. split; [exact HM |].
  exact (BnB64Claims.SelectCoinsBnB_returns MAX_MONEY pool_5_0_minus1 4 1 0 0 Hrange HM).
Defined.

(** Effective values 3, 2, 1, listed as 2, 3, 1, and a target of 3: the pool
    is left as 3, 2, 1. *)
Lemma bnb_side_effects_witness :
  bnb_amounts [coin 2 3 2 1 1; coin 1 4 3 1 1; coin 3 2 1 1 1] 3 0 0
  /\ Permutation [coin 1 4 3 1 1; coin 2 3 2 1 1; coin 3 2 1 1 1]
                 [coin 2 3 2 1 1; coin 1 4 3 1 1; coin 3 2 1 1 1]
  /\ descending_order [coin 1 4 3 1 1; coin 2 3 2 1 1; coin 3 2 1 1 1].
Proof.
  assert (bnb_amounts [coin 2 3 2 1 1; coin 1 4 3 1 1; coin 3 2 1 1 1] 3 0 0) as Hrange.
  { split; vm_compute; discriminate. }
  split; [exact Hrange |].
  destruct (BnB64Claims.bnb_side_effects MAX_MONEY
              [coin 2 3 2 1 1; coin 1 4 3 1 1; coin 3 2 1 1 1] 3 0 0 0
              (mkout true [coin 1 4 3 1 1; coin 2 3 2 1 1; coin 3 2 1 1 1]
                     [coin 2 3 2 1 1; coin 3 2 1 1 1] 5)) as (Hperm & _ & Hsorted & _).
  - exact Hrange.
  - vm_compute. reflexivity.
  - split; [exact Hperm |]. apply Hsorted. vm_compute. discriminate.
Defined.

(** Effective values 8, 5, 3, 2 and a target of 10, without change window. *)
Lemma bnb_success_conditions_witness :
  bnb_amounts pool_8_5_3_2 10 0 0
  /\ pool_8_5_3_2 <> []
  /\ 0 + 10 <= sum_effective pool_8_5_3_2
  /\ 0 <= 0
  /\ (0 < 0 + 10 -> [coin 2 6 5 1 1; coin 3 4 3 1 1; coin 4 3 2 1 1] <> []).
Proof.
  assert (bnb_amounts pool_8_5_3_2 10 0 0) as Hrange.
  { split; vm_compute; discriminate. }
  split; [exact Hrange |].
  apply (BnB64Claims.bnb_success_conditions MAX_MONEY pool_8_5_3_2 10 0 0 0
           (mkout true (sort_descending pool_8_5_3_2)
                  [coin 2 6 5 1 1; coin 3 4 3 1 1; coin 4 3 2 1 1] 13)).
  - exact Hrange.
  - vm_compute. reflexivity.
  - reflexivity.
Defined.

(** A target of 21, the sum of the values 4, 7 and 10. *)
Lemma knapsack_all_lesser_witness :
  knapsack_amounts pool_small_and_large 21
  /\ ret (CoinSelection64.KnapsackSolver no_shuffle tails tails pool_small_and_large 21)
     = true
  /\ out_set (CoinSelection64.KnapsackSolver no_shuffle tails tails pool_small_and_large 21)
     = filter (lesser 21) (no_shuffle pool_small_and_large)
  /\ value_ret (CoinSelection64.KnapsackSolver no_shuffle tails tails pool_small_and_large
                  21) = 21.
Proof.
  assert (knapsack_amounts pool_small_and_large 21) as Hrange.
  { repeat split; vm_compute; discriminate. }
  split; [exact Hrange |].
  apply (Knapsack64Claims.knapsack_all_lesser no_shuffle tails tails pool_small_and_large
           21).
  - apply Permutation_refl.
  - exact Hrange.
  - unfold distinct_outpoints. apply (bool_decide_unpack _). vm_compute. exact I.
  - apply Forall_forall. repeat constructor; discriminate.
  - vm_compute. reflexivity.
Defined.

(** A target of 11 and a pool worth 5,000,021. *)
Lemma knapsack_change_not_small_witness :
  knapsack_amounts pool_small_and_large 11
  /\ ret (CoinSelection64.KnapsackSolver no_shuffle alternate alternate pool_small_and_large
            11) = true
  /\ (value_ret (CoinSelection64.KnapsackSolver no_shuffle alternate alternate
                   pool_small_and_large 11) = 11
      \/ 11 + MIN_CHANGE
         <= value_ret (CoinSelection64.KnapsackSolver no_shuffle alternate alternate
                         pool_small_and_large 11)).
Proof.
  assert (knapsack_amounts pool_small_and_large 11) as Hrange.
  { repeat split; vm_compute; discriminate. }
  split; [exact Hrange |].
  apply (Knapsack64Claims.knapsack_change_not_small no_shuffle alternate alternate
           pool_small_and_large 11).
  - apply Permutation_refl.
  - exact Hrange.
  - vm_compute. discriminate.
Defined.

End Coin64Witnesses.
